(** * m3gnet command line front-end: [m3gnet/cli.py]

    A shallow embedding of the command dispatcher of m3gnet:
    the two handlers [relax_structure] and [run_md], the argument parser
    that [main] configures, and [main] itself.

    The handlers call into pymatgen and the m3gnet model package; those
    collaborators are kept abstract (class [Externals]) and every call to
    them is recorded in a trace of events, so that the statements below can
    talk about which calls are made, with which arguments and in which
    order.  The parser is Python's [argparse] (CPython 3.11), modelled for
    the features [main] uses: optional arguments with [nargs] None, '+' and
    0, [type=] conversion, [required=], defaults, a mutually exclusive
    group, the implicit [-h/--help] and one level of sub-commands. *)

From Stdlib Require Import ZArith Ascii String.
From Stdlib Require Import Floats.SpecFloat.
From stdpp Require Import gmap strings list.

Set Warnings "-register-all".
Local Open Scope Z_scope.

(** ** Strings

    Python [str] values are modelled by [string]. *)

Module Str.

Definition startswith (s pre : string) : bool := String.prefix pre s.

Fixpoint contains (c : ascii) (s : string) : bool :=
  match s with
  | EmptyString => false
  | String a s' => if Ascii.eqb a c then true else contains c s'
  end.

(** [s.split(c, 1)] for a string that contains [c]: the parts before and
    after the first [c]. *)
Fixpoint split_at (c : ascii) (s : string) : string * string :=
  match s with
  | EmptyString => (EmptyString, EmptyString)
  | String a s' =>
      if Ascii.eqb a c then (EmptyString, s')
      else let '(l, r) := split_at c s' in (String a l, r)
  end.

(** [s.rfind(c)]: the highest index of [c] in [s], or [-1]. *)
Fixpoint rfind_from (c : ascii) (s : string) (i last : Z) : Z :=
  match s with
  | EmptyString => last
  | String a s' => rfind_from c s' (i + 1) (if Ascii.eqb a c then i else last)
  end.

Definition rfind (c : ascii) (s : string) : Z := rfind_from c s 0 (-1).

(** Slices [s[:n]] and [s[n:]] for [0 <= n]. *)
Fixpoint take (n : nat) (s : string) : string :=
  match n, s with
  | S n', String a s' => String a (take n' s')
  | _, _ => EmptyString
  end.

Fixpoint drop (n : nat) (s : string) : string :=
  match n, s with
  | S n', String _ s' => drop n' s'
  | _, _ => s
  end.

(** [s[i:i+1]]: the one-character string at index [i], empty when out of
    range. *)
Definition at_index (s : string) (i : Z) : string :=
  if i <? 0 then EmptyString else take 1 (drop (Z.to_nat i) s).

(** [list(s)]: the characters of [s], each as a string of length one. *)
Fixpoint chars (s : string) : list string :=
  match s with
  | EmptyString => []
  | String a s' => String a EmptyString :: chars s'
  end.

End Str.

(** ** [os.path.splitext] (posixpath)

    [genericpath._splitext(p, '/', None, '.')]: the extension is everything
    from the last dot of the last path component on, unless that component
    consists of leading dots only up to that dot. *)

Module os_path.

(** The while loop of [_splitext]: [n] is the number of indices left
    between [filenameIndex] and [dotIndex]. *)
Fixpoint skip_leading_dots (p : string) (filenameIndex : Z) (n : nat)
         (dotIndex : Z) : option (string * string) :=
  match n with
  | O => None
  | S n' =>
      if negb (String.eqb (Str.at_index p filenameIndex) ".")
      then Some (Str.take (Z.to_nat dotIndex) p, Str.drop (Z.to_nat dotIndex) p)
      else skip_leading_dots p (filenameIndex + 1) n' dotIndex
  end.

Definition splitext (p : string) : string * string :=
  let sepIndex := Str.rfind "/" p in
  let dotIndex := Str.rfind "." p in
  if sepIndex <? dotIndex then
    let filenameIndex := sepIndex + 1 in
    match skip_leading_dots p filenameIndex
            (Z.to_nat (dotIndex - filenameIndex)) dotIndex with
    | Some r => r
    | None => (p, EmptyString)
    end
  else (p, EmptyString).

End os_path.

(** ** Python values

    The values that can end up in an [argparse.Namespace] built by [main]:
    [None], booleans, integers, floats (IEEE doubles, as [spec_float]),
    strings, lists, and the two handler functions stored by
    [set_defaults(func=...)]. *)

Inductive handler := Frelax_structure | Frun_md.

Inductive value :=
| VNone
| VBool (b : bool)
| VInt (n : Z)
| VFloat (x : spec_float)
| VStr (s : string)
| VList (l : list value)
| VFunc (f : handler).

Abbreviation Namespace := (gmap string value).

(** [bool(v)], as evaluated by [if v:]. *)
Definition truthy (v : value) : bool :=
  match v with
  | VNone => false
  | VBool b => b
  | VInt n => negb (n =? 0)
  | VFloat (S754_zero _) => false
  | VFloat _ => true
  | VStr s => negb (String.eqb s "")
  | VList l => match l with [] => false | _ => true end
  | VFunc _ => true
  end.

(** [v is not None]. *)
Definition is_not_None (v : value) : bool :=
  match v with VNone => false | _ => true end.

(** ** Exceptions and the collaborators *)

Inductive exn :=
| AttributeError (name : string)
| TypeError (msg : string)
| KeyError (key : string)
| SystemExit (code : Z)
| ExternalError (descr : string).

Inductive result (A : Type) :=
| Ok (a : A)
| Raise (e : exn).
Arguments Ok {A} a.
Arguments Raise {A} e.

(** Everything [cli.py] imports and calls.  [World] is whatever state the
    collaborators keep or touch (the file system, the loaded model); every
    call may change it and may raise.  [py_float] and [py_int] are the
    builtins [float] and [int] applied to a string ([None] for a
    [ValueError]); [py_format] is the rendering of a value inside an
    f-string, which for a string is the string itself; [py_str] is the text
    [print] writes for an object. *)
Class Externals := {
  World : Type;
  PyObject : Type;
  py_float : string → option spec_float;
  py_int : string → option Z;
  py_format : value → string;
  py_format_str : ∀ s, py_format (VStr s) = s;
  py_str : PyObject → string;
  Structure_from_file : value → World → result PyObject * World;
  Relaxer : World → result PyObject * World;
  Relaxer_relax : PyObject → PyObject → World → result (gmap string PyObject) * World;
  Structure_to : PyObject → value → World → result unit * World;
  MolecularDynamics :
    PyObject → value → value → value → value → value → value →
    World → result PyObject * World;
  MolecularDynamics_run : PyObject → value → World → result unit * World;
}.

(** ** argparse *)

Module argparse.

Inductive nargs_t := nargs_None | ONE_OR_MORE | nargs_0.
Inductive action_t := store | store_true | help.
Inductive type_t := type_None | type_str | type_float | type_int.
Inductive default_t := SUPPRESS | Default (v : value).

(** One [add_argument] call.  [mutex_group] is the mutually exclusive
    group the argument was added to, if any.  Actions are identified by
    their [dest], which is unique within each parser of [main]. *)
Record Action := {
  option_strings : list string;
  dest : string;
  nargs : nargs_t;
  action : action_t;
  type : type_t;
  default : default_t;
  required : bool;
  mutex_group : option nat;
}.

(** The [-h/--help] argument every parser gets ([add_help=True]). *)
Definition help_action : Action :=
  {| option_strings := ["-h"; "--help"]; dest := "==SUPPRESS==";
     nargs := nargs_0; action := help; type := type_None;
     default := SUPPRESS; required := false; mutex_group := None |}.

(** A parser: its name in messages, its [_actions] in the order they
    were added, and its [_defaults] from [set_defaults]. *)
Record ArgumentParser := {
  prog : string;
  actions : list Action;
  defaults : list (string * value);
}.

Inductive ArgumentError :=
| ambiguous_option (option : string) (matches : list string)
| expected_one_argument (argument : string)
| expected_at_least_one_argument (argument : string)
| ignored_explicit_argument (argument : string) (explicit_arg : string)
| invalid_value (argument : string) (ty : type_t) (arg_string : string)
| not_allowed_with (argument : string) (conflict : string)
| invalid_choice (arg_string : string)
| arguments_required (names : list string)
| unrecognized_arguments (extras : list string).

(** How parsing leaves the process when it does not return:
    [parser.exit()] after printing the help (status 0), or
    [parser.error(message)] (usage and message, status 2). *)
Inductive exit :=
| exit_help (prog : string)
| exit_error (prog : string) (e : ArgumentError).

Definition exit_status (x : exit) : Z :=
  match x with exit_help _ => 0 | exit_error _ _ => 2 end.

Inductive parse_result (A : Type) :=
| Parsed (a : A)
| Exits (x : exit).
Arguments Parsed {A} a.
Arguments Exits {A} x.

(** [_get_action_name] of an optional: its option strings joined by
    a slash. *)
Definition action_name (a : Action) : string :=
  String.concat "/" (option_strings a).

(** [_option_string_actions], in insertion order. *)
Definition option_string_actions (p : ArgumentParser) : list (string * Action) :=
  flat_map (λ a, map (λ s, (s, a)) (option_strings a)) (actions p).

Fixpoint assoc {A} (k : string) (l : list (string * A)) : option A :=
  match l with
  | [] => None
  | (k', v) :: l' => if String.eqb k' k then Some v else assoc k l'
  end.

Definition lookup_option (p : ArgumentParser) (s : string) : option Action :=
  assoc s (option_string_actions p).

(** *** Telling options from arguments *)

Definition is_digit (c : ascii) : bool :=
  let n := nat_of_ascii c in (48 <=? n)%nat && (n <=? 57)%nat.

Fixpoint all_digits (s : string) : bool :=
  match s with
  | EmptyString => true
  | String c s' => is_digit c && all_digits s'
  end.

Definition digits1 (s : string) : bool :=
  negb (String.eqb s "") && all_digits s.

Fixpoint strip_newline (s : string) : string :=
  match s with
  | EmptyString => EmptyString
  | String c EmptyString => if Ascii.eqb c "010" then EmptyString else s
  | String c s' => String c (strip_newline s')
  end.

(** [_negative_number_matcher]: [^-\d+$|^-\d*\.\d+$] (decimal digits;
    [$] also matches before a final newline). *)
Definition negative_number (s : string) : bool :=
  match s with
  | String "-" body =>
      let body := strip_newline body in
      digits1 body
      || (Str.contains "." body
          && (let '(int_part, frac) := Str.split_at "." body in
              all_digits int_part && digits1 frac))
  | _ => false
  end.

(** The result of [_parse_optional]: [None] (a positional argument) or
    a tuple [(action, option_string, explicit_arg)] whose action is
    [None] for an option string this parser does not know. *)
Inductive optional :=
| Positional
| Optional (a : option Action) (option_string : string) (explicit_arg : option string).

Definition double_dash (s : string) : bool :=
  match s with
  | String c1 (String c2 _) => Ascii.eqb c1 "-" && Ascii.eqb c2 "-"
  | _ => false
  end.

Definition get_option_tuples (p : ArgumentParser) (option_string : string)
  : list (Action * string * option string) :=
  if double_dash option_string then
    let '(option_prefix, explicit_arg) :=
      if Str.contains "=" option_string
      then let '(l, r) := Str.split_at "=" option_string in (l, Some r)
      else (option_string, None) in
    omap (λ '(os, a),
            if Str.startswith os option_prefix then Some (a, os, explicit_arg)
            else None)
         (option_string_actions p)
  else
    let option_prefix := option_string in
    let short_option_prefix := Str.take 2 option_string in
    let short_explicit_arg := Str.drop 2 option_string in
    omap (λ '(os, a),
            if String.eqb os short_option_prefix
            then Some (a, os, Some short_explicit_arg)
            else if Str.startswith os option_prefix then Some (a, os, None)
            else None)
         (option_string_actions p).

Definition parse_optional (p : ArgumentParser) (arg_string : string)
  : ArgumentError + optional :=
  match arg_string with
  | EmptyString => inr Positional
  | String c tl =>
      if negb (Ascii.eqb c "-") then inr Positional
      else
        match lookup_option p arg_string with
        | Some a => inr (Optional (Some a) arg_string None)
        | None =>
            if String.eqb tl "" then inr Positional
            else
              let by_equals :=
                if Str.contains "=" arg_string then
                  let '(option_string, explicit_arg) := Str.split_at "=" arg_string in
                  match lookup_option p option_string with
                  | Some a => Some (Optional (Some a) option_string (Some explicit_arg))
                  | None => None
                  end
                else None in
              match by_equals with
              | Some r => inr r
              | None =>
                  match get_option_tuples p arg_string with
                  | [(a, os, e)] => inr (Optional (Some a) os e)
                  | (_ :: _ :: _) as ts =>
                      inl (ambiguous_option arg_string (map (λ t, snd (fst t)) ts))
                  | [] =>
                      if negative_number arg_string then inr Positional
                      else if Str.contains " " arg_string then inr Positional
                      else inr (Optional None arg_string None)
                  end
              end
        end
  end.

(** One character of [arg_strings_pattern], together with the option
    tuple recorded in [option_string_indices] for an ['O']. *)
Inductive pattern_char :=
| pA
| pDash
| pO (a : option Action) (option_string : string) (explicit_arg : option string).

Definition is_A (c : pattern_char) : bool :=
  match c with pA => true | _ => false end.

Fixpoint arg_strings_pattern (p : ArgumentParser) (arg_strings : list string)
  : ArgumentError + list (string * pattern_char) :=
  match arg_strings with
  | [] => inr []
  | s :: rest =>
      if String.eqb s "--" then inr ((s, pDash) :: map (λ s, (s, pA)) rest)
      else
        match parse_optional p s with
        | inl e => inl e
        | inr o =>
            match arg_strings_pattern p rest with
            | inl e => inl e
            | inr pat =>
                inr ((s, match o with
                         | Positional => pA
                         | Optional a os e => pO a os e
                         end) :: pat)
            end
        end
  end.

(** *** Consuming options and taking their actions *)

Section parsing.
Context `{Externals}.

(** The state of [_parse_known_args]: the namespace under construction,
    [seen_actions], [seen_non_default_actions], [extras], and the
    unrecognized arguments a sub-parser left behind. *)
Record pstate := {
  namespace : Namespace;
  seen_actions : gset string;
  seen_non_default_actions : gset string;
  extras : list string;
  unrecognized : list string;
}.

Definition add_extra (s : string) (st : pstate) : pstate :=
  {| namespace := namespace st; seen_actions := seen_actions st;
     seen_non_default_actions := seen_non_default_actions st;
     extras := extras st ++ [s]; unrecognized := unrecognized st |}.

Definition set_namespace (ns : Namespace) (st : pstate) : pstate :=
  {| namespace := ns; seen_actions := seen_actions st;
     seen_non_default_actions := seen_non_default_actions st;
     extras := extras st; unrecognized := unrecognized st |}.

Definition add_seen (d : string) (st : pstate) : pstate :=
  {| namespace := namespace st; seen_actions := {[d]} ∪ seen_actions st;
     seen_non_default_actions := seen_non_default_actions st;
     extras := extras st; unrecognized := unrecognized st |}.

Definition add_seen_non_default (d : string) (st : pstate) : pstate :=
  {| namespace := namespace st; seen_actions := seen_actions st;
     seen_non_default_actions := {[d]} ∪ seen_non_default_actions st;
     extras := extras st; unrecognized := unrecognized st |}.

(** [_get_value]: the [type=] conversion of one argument string. *)
Definition get_value (a : Action) (arg_string : string) : ArgumentError + value :=
  match type a with
  | type_None | type_str => inr (VStr arg_string)
  | type_float =>
      match py_float arg_string with
      | Some x => inr (VFloat x)
      | None => inl (invalid_value (action_name a) type_float arg_string)
      end
  | type_int =>
      match py_int arg_string with
      | Some n => inr (VInt n)
      | None => inl (invalid_value (action_name a) type_int arg_string)
      end
  end.

Fixpoint get_value_list (a : Action) (arg_strings : list string)
  : ArgumentError + list value :=
  match arg_strings with
  | [] => inr []
  | s :: rest =>
      match get_value a s with
      | inl e => inl e
      | inr v =>
          match get_value_list a rest with
          | inl e => inl e
          | inr vs => inr (v :: vs)
          end
      end
  end.

(** [arg_strings.remove('--')]: drops the first ["--"], if any. *)
Fixpoint remove_dashes (arg_strings : list string) : list string :=
  match arg_strings with
  | [] => []
  | s :: rest => if String.eqb s "--" then rest else s :: remove_dashes rest
  end.

(** [_get_values] for an optional: a single converted value when the
    action takes one argument and got one, a list otherwise. *)
Definition get_values (a : Action) (arg_strings : list string)
  : ArgumentError + value :=
  let arg_strings := remove_dashes arg_strings in
  match nargs a, arg_strings with
  | nargs_None, [s] => get_value a s
  | _, _ =>
      match get_value_list a arg_strings with
      | inl e => inl e
      | inr vs => inr (VList vs)
      end
  end.

(** [argument_values is not action.default].  The converted values are
    fresh objects, never [None]; against another default the test is
    taken to succeed (only the arguments of a mutually exclusive group
    are affected by it, and in [main] their default is [None]). *)
Definition is_not_default (v : value) (d : default_t) : bool :=
  match d with
  | Default VNone => is_not_None v
  | _ => true
  end.

Section with_parser.
Variable p : ArgumentParser.

(** [action_conflicts[a]]: the other members of [a]'s mutually exclusive
    group. *)
Definition action_conflicts (a : Action) : list Action :=
  match mutex_group a with
  | None => []
  | Some g =>
      filter (λ b, mutex_group b = Some g ∧ dest b ≠ dest a) (actions p)
  end.

(** What calling the action does ([__call__]). *)
Definition call_action (a : Action) (values : value) (st : pstate)
  : parse_result pstate :=
  match action a with
  | store => Parsed (set_namespace (<[dest a := values]> (namespace st)) st)
  | store_true => Parsed (set_namespace (<[dest a := VBool true]> (namespace st)) st)
  | help => Exits (exit_help (prog p))
  end.

Definition take_action (a : Action) (argument_strings : list string)
           (st : pstate) : parse_result pstate :=
  let st := add_seen (dest a) st in
  match get_values a argument_strings with
  | inl e => Exits (exit_error (prog p) e)
  | inr argument_values =>
      if is_not_default argument_values (default a) then
        match filter (λ c, dest c ∈ seen_non_default_actions st)
                     (action_conflicts a) with
        | c :: _ =>
            Exits (exit_error (prog p)
                     (not_allowed_with (action_name a) (action_name c)))
        | [] => call_action a argument_values (add_seen_non_default (dest a) st)
        end
      else call_action a argument_values st
  end.

Fixpoint take_actions (action_tuples : list (Action * list string))
         (st : pstate) : parse_result pstate :=
  match action_tuples with
  | [] => Parsed st
  | (a, args) :: rest =>
      match take_action a args st with
      | Parsed st' => take_actions rest st'
      | Exits x => Exits x
      end
  end.

(** The number of ['A']s a pattern starts with. *)
Fixpoint leading_args (pattern : list pattern_char) : nat :=
  match pattern with
  | pA :: rest => S (leading_args rest)
  | _ => 0%nat
  end.

(** [_match_argument] of an optional against the pattern that follows
    it: how many ['A']s it takes. *)
Definition match_argument (a : Action) (following : list pattern_char)
  : ArgumentError + nat :=
  match nargs a with
  | nargs_0 => inr 0%nat
  | nargs_None =>
      match following with
      | pA :: _ => inr 1%nat
      | _ => inl (expected_one_argument (action_name a))
      end
  | ONE_OR_MORE =>
      match leading_args following with
      | 0%nat => inl (expected_at_least_one_argument (action_name a))
      | n => inr n
      end
  end.

(** The loop of [consume_optional] while there is an explicit argument
    (as in [-xVALUE], [--opt=VALUE], or the single-dash cluster [-xyz]).
    Returns the action tuples found and, if the last option of a cluster
    has no explicit argument, that option. *)
Fixpoint consume_explicit (a : Action) (option_string explicit_arg : string)
  : ArgumentError + (list (Action * list string) * option Action) :=
  match nargs a with
  | nargs_0 =>
      match explicit_arg with
      | String c new_explicit_arg =>
          if negb (double_dash option_string) then
            let option_string' := String "-" (String c EmptyString) in
            match lookup_option p option_string' with
            | Some a' =>
                match new_explicit_arg with
                | EmptyString => inr ([(a, [])], Some a')
                | _ =>
                    match consume_explicit a' option_string' new_explicit_arg with
                    | inl e => inl e
                    | inr (tuples, last) => inr ((a, []) :: tuples, last)
                    end
                end
            | None => inl (ignored_explicit_argument (action_name a) explicit_arg)
            end
          else inl (ignored_explicit_argument (action_name a) explicit_arg)
      | EmptyString => inl (ignored_explicit_argument (action_name a) explicit_arg)
      end
  | _ => inr ([(a, [explicit_arg])], None)
  end.

(** [consume_optional]: the action tuples of the option at the current
    index and the number of following argument strings it takes. *)
Definition consume_optional (a : Action) (option_string : string)
           (explicit_arg : option string) (following : list (string * pattern_char))
  : ArgumentError + (list (Action * list string) * nat) :=
  match match explicit_arg with
        | Some e => consume_explicit a option_string e
        | None => inr ([], Some a)
        end with
  | inl e => inl e
  | inr (tuples, None) => inr (tuples, 0%nat)
  | inr (tuples, Some a') =>
      match match_argument a' (map snd following) with
      | inl e => inl e
      | inr n => inr (tuples ++ [(a', take n (map fst following))], n)
      end
  end.

(** The main loop of [_parse_known_args] over the argument strings and
    their pattern.  [skip] counts the strings still to pass over because
    the last option took them as its arguments.  [positional] is the
    action of the parser's one positional (the sub-command, which takes
    every remaining string), if it has one. *)
Fixpoint consume (positional : option (list string → pstate → parse_result pstate))
         (pattern : list (string * pattern_char)) (skip : nat) (st : pstate)
  : parse_result pstate :=
  match pattern with
  | [] => Parsed st
  | (s, c) :: rest =>
      match skip with
      | S k => consume positional rest k st
      | 0%nat =>
          match c with
          | pO None _ _ => consume positional rest 0%nat (add_extra s st)
          | pO (Some a) option_string explicit_arg =>
              match consume_optional a option_string explicit_arg rest with
              | inl e => Exits (exit_error (prog p) e)
              | inr (action_tuples, n) =>
                  match take_actions action_tuples st with
                  | Parsed st' => consume positional rest n st'
                  | Exits x => Exits x
                  end
              end
          | _ =>
              let parser_matches :=
                match c, rest with
                | pA, _ => true
                | pDash, (_, pA) :: _ => true
                | _, _ => false
                end in
              match positional with
              | Some f =>
                  if parser_matches then f (s :: map fst rest) st
                  else consume positional rest 0%nat (add_extra s st)
              | None => consume positional rest 0%nat (add_extra s st)
              end
          end
      end
  end.

(** The namespace [parse_known_args] starts from: the defaults of the
    actions, then the parser's [set_defaults]. *)
Definition initial_namespace : Namespace :=
  let ns :=
    foldl (λ (ns : Namespace) a,
             match default a, ns !! dest a with
             | Default v, None => <[dest a := v]> ns
             | _, _ => ns
             end) ∅ (actions p) in
  foldl (λ (ns : Namespace) '(k, v),
           match ns !! k with
           | None => <[k := v]> ns
           | Some _ => ns
           end) ns (defaults p).

Definition initial_state : pstate :=
  {| namespace := initial_namespace; seen_actions := ∅;
     seen_non_default_actions := ∅; extras := []; unrecognized := [] |}.

(** The closing loop over [_actions]: the names of the required actions
    not seen, and the [type=] conversion of string defaults of the
    others. *)
Fixpoint check_actions (seen : gset string) (acts : list Action) (ns : Namespace)
  : ArgumentError + (list string * Namespace) :=
  match acts with
  | [] => inr ([], ns)
  | a :: rest =>
      if bool_decide (dest a ∈ seen) then check_actions seen rest ns
      else if required a then
        match check_actions seen rest ns with
        | inl e => inl e
        | inr (names, ns') => inr (action_name a :: names, ns')
        end
      else
        match default a with
        | Default (VStr s) =>
            match ns !! dest a with
            | Some (VStr s') =>
                if String.eqb s' s then
                  match get_value a s with
                  | inl e => inl e
                  | inr v => check_actions seen rest (<[dest a := v]> ns)
                  end
                else check_actions seen rest ns
            | _ => check_actions seen rest ns
            end
        | _ => check_actions seen rest ns
        end
  end.

(** [parse_known_args(arg_strings, None)]: the namespace and the
    arguments nobody recognized. *)
Definition parse_known_args
           (positional : option (list string → pstate → parse_result pstate))
           (arg_strings : list string) : parse_result (Namespace * list string) :=
  match arg_strings_pattern p arg_strings with
  | inl e => Exits (exit_error (prog p) e)
  | inr pattern =>
      match consume positional pattern 0%nat initial_state with
      | Exits x => Exits x
      | Parsed st =>
          match check_actions (seen_actions st) (actions p) (namespace st) with
          | inl e => Exits (exit_error (prog p) e)
          | inr ((_ :: _) as names, _) =>
              Exits (exit_error (prog p) (arguments_required names))
          | inr ([], ns) => Parsed (ns, extras st ++ unrecognized st)
          end
      end
  end.

End with_parser.

(** The action of [add_subparsers()]: the first string names the
    sub-parser, which parses the others into a namespace of its own;
    that namespace is copied over and the strings it did not recognize
    are kept for the top-level parser. *)
Definition subparsers_action (top : ArgumentParser)
           (name_parser_map : list (string * ArgumentParser))
           (values : list string) (st : pstate) : parse_result pstate :=
  match values with
  | [] => Parsed st
  | parser_name :: arg_strings =>
      match assoc parser_name name_parser_map with
      | None => Exits (exit_error (prog top) (invalid_choice parser_name))
      | Some parser =>
          match parse_known_args parser None arg_strings with
          | Exits x => Exits x
          | Parsed (subnamespace, unrec) =>
              Parsed {| namespace := subnamespace ∪ namespace st;
                        seen_actions := seen_actions st;
                        seen_non_default_actions := seen_non_default_actions st;
                        extras := extras st;
                        unrecognized := unrec |}
          end
      end
  end.

(** [parser.parse_args()] of a parser with sub-parsers. *)
Definition parse_args (top : ArgumentParser)
           (name_parser_map : list (string * ArgumentParser))
           (argv : list string) : parse_result Namespace :=
  match parse_known_args top (Some (subparsers_action top name_parser_map)) argv with
  | Exits x => Exits x
  | Parsed (ns, []) => Parsed ns
  | Parsed (ns, (_ :: _) as argv') =>
      Exits (exit_error (prog top) (unrecognized_arguments argv'))
  end.

End parsing.

(** *** Which options a command line names

    The destinations of the options an argument string stands for when
    the parser takes it as an option: the option itself, spelled out,
    abbreviated or with an explicit argument attached, and, for a cluster
    of single-dash flags, every option of the cluster. *)
Definition named_by (p : ArgumentParser) (arg_string : string) : list string :=
  match parse_optional p arg_string with
  | inr (Optional (Some a) option_string (Some explicit_arg)) =>
      match consume_explicit p a option_string explicit_arg with
      | inr (tuples, last) =>
          map (λ t, dest (fst t)) tuples ++ map dest (option_list last)
      | inl _ => [dest a]
      end
  | inr (Optional (Some a) _ None) => [dest a]
  | _ => []
  end.

(** The command line names the option with destination [d]. *)
Definition supplied (p : ArgumentParser) (d : string) (argv : list string) : bool :=
  existsb (λ s, bool_decide (d ∈ named_by p s)) argv.

(** The destinations of the required arguments of a parser. *)
Definition required_dests (p : ArgumentParser) : list string :=
  map dest (filter (λ a, required a = true) (actions p)).

End argparse.

(** ** Effects: calls to the collaborators, output, exceptions

    A computation takes the collaborators' state and returns its result
    (a value or a raised exception), the new state, and the events it
    caused, in order. *)

Inductive printed (PyObject : Type) :=
| Text (s : string)
| Object (o : PyObject).
Arguments Text {PyObject} s.
Arguments Object {PyObject} o.

(** A call to a collaborator is recorded with its arguments and with
    what it returned or raised. *)
Inductive event (PyObject : Type) :=
| EvPrint (x : printed PyObject)
| EvPrintHelp (prog : string)
| EvError (prog : string) (e : argparse.ArgumentError)
| EvFromFile (filename : value) (r : result PyObject)
| EvRelaxer (r : result PyObject)
| EvRelax (relaxer s : PyObject) (r : result (gmap string PyObject))
| EvTo (s : PyObject) (filename : value) (r : result unit)
| EvMolecularDynamics (atoms : PyObject)
    (temperature ensemble timestep trajectory logfile loginterval : value)
    (r : result PyObject)
| EvRun (md : PyObject) (steps : value) (r : result unit).
Arguments EvPrint {PyObject} x.
Arguments EvPrintHelp {PyObject} prog.
Arguments EvError {PyObject} prog e.
Arguments EvFromFile {PyObject} filename r.
Arguments EvRelaxer {PyObject} r.
Arguments EvRelax {PyObject} relaxer s r.
Arguments EvTo {PyObject} s filename r.
Arguments EvMolecularDynamics {PyObject} atoms temperature ensemble timestep
  trajectory logfile loginterval r.
Arguments EvRun {PyObject} md steps r.

Section effects.
Context `{Externals}.

Definition M (A : Type) : Type := World → result A * World * list (event PyObject).

Definition ret {A} (a : A) : M A := λ w, (Ok a, w, []).

Definition raise {A} (e : exn) : M A := λ w, (Raise e, w, []).

Definition bind {A B} (m : M A) (k : A → M B) : M B := λ w,
  match m w with
  | (Ok a, w1, t1) => let '(r, w2, t2) := k a w1 in (r, w2, t1 ++ t2)
  | (Raise e, w1, t1) => (Raise e, w1, t1)
  end.

(** A call to a collaborator. *)
Definition external {A} (e : result A → event PyObject) (f : World → result A * World)
  : M A :=
  λ w, let '(r, w') := f w in (r, w', [e r]).

Definition emit (e : event PyObject) : M unit := λ w, (Ok tt, w, [e]).

End effects.

Declare Scope py_scope.
Delimit Scope py_scope with py.
Notation "'let*' x ':=' m 'in' k" := (bind m (λ x, k))
  (at level 10, x name, m at level 100, k at level 200) : py_scope.
Notation "'let*' ' pat ':=' m 'in' k" := (bind m (λ x, match x with pat => k end))
  (at level 10, pat pattern, m at level 100, k at level 200) : py_scope.
Notation "m1 >> m2" := (bind m1 (λ _, m2))
  (at level 80, right associativity) : py_scope.

(** ** The handlers and [main] *)

Section cli.
Context `{Externals}.
Local Open Scope py_scope.

(** [print(x)].  The text written for an object is its [py_str]:
    rendering an object is taken to be a function of the object, one that
    neither raises nor touches the collaborators' state, and writing to
    standard output is taken to succeed. *)
Definition print (x : printed PyObject) : M unit := emit (EvPrint x).

(** [args.name] *)
Definition getattr (args : Namespace) (name : string) : M value :=
  match args !! name with
  | Some v => ret v
  | None => raise (AttributeError name)
  end.

(** [d[key]] on a dict *)
Definition getitem (d : gmap string PyObject) (key : string) : M PyObject :=
  match d !! key with
  | Some o => ret o
  | None => raise (KeyError key)
  end.

(** The items [for x in v] goes through. *)
Definition iter (v : value) : M (list value) :=
  match v with
  | VList l => ret l
  | VStr s => ret (VStr <$> Str.chars s)
  | _ => raise (TypeError "object is not iterable")
  end.

(** [os.path.splitext(fn)] *)
Definition splitext (fn : value) : M (string * string) :=
  match fn with
  | VStr p => ret (os_path.splitext p)
  | _ => raise (TypeError "expected str, bytes or os.PathLike object")
  end.

Fixpoint for_each {A} (l : list A) (body : A → M unit) : M unit :=
  match l with
  | [] => ret tt
  | x :: l' => body x >> for_each l' body
  end.

(** The body of the loop of [relax_structure]. *)
Definition relax_structure_body (args : Namespace) (fn : value) : M unit :=
  let* s := external (EvFromFile fn) (Structure_from_file fn) in
  let* verbose := getattr args "verbose" in
  (if truthy verbose then
     print (Text "Starting structure") >>
     print (Object s) >>
     print (Text "Relaxing...")
   else ret tt) >>
  let* relaxer := external EvRelaxer Relaxer in
  let* relax_results := external (EvRelax relaxer s) (Relaxer_relax relaxer s) in
  let* final_structure := getitem relax_results "final_structure" in
  let* suffix := getattr args "suffix" in
  if truthy suffix then
    let* '(basename, ext) := splitext fn in
    let outfn := basename +:+ py_format suffix +:+ ext in
    external (EvTo final_structure (VStr outfn))
             (Structure_to final_structure (VStr outfn)) >>
    print (Text ("Structure written to " +:+ outfn +:+ "!"))
  else
    let* outfile := getattr args "outfile" in
    if is_not_None outfile then
      external (EvTo final_structure outfile)
               (Structure_to final_structure outfile) >>
      print (Text ("Structure written to " +:+ py_format outfile +:+ "!"))
    else
      print (Text "Final structure") >>
      print (Object final_structure).

Definition relax_structure (args : Namespace) : M value :=
  let* infile := getattr args "infile" in
  let* fns := iter infile in
  for_each fns (relax_structure_body args) >>
  ret (VInt 0).

(** The body of the loop of [run_md]. *)
Definition run_md_body (args : Namespace) (fn : value) : M unit :=
  let* s := external (EvFromFile fn) (Structure_from_file fn) in
  let* verbose := getattr args "verbose" in
  (if truthy verbose then
     print (Text "Starting structure") >>
     print (Object s) >>
     print (Text "Running MD...")
   else ret tt) >>
  let* temp := getattr args "temp" in
  let* ensemble := getattr args "ensemble" in
  let* timestep := getattr args "timestep" in
  let* trajectory := getattr args "trajectory" in
  let* logfile := getattr args "logfile" in
  let* loginterval := getattr args "loginterval" in
  let* md := external
               (EvMolecularDynamics s temp ensemble timestep trajectory logfile loginterval)
               (MolecularDynamics s temp ensemble timestep trajectory logfile loginterval) in
  let* nsteps := getattr args "nsteps" in
  external (EvRun md nsteps) (MolecularDynamics_run md nsteps).

Definition run_md (args : Namespace) : M value :=
  let* infile := getattr args "infile" in
  let* fns := iter infile in
  for_each fns (run_md_body args) >>
  ret (VInt 0).

(** [func(args)] for a value [func]. *)
Definition call (func : value) (args : Namespace) : M value :=
  match func with
  | VFunc Frelax_structure => relax_structure args
  | VFunc Frun_md => run_md args
  | _ => raise (TypeError "object is not callable")
  end.

Import argparse.

(** The parsers [main] builds. *)
Definition parser : ArgumentParser :=
  {| prog := "m3g"; actions := [help_action]; defaults := [] |}.

Definition p_relax : ArgumentParser :=
  {| prog := "m3g relax";
     actions :=
       [ help_action;
         {| option_strings := ["-i"; "--infile"]; dest := "infile";
            nargs := ONE_OR_MORE; action := store; type := type_None;
            default := Default VNone; required := true; mutex_group := None |};
         {| option_strings := ["-v"; "--verbose"]; dest := "verbose";
            nargs := nargs_0; action := store_true; type := type_None;
            default := Default (VBool false); required := false;
            mutex_group := None |};
         {| option_strings := ["-s"; "--suffix"]; dest := "suffix";
            nargs := nargs_None; action := store; type := type_None;
            default := Default VNone; required := false;
            mutex_group := Some 0%nat |};
         {| option_strings := ["-o"; "--outfile"]; dest := "outfile";
            nargs := nargs_None; action := store; type := type_None;
            default := Default VNone; required := false;
            mutex_group := Some 0%nat |} ];
     defaults := [("func", VFunc Frelax_structure)] |}.

(** The float literal [2.0]: 2^52 * 2^-51. *)
Definition float_2_0 : spec_float := S754_finite false 4503599627370496 (-51).

Definition p_md : ArgumentParser :=
  {| prog := "m3g md";
     actions :=
       [ help_action;
         {| option_strings := ["-i"; "--infile"]; dest := "infile";
            nargs := ONE_OR_MORE; action := store; type := type_None;
            default := Default VNone; required := true; mutex_group := None |};
         {| option_strings := ["-v"; "--verbose"]; dest := "verbose";
            nargs := nargs_0; action := store_true; type := type_None;
            default := Default (VBool false); required := false;
            mutex_group := None |};
         {| option_strings := ["-t"; "--temp"]; dest := "temp";
            nargs := nargs_None; action := store; type := type_float;
            default := Default VNone; required := true; mutex_group := None |};
         {| option_strings := ["-e"; "--ensemble"]; dest := "ensemble";
            nargs := nargs_None; action := store; type := type_str;
            default := Default (VStr "nvt"); required := true;
            mutex_group := None |};
         {| option_strings := ["-dt"; "--timestep"]; dest := "timestep";
            nargs := nargs_None; action := store; type := type_float;
            default := Default (VFloat float_2_0); required := true;
            mutex_group := None |};
         {| option_strings := ["--traj"]; dest := "trajectory";
            nargs := nargs_None; action := store; type := type_str;
            default := Default (VStr "md.traj"); required := false;
            mutex_group := None |};
         {| option_strings := ["--log"]; dest := "logfile";
            nargs := nargs_None; action := store; type := type_str;
            default := Default (VStr "md.log"); required := false;
            mutex_group := None |};
         {| option_strings := ["--loginterval"]; dest := "loginterval";
            nargs := nargs_None; action := store; type := type_int;
            default := Default (VInt 100); required := false;
            mutex_group := None |};
         {| option_strings := ["-n"; "--nsteps"]; dest := "nsteps";
            nargs := nargs_None; action := store; type := type_int;
            default := Default (VInt 1000); required := true;
            mutex_group := None |} ];
     defaults := [("func", VFunc Frun_md)] |}.

Definition subparsers : list (string * ArgumentParser) :=
  [("relax", p_relax); ("md", p_md)].

(** What the process shows when the parser exits. *)
Definition exit_event (x : exit) : event PyObject :=
  match x with
  | exit_help prog => EvPrintHelp prog
  | exit_error prog e => EvError prog e
  end.

(** [main()], run on the command line [argv] ([sys.argv[1:]]). *)
Definition main (argv : list string) : M value :=
  match parse_args parser subparsers argv with
  | Exits x => emit (exit_event x) >> raise (SystemExit (exit_status x))
  | Parsed args =>
      match args !! "func" with
      | None => emit (EvPrintHelp (prog parser)) >> raise (SystemExit (-1))
      | Some func => call func args
      end
  end.

End cli.

(** ** A concrete environment

    A small instance of the collaborators, used to run the model on
    concrete command lines: structures are described by strings, loading
    ["missing.cif"] raises, relaxing a structure primes its description,
    and the state lists the files written and the simulations run. *)

Module sample.

Fixpoint digits_value (s : string) (acc : Z) : option Z :=
  match s with
  | EmptyString => Some acc
  | String c s' =>
      if argparse.is_digit c
      then digits_value s' (10 * acc + (Z.of_nat (nat_of_ascii c) - 48))
      else None
  end.

Definition int (s : string) : option Z :=
  match s with
  | EmptyString => None
  | String "-" s' => if String.eqb s' "" then None else Z.opp <$> digits_value s' 0
  | _ => digits_value s 0
  end.

Definition float (s : string) : option spec_float :=
  if String.eqb s "2.0" then Some float_2_0
  else match int s with
       | Some (Zpos m) => Some (S754_finite false m 0)
       | Some (Zneg m) => Some (S754_finite true m 0)
       | Some Z0 => Some (S754_zero false)
       | None => None
       end.

Definition format (v : value) : string :=
  match v with
  | VStr s => s
  | VNone => "None"
  | VBool true => "True"
  | VBool false => "False"
  | _ => "..."
  end.

Definition from_file (fn : value) (w : list string) : result string * list string :=
  match fn with
  | VStr p =>
      if String.eqb p "missing.cif"
      then (Raise (ExternalError "FileNotFoundError"), w)
      else (Ok ("Structure " +:+ p), w)
  | _ => (Raise (TypeError "expected str"), w)
  end.

#[export] Instance env : Externals := {|
  World := list string;
  PyObject := string;
  py_float := float;
  py_int := int;
  py_format := format;
  py_format_str := λ s, eq_refl;
  py_str := λ o, o;
  Structure_from_file := from_file;
  Relaxer := λ w, (Ok "Relaxer", w);
  Relaxer_relax := λ _ s w, (Ok {[ "final_structure" := s +:+ "'" ]}, w);
  Structure_to := λ s filename w, (Ok tt, w ++ ["to " +:+ format filename]);
  MolecularDynamics := λ atoms _ _ _ _ _ _ w, (Ok ("MD " +:+ atoms), w);
  MolecularDynamics_run := λ md _ w, (Ok tt, w ++ ["run " +:+ md]);
|}.

(** Running [main] in this environment, from a state in which nothing
    has been written. *)
Definition parsed (argv : list string) : Namespace :=
  match argparse.parse_args (H := env) parser subparsers argv with
  | argparse.Parsed args => args
  | argparse.Exits _ => ∅
  end.

Definition outcome (argv : list string) : result value :=
  (main (H := env) argv []).1.1.
Definition final_state (argv : list string) : list string :=
  (main (H := env) argv []).1.2.
Definition trace (argv : list string) : list (event PyObject) :=
  (main (H := env) argv []).2.

(** Command lines used as examples. *)
Definition md_options : list string :=
  ["-i"; "a.cif"; "b.cif"; "-t"; "300"; "-e"; "nvt"; "-dt"; "1"; "-n"; "50"].
Definition md_line : list string := "md" :: md_options.

End sample.

(** ** Observations on traces *)

(** The output actions of the relax handler: writing a structure to a
    file, or printing it on the console under the heading
    ["Final structure"]. *)
Inductive output_action (PyObject : Type) :=
| WriteFile (s : PyObject) (filename : value)
| ConsolePrint (s : PyObject).
Arguments WriteFile {PyObject} s filename.
Arguments ConsolePrint {PyObject} s.

Section observations.
Context `{Externals}.

(** The exception a recorded call to a collaborator raised, if it did. *)
Definition raised (ev : event PyObject) : option exn :=
  match ev with
  | EvFromFile _ (Raise e) => Some e
  | EvRelaxer (Raise e) => Some e
  | EvRelax _ _ (Raise e) => Some e
  | EvTo _ _ (Raise e) => Some e
  | EvMolecularDynamics _ _ _ _ _ _ _ (Raise e) => Some e
  | EvRun _ _ (Raise e) => Some e
  | _ => None
  end.

Definition is_print (ev : event PyObject) : bool :=
  match ev with EvPrint _ => true | _ => false end.

(** Everything in a trace but the text printed by [print]. *)
Definition without_prints (tr : list (event PyObject)) : list (event PyObject) :=
  filter (λ ev, is_print ev = false) tr.

(** The file names handed to [Structure.to], in order. *)
Definition written_files (tr : list (event PyObject)) : list value :=
  omap (λ ev, match ev with EvTo _ filename _ => Some filename | _ => None end) tr.

Fixpoint output_actions (tr : list (event PyObject)) : list (output_action PyObject) :=
  match tr with
  | [] => []
  | EvTo s filename _ :: tr' => WriteFile s filename :: output_actions tr'
  | EvPrint (Text t) :: tr' =>
      match tr' with
      | EvPrint (Object o) :: _ =>
          if String.eqb t "Final structure"
          then ConsolePrint o :: output_actions tr'
          else output_actions tr'
      | _ => output_actions tr'
      end
  | _ :: tr' => output_actions tr'
  end.

(** The file name the relax handler builds from an input file name and
    the suffix. *)
Definition suffixed (fn : string) (suffix : string) : string :=
  fst (os_path.splitext fn) +:+ suffix +:+ snd (os_path.splitext fn).

(** The file [relax_structure] writes the relaxed structure of the input
    file [fn] to, if it writes one. *)
Definition output_file (args : Namespace) (fn : string) : option value :=
  let suffix := default VNone (args !! "suffix") in
  let outfile := default VNone (args !! "outfile") in
  if truthy suffix then Some (VStr (suffixed fn (py_format suffix)))
  else if is_not_None outfile then Some outfile
  else None.

(** The one output action [relax_structure] owes for the input file [fn]
    whose relaxed structure is [final]. *)
Definition output_for (args : Namespace) (fn : string) (final : PyObject)
  : output_action PyObject :=
  match output_file args fn with
  | Some filename => WriteFile final filename
  | None => ConsolePrint final
  end.

(** The status lines of a verbose run for the loaded structure [s]. *)
Definition status_lines (args : Namespace) (s : PyObject) (doing : string)
  : list (event PyObject) :=
  if truthy (default VNone (args !! "verbose"))
  then [EvPrint (Text "Starting structure"); EvPrint (Object s);
        EvPrint (Text doing)]
  else [].

(** The events of the output action of [relax_structure]. *)
Definition output_events (args : Namespace) (fn : string) (final : PyObject)
  : list (event PyObject) :=
  match output_for args fn final with
  | WriteFile s filename =>
      [EvTo s filename (Ok tt);
       EvPrint (Text ("Structure written to " +:+ py_format filename +:+ "!"))]
  | ConsolePrint s =>
      [EvPrint (Text "Final structure"); EvPrint (Object s)]
  end.

(** The events of one successful iteration of [relax_structure] on the
    input file [fn]. *)
Definition relax_block (args : Namespace) (fn : string) (b : list (event PyObject)) : Prop :=
  ∃ s relaxer relax_results final,
    relax_results !! "final_structure" = Some final ∧
    b = [EvFromFile (VStr fn) (Ok s)]
        ++ status_lines args s "Relaxing..."
        ++ [EvRelaxer (Ok relaxer); EvRelax relaxer s (Ok relax_results)]
        ++ output_events args fn final.


(** The structures loaded, each with the file name it was loaded from,
    in order. *)
Definition loaded (tr : list (event PyObject)) : list (value * PyObject) :=
  omap (λ ev, match ev with EvFromFile fn (Ok s) => Some (fn, s) | _ => None end) tr.

Definition is_md_call (ev : event PyObject) : bool :=
  match ev with
  | EvMolecularDynamics _ _ _ _ _ _ _ _ | EvRun _ _ _ => true
  | _ => false
  end.

(** The calls that build and run molecular-dynamics drivers, in order. *)
Definition md_calls (tr : list (event PyObject)) : list (event PyObject) :=
  filter (λ ev, is_md_call ev = true) tr.


(** A trace that stops right after the heading ["Final structure"]. *)
Definition ends_with_heading (tr : list (event PyObject)) : bool :=
  match last tr with
  | Some (EvPrint (Text t)) => String.eqb t "Final structure"
  | _ => false
  end.

(** The iterations of a loop that ran to its end: the state after each
    one and the events of each one. *)
Inductive iterates {A} (body : A → M unit)
  : list A → World → World → list (list (event PyObject)) → Prop :=
| iterates_nil w : iterates body [] w w []
| iterates_cons x l w w1 w2 t ts :
    body x w = (Ok tt, w1, t) →
    iterates body l w1 w2 ts →
    iterates body (x :: l) w w2 (t :: ts).

(** A computation in which an exception raised by a collaborator is
    never caught: the raising call is the last event and its exception is
    the outcome. *)
Definition propagates {A} (m : M A) : Prop :=
  ∀ w r w' tr tr1 ev tr2 e,
    m w = (r, w', tr) →
    tr = tr1 ++ ev :: tr2 →
    raised ev = Some e →
    tr2 = [] ∧ r = Raise e.

(** Two computations that end alike and differ at most in what they
    print; with [quiet], the first one prints no more than the second. *)
Definition alike (quiet : bool) (t1 t2 : list (event PyObject)) : Prop :=
  without_prints t1 = without_prints t2 ∧ (quiet = true → sublist t1 t2).

Definition same_but_prints {A} (quiet : bool) (m1 m2 : M A) : Prop :=
  ∀ w, ∃ r w' t1 t2,
    m1 w = (r, w', t1) ∧ m2 w = (r, w', t2) ∧ alike quiet t1 t2.

End observations.

(** ** Invariants of the parser *)

Section parser_invariants.
Context `{Externals}.
Import argparse.

(** The options recorded in a pattern are options of the parser. *)
Definition known_actions (p : ArgumentParser) (pat : list (string * pattern_char)) : Prop :=
  Forall (λ sc, match sc.2 with
                | pO (Some a) os e => parse_optional p sc.1 = inr (Optional (Some a) os e)
                | _ => True
                end) pat.

(** [-s] and [-o] of [relax]: whichever has a value other than [None]
    was seen with a value, and never both. *)
Definition exclusive (st : pstate) : Prop :=
  (namespace st !! "suffix" = Some VNone ∨ "suffix" ∈ seen_non_default_actions st) ∧
  (namespace st !! "outfile" = Some VNone ∨ "outfile" ∈ seen_non_default_actions st) ∧
  ¬ ("suffix" ∈ seen_non_default_actions st ∧ "outfile" ∈ seen_non_default_actions st).

(** Every default that is a string belongs to an argument whose [type]
    leaves strings as they are, so that converting it is no change. *)
Definition str_defaults (p : ArgumentParser) : Prop :=
  Forall (λ a, ∀ s, default a = Default (VStr s) → required a = false →
                    type a = type_None ∨ type a = type_str) (actions p).

(** The destination under which the help option of a parser is known. *)
Definition help_dest : string := dest help_action.

End parser_invariants.

(** ** More observations on traces *)

Section more_observations.
Context `{Externals}.

Definition is_relax_call (ev : event PyObject) : bool :=
  match ev with
  | EvRelaxer _ | EvRelax _ _ _ => true
  | _ => false
  end.

(** The calls that build relaxers and relax structures, in order. *)
Definition relax_calls (tr : list (event PyObject)) : list (event PyObject) :=
  filter (λ ev, is_relax_call ev = true) tr.

(** The line [relax_structure] prints after writing to [filename]. *)
Definition report (filename : value) : event PyObject :=
  EvPrint (Text ("Structure written to " +:+ py_format filename +:+ "!")).

(** A relaxation that returned results without the key
    ["final_structure"], and the exception the lookup of that key raises. *)
Definition missing_final_structure (ev : event PyObject) : option exn :=
  match ev with
  | EvRelax _ _ (Ok relax_results) =>
      match relax_results !! "final_structure" with
      | None => Some (KeyError "final_structure")
      | Some _ => None
      end
  | _ => None
  end.

(** Every event of a trace stands in the relation [Q] to the events that
    follow it. *)
Definition followed_by (Q : event PyObject → list (event PyObject) → Prop)
           (tr : list (event PyObject)) : Prop :=
  ∀ tr1 ev tr2, tr = tr1 ++ ev :: tr2 → Q ev tr2.

(** A successful write is followed at once by its report. *)
Definition write_reported (ev : event PyObject) (rest : list (event PyObject)) : Prop :=
  match ev with
  | EvTo _ filename (Ok _) => ∃ rest', rest = report filename :: rest'
  | _ => True
  end.

End more_observations.

(** ** A second environment

    The sample environment, except that relaxing returns results without
    the key ["final_structure"]. *)
Definition bare_env : Externals := {|
  World := list string;
  PyObject := string;
  py_float := sample.float;
  py_int := sample.int;
  py_format := sample.format;
  py_format_str := λ s, eq_refl;
  py_str := λ o, o;
  Structure_from_file := sample.from_file;
  Relaxer := λ w, (Ok "Relaxer", w);
  Relaxer_relax := λ _ _ w, (Ok ∅, w);
  Structure_to := λ s filename w, (Ok tt, w ++ ["to " +:+ sample.format filename]);
  MolecularDynamics := λ atoms _ _ _ _ _ _ w, (Ok ("MD " +:+ atoms), w);
  MolecularDynamics_run := λ md _ w, (Ok tt, w ++ ["run " +:+ md]);
|}.

(** A namespace as the parser never builds one: both the suffix and the
    output file are set. *)
Definition both_set : Namespace :=
  <["outfile" := VStr "out.cif"]>
    (sample.parsed ["relax"; "-i"; "a.cif"; "b.tar.gz"; "-s"; "_relax"]).

(** * Properties *)

(** ** [os.path.splitext] *)

Example splitext_cif : os_path.splitext "data/Li2O.cif" = ("data/Li2O", ".cif").
Proof. reflexivity. Qed.

Example splitext_dotfile : os_path.splitext "run.1/.hidden" = ("run.1/.hidden", "").
Proof. reflexivity. Qed.

Example splitext_two_dots : os_path.splitext "a.tar.gz" = ("a.tar", ".gz").
Proof. reflexivity. Qed.

Lemma take_drop_string (n : nat) (s : string) : Str.take n s +:+ Str.drop n s = s.
Proof.
  revert s; induction n as [|n IH]; intros [|a s]; simpl; try reflexivity.
  change (String a (Str.take n s +:+ Str.drop n s) = String a s).
  f_equal. apply IH.
Qed.

Lemma append_empty_r (s : string) : s +:+ "" = s.
Proof.
  induction s as [|a s IH]; [reflexivity|].
  change (String a (s +:+ "") = String a s). by rewrite IH.
Qed.

Lemma skip_leading_dots_join p i n d r e :
  os_path.skip_leading_dots p i n d = Some (r, e) → r +:+ e = p.
Proof.
  revert i; induction n as [|n IH]; intros i; simpl; [discriminate|].
  destruct (negb _); [|by apply IH].
  intros [= <- <-]. apply take_drop_string.
Qed.

(** "It is always true that root + ext == p." *)
Lemma splitext_join (p : string) :
  fst (os_path.splitext p) +:+ snd (os_path.splitext p) = p.
Proof.
  unfold os_path.splitext.
  destruct (_ <? _); simpl; [|apply append_empty_r].
  destruct (os_path.skip_leading_dots _ _ _ _) as [[r e]|] eqn:E; simpl.
  - by eapply skip_leading_dots_join.
  - apply append_empty_r.
Qed.

(** ** Computations *)

Section computations.
Context `{Externals}.
Local Open Scope py_scope.

Lemma bind_ok {A B} (m : M A) (k : A → M B) w r w' tr :
  bind m k w = (r, w', tr) →
  (∃ a w1 t1 t2, m w = (Ok a, w1, t1) ∧ k a w1 = (r, w', t2) ∧ tr = t1 ++ t2)
  ∨ (∃ e, m w = (Raise e, w', tr) ∧ r = Raise e).
Proof.
  unfold bind. destruct (m w) as [[[a|e] w1] t1].
  - destruct (k a w1) as [[r' w2] t2] eqn:E. intros [= <- <- <-].
    left. by exists a, w1, t1, t2.
  - intros [= <- <- <-]. right. by exists e.
Qed.

Lemma bind_run {A B} (m : M A) (k : A → M B) w a w1 t1 :
  m w = (Ok a, w1, t1) →
  bind m k w = (let '(r, w2, t2) := k a w1 in (r, w2, t1 ++ t2)).
Proof. unfold bind. by intros ->. Qed.

Lemma bind_raise {A B} (m : M A) (k : A → M B) w e w1 t1 :
  m w = (Raise e, w1, t1) → bind m k w = (Raise e, w1, t1).
Proof. unfold bind. by intros ->. Qed.

(** *** Loops *)

Lemma for_each_iterates {A} (body : A → M unit) l w w' tr :
  for_each l body w = (Ok tt, w', tr) →
  ∃ ts, iterates body l w w' ts ∧ tr = concat ts.
Proof.
  revert w tr; induction l as [|x l IH]; intros w tr; simpl.
  - intros [= <- <-]. exists []. split; [constructor | done].
  - intros Hb. apply bind_ok in Hb as [(u & w1 & t1 & t2 & Hx & Hl & ->)|(e & _ & [=])].
    destruct u. apply IH in Hl as (ts & Hts & ->).
    exists (t1 :: ts). split; [by econstructor | done].
Qed.

Lemma iterates_Forall2 {A B} (body : B → M unit) (f : A → B)
      (P : A → list (event PyObject) → Prop) l w w' ts :
  (∀ x w w1 t, body (f x) w = (Ok tt, w1, t) → P x t) →
  iterates body (f <$> l) w w' ts → Forall2 P l ts.
Proof.
  intros HP. revert w ts. induction l as [|x l IH]; intros w ts Hit.
  - inversion Hit. constructor.
  - inversion Hit; subst. constructor; eauto.
Qed.

(** *** Exceptions of the collaborators are not caught *)

Lemma propagates_ret {A} (a : A) : propagates (ret a).
Proof. intros w r w' tr tr1 ev tr2 e [= <- <- <-] Htr; by destruct tr1. Qed.

Lemma propagates_raise {A} (x : exn) : propagates (raise (A := A) x).
Proof. intros w r w' tr tr1 ev tr2 e [= <- <- <-] Htr; by destruct tr1. Qed.

Lemma propagates_emit (ev : event PyObject) : raised ev = None → propagates (emit ev).
Proof.
  intros Hev w r w' tr tr1 ev' tr2 e [= <- <- <-] Htr Hr.
  destruct tr1 as [|? [|]]; simplify_eq/=; congruence.
Qed.

Lemma propagates_external {A} (mk : result A → event PyObject) f :
  (∀ r, raised (mk r) = match r with Raise e => Some e | Ok _ => None end) →
  propagates (external mk f).
Proof.
  intros Hmk w r w' tr tr1 ev tr2 e. unfold external.
  destruct (f w) as [r0 w0]. intros [= <- <- <-] Htr Hr.
  destruct tr1 as [|? [|]]; simplify_eq/=.
  rewrite Hmk in Hr. by destruct r0; simplify_eq.
Qed.

Lemma propagates_bind {A B} (m : M A) (k : A → M B) :
  propagates m → (∀ a, propagates (k a)) → propagates (bind m k).
Proof.
  unfold propagates in *. intros Hm Hk w r w' tr tr1 ev tr2 e Hb Htr Hr.
  apply bind_ok in Hb as [(a & w1 & t1 & t2 & Hmw & Hkw & ->)|(x & Hmw & ->)].
  - apply app_eq_inv in Htr as [(k' & -> & Hl)|(k' & -> & ->)].
    + destruct k' as [|ev0 k']; simplify_eq/=.
      * eapply (Hk a) with (tr1 := []); eauto.
      * edestruct Hm as [_ ?]; [exact Hmw|done|done|discriminate].
    + eapply (Hk a); eauto.
  - by destruct (Hm _ _ _ _ _ _ _ _ Hmw Htr Hr) as [-> [= ->]].
Qed.

Lemma propagates_for_each {A} (body : A → M unit) l :
  (∀ x, propagates (body x)) → propagates (for_each l body).
Proof.
  intros Hb. induction l as [|x l IH]; simpl.
  - apply propagates_ret.
  - apply propagates_bind; [apply Hb | by intros _].
Qed.

Lemma propagates_print x : propagates (print x).
Proof. by apply propagates_emit. Qed.

Lemma propagates_getattr args name : propagates (getattr args name).
Proof.
  unfold getattr. destruct (args !! name); [apply propagates_ret | apply propagates_raise].
Qed.

Lemma propagates_relax_structure_body args fn :
  propagates (relax_structure_body args fn).
Proof.
  unfold relax_structure_body, getitem, splitext.
  repeat first
    [ apply propagates_bind; [|intros ?]
    | apply propagates_getattr
    | apply propagates_print
    | apply propagates_ret
    | apply propagates_raise
    | apply propagates_external; by intros []
    | case_match ].
Qed.

Lemma propagates_run_md_body args fn : propagates (run_md_body args fn).
Proof.
  unfold run_md_body.
  repeat first
    [ apply propagates_bind; [|intros ?]
    | apply propagates_getattr
    | apply propagates_print
    | apply propagates_ret
    | apply propagates_external; by intros []
    | case_match ].
Qed.

Lemma propagates_iter v : propagates (iter v).
Proof. destruct v; simpl; first [apply propagates_ret | apply propagates_raise]. Qed.

Lemma propagates_relax_structure args : propagates (relax_structure args).
Proof.
  unfold relax_structure.
  repeat first
    [ apply propagates_bind; [|intros ?]
    | apply propagates_getattr
    | apply propagates_iter
    | apply propagates_ret
    | apply propagates_for_each; intros ?; apply propagates_relax_structure_body ].
Qed.

Lemma propagates_run_md args : propagates (run_md args).
Proof.
  unfold run_md.
  repeat first
    [ apply propagates_bind; [|intros ?]
    | apply propagates_getattr
    | apply propagates_iter
    | apply propagates_ret
    | apply propagates_for_each; intros ?; apply propagates_run_md_body ].
Qed.

End computations.

(** ** Verbosity only prints *)

Section verbosity.
Context `{Externals}.
Local Open Scope py_scope.

Lemma alike_refl q t : alike q t t.
Proof. by split. Qed.

Lemma alike_app q t1 t2 u1 u2 :
  alike q t1 t2 → alike q u1 u2 → alike q (t1 ++ u1) (t2 ++ u2).
Proof.
  intros [Ht Hqt] [Hu Hqu]. split.
  - unfold without_prints in *. rewrite !filter_app. congruence.
  - intros Hq. apply sublist_app; auto.
Qed.

Lemma same_but_prints_refl {A} q (m : M A) : same_but_prints q m m.
Proof.
  intros w. destruct (m w) as [[r w'] t] eqn:E.
  exists r, w', t, t. auto using alike_refl.
Qed.

Lemma same_but_prints_bind {A B} q (m1 m2 : M A) (k1 k2 : A → M B) :
  same_but_prints q m1 m2 →
  (∀ a, same_but_prints q (k1 a) (k2 a)) →
  same_but_prints q (bind m1 k1) (bind m2 k2).
Proof.
  intros Hm Hk w. destruct (Hm w) as (r & w1 & t1 & t2 & E1 & E2 & Ht).
  unfold bind. rewrite E1, E2. destruct r as [a|e].
  - destruct (Hk a w1) as (r' & w2 & u1 & u2 & -> & -> & Hu).
    exists r', w2, (t1 ++ u1), (t2 ++ u2). auto using alike_app.
  - by exists (Raise e), w1, t1, t2.
Qed.

Lemma same_but_prints_bind_ret {A B} q (a1 a2 : A) (k1 k2 : A → M B) :
  same_but_prints q (k1 a1) (k2 a2) →
  same_but_prints q (bind (ret a1) k1) (bind (ret a2) k2).
Proof.
  intros Hk w. destruct (Hk w) as (r & w' & t1 & t2 & E1 & E2 & Ht).
  unfold bind, ret. rewrite E1, E2. by exists r, w', t1, t2.
Qed.

Lemma same_but_prints_for_each {A} q (body1 body2 : A → M unit) l :
  (∀ x, same_but_prints q (body1 x) (body2 x)) →
  same_but_prints q (for_each l body1) (for_each l body2).
Proof.
  intros Hb. induction l as [|x l IH]; simpl.
  - apply same_but_prints_refl.
  - apply same_but_prints_bind; [apply Hb | by intros _].
Qed.

(** The status lines are the only thing that depends on [args.verbose]. *)
Lemma same_but_prints_status (v1 v2 : value) (s : PyObject) (doing : string) :
  same_but_prints (negb (truthy v1))
    (if truthy v1 then
       print (Text "Starting structure") >> print (Object s) >> print (Text doing)
     else ret tt)
    (if truthy v2 then
       print (Text "Starting structure") >> print (Object s) >> print (Text doing)
     else ret tt).
Proof.
  intros w. destruct (truthy v1), (truthy v2); simpl;
    eexists _, _, _, _; (split; [reflexivity|]); (split; [reflexivity|]);
    split; try done; intros _; apply sublist_nil_l.
Qed.

Lemma getattr_insert_eq (args : Namespace) name v :
  getattr (<[name := v]> args) name = ret v.
Proof. unfold getattr. by rewrite lookup_insert_eq. Qed.

Lemma getattr_insert_ne (args : Namespace) name name' v :
  name ≠ name' → getattr (<[name := v]> args) name' = getattr args name'.
Proof. intros. unfold getattr. by rewrite lookup_insert_ne. Qed.

Lemma same_but_prints_relax_structure_body args v1 v2 fn :
  same_but_prints (negb (truthy v1))
    (relax_structure_body (<["verbose" := v1]> args) fn)
    (relax_structure_body (<["verbose" := v2]> args) fn).
Proof.
  unfold relax_structure_body.
  rewrite !getattr_insert_eq, !getattr_insert_ne by done.
  apply same_but_prints_bind; [apply same_but_prints_refl | intros s].
  apply same_but_prints_bind_ret.
  apply same_but_prints_bind; [apply same_but_prints_status | intros _].
  apply same_but_prints_refl.
Qed.

Lemma same_but_prints_run_md_body args v1 v2 fn :
  same_but_prints (negb (truthy v1))
    (run_md_body (<["verbose" := v1]> args) fn)
    (run_md_body (<["verbose" := v2]> args) fn).
Proof.
  unfold run_md_body.
  rewrite !getattr_insert_eq, !getattr_insert_ne by done.
  apply same_but_prints_bind; [apply same_but_prints_refl | intros s].
  apply same_but_prints_bind_ret.
  apply same_but_prints_bind; [apply same_but_prints_status | intros _].
  apply same_but_prints_refl.
Qed.

Lemma same_but_prints_relax_structure args v1 v2 :
  same_but_prints (negb (truthy v1))
    (relax_structure (<["verbose" := v1]> args))
    (relax_structure (<["verbose" := v2]> args)).
Proof.
  unfold relax_structure. rewrite !getattr_insert_ne by done.
  apply same_but_prints_bind; [apply same_but_prints_refl | intros infile].
  apply same_but_prints_bind; [apply same_but_prints_refl | intros fns].
  apply same_but_prints_bind; [|intros _; apply same_but_prints_refl].
  apply same_but_prints_for_each. intros fn.
  apply same_but_prints_relax_structure_body.
Qed.

Lemma same_but_prints_run_md args v1 v2 :
  same_but_prints (negb (truthy v1))
    (run_md (<["verbose" := v1]> args))
    (run_md (<["verbose" := v2]> args)).
Proof.
  unfold run_md. rewrite !getattr_insert_ne by done.
  apply same_but_prints_bind; [apply same_but_prints_refl | intros infile].
  apply same_but_prints_bind; [apply same_but_prints_refl | intros fns].
  apply same_but_prints_bind; [|intros _; apply same_but_prints_refl].
  apply same_but_prints_for_each. intros fn.
  apply same_but_prints_run_md_body.
Qed.

End verbosity.

(** ** What the handlers do, file by file *)

Section blocks.
Context `{Externals}.
Local Open Scope py_scope.

Lemma for_each_inv {A} (body : A → M unit) l w r w' tr :
  for_each l body w = (r, w', tr) →
  (r = Ok tt ∧ ∃ ts, iterates body l w w' ts ∧ tr = concat ts)
  ∨ (∃ l1 x l2 w1 ts e t,
       l = l1 ++ x :: l2 ∧ iterates body l1 w w1 ts ∧
       body x w1 = (Raise e, w', t) ∧ tr = concat ts ++ t ∧ r = Raise e).
Proof.
  revert w tr; induction l as [|x l IH]; intros w tr; simpl.
  - intros [= <- <- <-]. left. split; [done|]. exists []. split; [constructor|done].
  - intros Hb.
    apply bind_ok in Hb as [(u & w1 & t1 & t2 & Hx & Hl & ->)|(e & Hx & ->)].
    + destruct u.
      apply IH in Hl as [(-> & ts & Hts & ->)
                        |(l1 & y & l2 & w2 & ts & e & t & -> & Hts & Hy & -> & ->)].
      * left. split; [done|]. exists (t1 :: ts). split; [by econstructor|done].
      * right. exists (x :: l1), y, l2, w2, (t1 :: ts), e, t.
        split_and!; try done; [by econstructor | by rewrite (assoc_L (++))].
    + right. exists [], x, l, w, [], e, tr. split_and!; try done. constructor.
Qed.

Ltac run_body :=
  unfold relax_structure_body, run_md_body, bind, external, getattr, getitem,
    splitext, print, emit, ret, raise;
  intros; repeat (case_match; simplify_eq/=; try done).

Ltac use_lookups :=
  repeat match goal with
    | H : _ !! _ = Some _ |- _ => rewrite H
    | H : _ !! _ = None |- _ => rewrite H
    end;
  simpl;
  repeat match goal with
    | H : truthy _ = _ |- _ => rewrite H
    | H : is_not_None _ = _ |- _ => rewrite H
    | H : os_path.splitext _ = _ |- _ => rewrite H
    | u : unit |- _ => destruct u
    end;
  simpl; rewrite ?py_format_str.

Lemma relax_structure_body_ok args fn w w' t :
  relax_structure_body args (VStr fn) w = (Ok tt, w', t) → relax_block args fn t.
Proof.
  run_body.
  all: eexists _, _, _, _; (split; [eassumption|]).
  all: unfold status_lines, output_events, output_for, output_file, suffixed.
  all: by use_lookups.
Qed.


(** Whatever the outcome of an iteration of [relax_structure], the only
    file it may have written to is the output file of its input file. *)
Lemma relax_structure_body_writes args fn w r w' t :
  relax_structure_body args (VStr fn) w = (r, w', t) →
  written_files t `prefix_of` option_list (output_file args fn).
Proof.
  run_body.
  all: unfold output_file, suffixed; use_lookups; by eexists.
Qed.

Lemma written_files_app t1 t2 :
  written_files (t1 ++ t2) = written_files t1 ++ written_files t2.
Proof. apply omap_app. Qed.

Lemma relax_block_writes args fn b :
  relax_block args fn b → written_files b = option_list (output_file args fn).
Proof.
  intros (s & r & res & final & _ & ->).
  unfold status_lines, output_events, output_for.
  by destruct (truthy _), (output_file args fn).
Qed.

Lemma output_actions_app t1 t2 :
  ends_with_heading t1 = false →
  output_actions (t1 ++ t2) = output_actions t1 ++ output_actions t2.
Proof.
  induction t1 as [|ev t1 IH]; [done|]. intros Hend.
  assert (ends_with_heading t1 = false) as Hend' by (by destruct t1).
  specialize (IH Hend').
  destruct ev as [[t|o]| | | | | | | |];
    try (simpl; rewrite ?IH; done).
  destruct t1 as [|ev' t1].
  - unfold ends_with_heading in Hend. simpl in Hend. simpl. rewrite Hend.
    by destruct t2 as [|[[]| | | | | | | |] ?].
  - destruct ev' as [[t'|o']| | | | | | | |]; try (exact IH).
    change ((if String.eqb t "Final structure"
             then ConsolePrint o' :: output_actions ((EvPrint (Object o') :: t1) ++ t2)
             else output_actions ((EvPrint (Object o') :: t1) ++ t2)) =
            (if String.eqb t "Final structure"
             then ConsolePrint o' :: output_actions (EvPrint (Object o') :: t1)
             else output_actions (EvPrint (Object o') :: t1)) ++ output_actions t2).
    rewrite IH. by destruct (String.eqb t "Final structure").
Qed.



Lemma blocks_writes args fns blocks :
  Forall2 (relax_block args) fns blocks →
  written_files (concat blocks) = fns ≫= λ fn, option_list (output_file args fn).
Proof.
  induction 1 as [|fn b fns blocks Hb _ IH]; simpl; [done|].
  by rewrite written_files_app, (relax_block_writes _ _ _ Hb), IH.
Qed.




Lemma for_each_Forall {A} (body : A → M unit) (P : event PyObject → Prop) l w r w' tr :
  (∀ x w r w' t, body x w = (r, w', t) → Forall P t) →
  for_each l body w = (r, w', tr) → Forall P tr.
Proof.
  intros Hbody. revert w tr; induction l as [|x l IH]; intros w tr; simpl.
  - by intros [= <- <- <-].
  - intros [(u & w1 & t1 & t2 & Hx & Hl & ->)|(e & Hx & ->)]%bind_ok.
    + apply Forall_app. split; [by eapply Hbody | by eapply IH].
    + by eapply Hbody.
Qed.

End blocks.

Section handlers.
Context `{Externals}.
Local Open Scope py_scope.

Lemma iterates_relax_blocks args fns w w' ts :
  iterates (relax_structure_body args) (VStr <$> fns) w w' ts →
  Forall2 (relax_block args) fns ts.
Proof.
  apply iterates_Forall2. intros fn w0 w1 t. apply relax_structure_body_ok.
Qed.


Lemma handler_inv (body : Namespace → value → M unit) args fns w r w' tr :
  args !! "infile" = Some (VList (VStr <$> fns)) →
  (let* infile := getattr args "infile" in
   let* fns := iter infile in
   for_each fns (body args) >> ret (VInt 0)) w = (r, w', tr) →
  ∃ r', for_each (VStr <$> fns) (body args) w = (r', w', tr) ∧
        r = match r' with Ok _ => Ok (VInt 0) | Raise e => Raise e end.
Proof.
  intros Hin. unfold getattr. rewrite Hin. unfold bind at 1 2. simpl.
  unfold bind, ret.
  destruct (for_each _ _ w) as [[[[]|e] w1] t1]; intros [= <- <- <-].
  - eexists. by rewrite app_nil_r.
  - by eexists.
Qed.

(** A run of [relax_structure] that returns: it returns 0, and its trace
    is one block per input file, in order. *)
Lemma relax_structure_ok args fns w v w' tr :
  args !! "infile" = Some (VList (VStr <$> fns)) →
  relax_structure args w = (Ok v, w', tr) →
  v = VInt 0 ∧ ∃ blocks, tr = concat blocks ∧ Forall2 (relax_block args) fns blocks.
Proof.
  intros Hin Hrun.
  eapply handler_inv in Hrun as (r' & Hloop & Hr); [|done].
  destruct r' as [[]|]; simplify_eq. split; [done|].
  apply for_each_iterates in Hloop as (ts & Hts & ->).
  exists ts. split; [done|]. by eapply iterates_relax_blocks.
Qed.


(** Whatever the outcome of [relax_structure], the files it wrote to are
    the output files of its first input files, in order. *)
Lemma relax_structure_writes args fns w r w' tr :
  args !! "infile" = Some (VList (VStr <$> fns)) →
  relax_structure args w = (r, w', tr) →
  written_files tr `prefix_of` (fns ≫= λ fn, option_list (output_file args fn)).
Proof.
  intros Hin Hrun.
  eapply handler_inv in Hrun as (r' & Hloop & _); [|done].
  apply for_each_inv in Hloop
    as [(_ & ts & Hts & ->)
       |(l1 & x & l2 & w1 & ts & e & t & Hl & Hts & Hx & -> & _)].
  - apply iterates_relax_blocks in Hts. by rewrite (blocks_writes _ _ _ Hts).
  - apply fmap_app_inv in Hl as (f1 & f2' & -> & Hl & ->).
    destruct f2' as [|fn f2]; simplify_eq/=.
    apply iterates_relax_blocks in Hts.
    rewrite written_files_app, (blocks_writes _ _ _ Hts), bind_app. simpl.
    apply prefix_app, prefix_app_r.
    by eapply relax_structure_body_writes.
Qed.



End handlers.

(** ** The parser *)

Section parsing_facts.
Context `{Externals}.
Import argparse.

Lemma assoc_elem {A} k (l : list (string * A)) v :
  assoc k l = Some v → (k, v) ∈ l.
Proof.
  induction l as [|[k' v'] l IH]; simpl; [done|].
  destruct (String.eqb_spec k' k) as [->|]; [intros [= ->]; left | right; auto].
Qed.

Lemma option_string_actions_elem p s a :
  (s, a) ∈ option_string_actions p → a ∈ actions p.
Proof.
  unfold option_string_actions. rewrite list_elem_of_In, in_flat_map.
  intros (a' & Ha' & Hs). apply in_map_iff in Hs as (? & [= _ <-] & _).
  by apply list_elem_of_In.
Qed.

Lemma lookup_option_elem p s a : lookup_option p s = Some a → a ∈ actions p.
Proof. intros Ha%assoc_elem. by eapply option_string_actions_elem. Qed.

Lemma get_option_tuples_elem p s a os e :
  (a, os, e) ∈ get_option_tuples p s → a ∈ actions p.
Proof.
  unfold get_option_tuples.
  destruct (double_dash s); [destruct (if Str.contains "=" s then _ else _)|];
    intros ([os' a'] & Hin & Hf)%list_elem_of_omap;
    apply option_string_actions_elem in Hin;
    repeat case_match; by simplify_eq.
Qed.

Lemma parse_optional_elem p s a os e :
  parse_optional p s = inr (Optional (Some a) os e) → a ∈ actions p.
Proof.
  unfold parse_optional. intros Hp.
  repeat (case_match; simplify_eq; try done);
    try (by eapply lookup_option_elem).
  all: eapply get_option_tuples_elem.
  all: match goal with H : get_option_tuples _ _ = _ |- _ => rewrite H end; left.
Qed.

Lemma arg_strings_pattern_spec p argv pat :
  arg_strings_pattern p argv = inr pat →
  map fst pat = argv ∧ known_actions p pat.
Proof.
  revert pat. induction argv as [|s argv IH]; intros pat; simpl.
  - intros [= <-]. split; [done | constructor].
  - destruct (String.eqb s "--").
    + intros [= <-]. simpl. split.
      * f_equal. rewrite map_map. simpl. apply map_id.
      * constructor; [done|]. apply Forall_forall. intros [? ?] Hin.
        apply list_elem_of_In, in_map_iff in Hin as (? & [= <- <-] & _). done.
    + destruct (parse_optional p s) as [|o] eqn:Ho; [done|].
      destruct (arg_strings_pattern p argv) as [|pat'] eqn:Hpat; [done|].
      intros [= <-]. destruct (IH _ eq_refl) as [<- Hk]. split; [done|].
      constructor; [|done]. simpl. by destruct o as [|[a|] os e].
Qed.

(** *** Converting the arguments *)

Lemma get_value_not_None a s v : get_value a s = inr v → is_not_None v = true.
Proof. unfold get_value. repeat case_match; by intros [= <-]. Qed.

Lemma get_values_not_None a args v : get_values a args = inr v → is_not_None v = true.
Proof.
  unfold get_values. repeat case_match; try (by intros [= <-]);
    apply get_value_not_None.
Qed.

Lemma get_values_is_not_default a args v :
  get_values a args = inr v → is_not_default v (default a) = true.
Proof.
  intros Hv%get_values_not_None. unfold is_not_default.
  by repeat case_match.
Qed.

Lemma get_value_list_str a l :
  type a = type_None ∨ type a = type_str →
  get_value_list a l = inr (VStr <$> l).
Proof.
  intros Ht. induction l as [|s l IH]; simpl; [done|].
  unfold get_value. rewrite IH. by destruct Ht as [-> | ->].
Qed.

(** *** Taking an action *)

Lemma take_action_inv p a args st st' :
  take_action p a args st = Parsed st' →
  ∃ v, get_values a args = inr v ∧
       filter (λ c, dest c ∈ seen_non_default_actions st) (action_conflicts p a) = [] ∧
       seen_actions st' = {[dest a]} ∪ seen_actions st ∧
       seen_non_default_actions st' = {[dest a]} ∪ seen_non_default_actions st ∧
       extras st' = extras st ∧ unrecognized st' = unrecognized st ∧
       namespace st' =
         <[dest a := match action a with store_true => VBool true | _ => v end]>
           (namespace st) ∧
       action a ≠ help.
Proof.
  unfold take_action. destruct (get_values a args) as [|v] eqn:Hv; [done|].
  rewrite (get_values_is_not_default _ _ _ Hv). simpl.
  destruct (filter _ _) eqn:Hf; [|done].
  unfold call_action. destruct (action a) eqn:Ha; intros [= <-]; simpl;
    exists v; by split_and!.
Qed.

Lemma take_actions_invariant p (I : pstate → Prop) tuples st st' :
  (∀ a args st st',
     a ∈ map fst tuples → take_action p a args st = Parsed st' → I st → I st') →
  take_actions p tuples st = Parsed st' → I st → I st'.
Proof.
  revert st. induction tuples as [|[a args] tuples IH]; intros st HI; simpl.
  - by intros [= <-].
  - destruct (take_action p a args st) as [st1|] eqn:Ha; [|done].
    intros Hrest Hst. eapply IH; [| done |].
    + intros ???? Hin. apply HI. simpl. by right.
    + eapply HI; [simpl; left | done..].
Qed.

(** *** Consuming an option *)

Lemma consume_explicit_actions p a os e tuples last :
  a ∈ actions p →
  consume_explicit p a os e = inr (tuples, last) →
  Forall (λ t, t.1 ∈ actions p) tuples ∧ (∀ a', last = Some a' → a' ∈ actions p).
Proof.
  assert (∀ (a : Action) (args : list string),
            a ∈ actions p → Forall (λ t, t.1 ∈ actions p) [(a, args)]) as Hone.
  { intros. constructor; [done | constructor]. }
  revert a os tuples last. induction e as [|c e IH]; intros a os tuples last Ha; simpl.
  - destruct (nargs a); try done; intros [= <- <-]; (split; [auto | done]).
  - destruct (nargs a); try (intros [= <- <-]; split; [by auto | done]).
    destruct (negb (double_dash os)); [|done].
    destruct (lookup_option p _) as [a'|] eqn:Ha'; [|done].
    apply lookup_option_elem in Ha'.
    destruct e as [|c' e'].
    + intros [= <- <-]. split; [auto | by intros ? [= <-]].
    + destruct (consume_explicit p a' _ _) as [|[ts l]] eqn:He; [done|].
      intros [= <- <-]. destruct (IH _ _ _ _ Ha' He) as [Hts Hl].
      split; [by constructor | done].
Qed.

Lemma consume_optional_actions p a os e following tuples n :
  a ∈ actions p →
  consume_optional p a os e following = inr (tuples, n) →
  Forall (λ t, t.1 ∈ actions p) tuples.
Proof.
  intros Ha. unfold consume_optional.
  destruct e as [e|].
  - destruct (consume_explicit p a os e) as [|[ts [a'|]]] eqn:He; [done| |].
    + destruct (consume_explicit_actions _ _ _ _ _ _ Ha He) as [Hts Hl].
      destruct (match_argument _ _); [done|]. intros [= <- <-].
      apply Forall_app. split; [done|]. constructor; [by apply Hl | constructor].
    + intros [= <- <-]. by destruct (consume_explicit_actions _ _ _ _ _ _ Ha He).
  - destruct (match_argument _ _); [done|]. intros [= <- <-].
    constructor; [done | constructor].
Qed.

(** The destinations of the action tuples of an option are the ones its
    argument string names. *)
Lemma consume_optional_named p s a os e following tuples n :
  parse_optional p s = inr (Optional (Some a) os e) →
  consume_optional p a os e following = inr (tuples, n) →
  map (λ t, dest t.1) tuples = named_by p s.
Proof.
  intros Hs. unfold consume_optional, named_by. rewrite Hs.
  destruct e as [e|].
  - destruct (consume_explicit p a os e) as [|[ts [a'|]]] eqn:He; [done| |].
    + destruct (match_argument _ _); [done|]. intros [= <- <-].
      by rewrite map_app.
    + intros [= <- <-]. simpl. by rewrite app_nil_r.
  - destruct (match_argument _ _); [done|]. by intros [= <- <-].
Qed.

Lemma match_argument_count a following n :
  match_argument a following = inr n → (n ≤ leading_args following)%nat.
Proof.
  unfold match_argument. destruct (nargs a).
  - destruct following as [|[]]; intros [= <-]; simpl; lia.
  - destruct (leading_args following); intros [= <-]; lia.
  - intros [= <-]. lia.
Qed.

Lemma consume_optional_count p a os e following tuples n :
  consume_optional p a os e following = inr (tuples, n) →
  (n ≤ leading_args (map snd following))%nat.
Proof.
  unfold consume_optional.
  destruct (match e with Some _ => _ | None => _ end) as [|[ts [a'|]]]; [done| |].
  - destruct (match_argument _ _) eqn:Hm; [done|]. intros [= <- <-].
    by eapply match_argument_count.
  - intros [= <- <-]. lia.
Qed.

(** *** The main loop *)

Lemma consume_invariant p positional (I : pstate → Prop) :
  (∀ s st, I st → I (add_extra s st)) →
  (∀ a args st st',
     a ∈ actions p → take_action p a args st = Parsed st' → I st → I st') →
  (∀ f values st st',
     positional = Some f → f values st = Parsed st' → I st → I st') →
  ∀ pat skip st st',
    known_actions p pat →
    consume p positional pat skip st = Parsed st' → I st → I st'.
Proof.
  intros Hextra Htake Hpos pat.
  induction pat as [|[s c] pat IH]; intros skip st st' Hk; simpl.
  - by intros [= <-].
  - apply Forall_cons in Hk as [Hc Hk]. simpl in Hc.
    destruct skip as [|k]; [|by apply IH].
    destruct c as [| |[a|] os e].
    + destruct positional as [f|]; [eauto | intros; eapply IH; eauto].
    + destruct positional as [f|]; [|intros; eapply IH; eauto].
      destruct pat as [|[? []] ?]; eauto; intros; eapply IH; eauto.
    + apply parse_optional_elem in Hc.
      destruct (consume_optional p a os e pat) as [|[tuples n]] eqn:Hco; [done|].
      destruct (take_actions p tuples st) as [st1|] eqn:Hta; [|done].
      intros Hrest Hst. eapply IH; [done..|].
      eapply take_actions_invariant; [|done..].
      intros a' args' st0 st0' Hin. apply Htake.
      eapply consume_optional_actions in Hco; [|done].
      rewrite Forall_forall in Hco.
      apply list_elem_of_In, in_map_iff in Hin as (t & <- & Hin).
      by apply Hco, list_elem_of_In.
    + intros; eapply IH; eauto.
Qed.

End parsing_facts.

Section scanning.
Context `{Externals}.
Import argparse.

Lemma supplied_false p d argv :
  supplied p d argv = false ↔ Forall (λ s, d ∉ named_by p s) argv.
Proof.
  unfold supplied. induction argv as [|s argv IH]; simpl.
  - split; [constructor | done].
  - rewrite orb_false_iff, IH, Forall_cons, bool_decide_eq_false. done.
Qed.

Lemma supplied_true p d argv :
  supplied p d argv = true ↔ ∃ s, s ∈ argv ∧ d ∈ named_by p s.
Proof.
  unfold supplied. rewrite existsb_exists. split.
  - intros (s & Hs%list_elem_of_In & Hd%bool_decide_eq_true). eauto.
  - intros (s & Hs%list_elem_of_In & Hd). exists s. by rewrite bool_decide_eq_true.
Qed.

(** An action only touches its own destination. *)
Lemma take_action_frame p a args st st' d :
  take_action p a args st = Parsed st' → dest a ≠ d →
  namespace st' !! d = namespace st !! d ∧
  (d ∈ seen_actions st' → d ∈ seen_actions st).
Proof.
  intros (v & _ & _ & Hseen & _ & _ & _ & Hns & _)%take_action_inv Hd.
  rewrite Hns, Hseen, lookup_insert_ne by done. split; [done | set_solver].
Qed.

Lemma take_actions_frame p tuples st st' d :
  take_actions p tuples st = Parsed st' →
  d ∉ map (λ t, dest t.1) tuples →
  namespace st' !! d = namespace st !! d ∧
  (d ∈ seen_actions st' → d ∈ seen_actions st).
Proof.
  revert st. induction tuples as [|[a args] tuples IH]; intros st; simpl.
  - by intros [= <-].
  - destruct (take_action p a args st) as [st1|] eqn:Ha; [|done].
    intros Hrest Hd. apply not_elem_of_cons in Hd as [Hd1 Hd2].
    destruct (IH _ Hrest Hd2) as [-> Hs].
    destruct (take_action_frame _ _ _ _ _ d Ha) as [-> Hs']; auto.
Qed.

(** A destination that no argument string names keeps its value, and its
    action is not seen. *)
Lemma consume_frame p pat skip st st' d :
  known_actions p pat →
  consume p None pat skip st = Parsed st' →
  Forall (λ s, d ∉ named_by p s) (map fst pat) →
  namespace st' !! d = namespace st !! d ∧
  (d ∈ seen_actions st' → d ∈ seen_actions st).
Proof.
  revert skip st. induction pat as [|[s c] pat IH]; intros skip st Hk; simpl.
  - by intros [= <-].
  - apply Forall_cons in Hk as [Hc Hk]. simpl in Hc.
    intros Hrun [Hs Hrest]%Forall_cons.
    destruct skip as [|k]; [|by eapply IH].
    destruct c as [| |[a|] os e]; try (by eapply (IH _ (add_extra s st))).
    destruct (consume_optional p a os e pat) as [|[tuples n]] eqn:Hco; [done|].
    destruct (take_actions p tuples st) as [st1|] eqn:Hta; [|done].
    destruct (IH _ _ Hk Hrun Hrest) as [-> Hseen].
    eapply take_actions_frame in Hta as [-> Hseen'].
    + auto.
    + by rewrite (consume_optional_named _ _ _ _ _ _ _ _ Hc Hco).
Qed.

(** *** Monotonicity *)

Lemma consume_seen_non_default p pat skip st st' d :
  known_actions p pat →
  consume p None pat skip st = Parsed st' →
  d ∈ seen_non_default_actions st → d ∈ seen_non_default_actions st'.
Proof.
  apply (consume_invariant p None (λ st, d ∈ seen_non_default_actions st)).
  - done.
  - intros a args st0 st0' _ (v & _ & _ & _ & Hnd & _)%take_action_inv.
    rewrite Hnd. set_solver.
  - done.
Qed.

Lemma consume_extras positional p pat skip st st' :
  (∀ f values st st',
     positional = Some f → f values st = Parsed st' → extras st' = extras st) →
  known_actions p pat →
  consume p positional pat skip st = Parsed st' →
  extras st ≠ [] → extras st' ≠ [].
Proof.
  intros Hpos.
  apply (consume_invariant p positional (λ st, extras st ≠ [])).
  - intros s st0 _. simpl. by destruct (extras st0).
  - intros a args st0 st0' _ (v & _ & _ & _ & _ & He & _)%take_action_inv.
    by rewrite He.
  - intros f values st0 st0' Hf Hrun. by rewrite (Hpos _ _ _ _ Hf Hrun).
Qed.

Lemma take_actions_seen p tuples st st' :
  take_actions p tuples st = Parsed st' →
  (∀ d, d ∈ seen_non_default_actions st → d ∈ seen_non_default_actions st') ∧
  (∀ d, d ∈ map (λ t, dest t.1) tuples → d ∈ seen_non_default_actions st').
Proof.
  revert st. induction tuples as [|[a args] tuples IH]; intros st; simpl.
  - intros [= <-]. split; [done | by intros ? ?%elem_of_nil].
  - destruct (take_action p a args st) as [st1|] eqn:Ha; [|done].
    intros [Hmono Hin]%IH.
    apply take_action_inv in Ha as (v & _ & _ & _ & Hnd & _).
    split.
    + intros d Hd. apply Hmono. rewrite Hnd. set_solver.
    + intros d [->|Hd]%elem_of_cons; [|by apply Hin].
      apply Hmono. rewrite Hnd. set_solver.
Qed.

(** *** Every option on an accepted command line was acted on

    When the loop ends without leaving anything unrecognized, every
    destination named on the command line is among the actions seen with
    a value. *)
Lemma consume_covers p argv :
  ∀ pat skip st st' d,
    arg_strings_pattern p argv = inr pat →
    (skip ≤ leading_args (map snd pat))%nat →
    consume p None pat skip st = Parsed st' →
    extras st' = [] →
    supplied p d argv = true →
    d ∈ seen_non_default_actions st'.
Proof.
  induction argv as [|s argv IH]; intros pat skip st st' d; simpl; [done|].
  destruct (String.eqb s "--") eqn:Hdash.
  - intros [= <-] Hskip. simpl in Hskip. assert (skip = 0%nat) as -> by lia.
    simpl. intros Hrun Hex. exfalso.
    eapply (consume_extras None) in Hrun; [done|done| |].
    + apply Forall_forall. intros [? ?] Hin.
      apply list_elem_of_In, in_map_iff in Hin as (? & [= <- <-] & _). done.
    + simpl. by destruct (extras st).
  - destruct (parse_optional p s) as [|o] eqn:Ho; [done|].
    destruct (arg_strings_pattern p argv) as [|pat'] eqn:Hpat; [done|].
    intros [= <-] Hskip Hrun Hex Hsup.
    destruct (arg_strings_pattern_spec _ _ _ Hpat) as [_ Hk].
    simpl in Hrun, Hskip. destruct skip as [|k].
    + destruct o as [|[a|] os e].
      * exfalso. eapply (consume_extras None) in Hrun; [done|done|done|].
        simpl. by destruct (extras st).
      * destruct (consume_optional p a os e pat') as [|[tuples n]] eqn:Hco; [done|].
        destruct (take_actions p tuples st) as [st1|] eqn:Hta; [|done].
        apply take_actions_seen in Hta as [Hmono Hin].
        apply orb_true_iff in Hsup as [Hs%bool_decide_eq_true|Hsup].
        -- eapply consume_seen_non_default; [done..|]. apply Hin.
           by rewrite (consume_optional_named _ _ _ _ _ _ _ _ Ho Hco).
        -- eapply IH; [done| |done..].
           by eapply consume_optional_count.
      * exfalso. eapply (consume_extras None) in Hrun; [done|done|done|].
        simpl. by destruct (extras st).
    + destruct o as [|a os e]; simpl in Hskip; [|lia].
      apply orb_true_iff in Hsup as [Hs%bool_decide_eq_true|Hsup].
      * unfold named_by in Hs. rewrite Ho in Hs. by apply elem_of_nil in Hs.
      * eapply IH; [done| |done..]. lia.
Qed.

End scanning.

(** ** The two sub-parsers *)

Section subparsers.
Context `{Externals}.
Import argparse.

(** Attributes are never removed from the namespace. *)
Lemma consume_is_Some p pat skip st st' d :
  known_actions p pat →
  consume p None pat skip st = Parsed st' →
  is_Some (namespace st !! d) → is_Some (namespace st' !! d).
Proof.
  apply (consume_invariant p None (λ st, is_Some (namespace st !! d))).
  - done.
  - intros a args st0 st0' _ (v & _ & _ & _ & _ & _ & _ & Hns & _)%take_action_inv.
    rewrite Hns, lookup_insert_is_Some. destruct (decide (dest a = d)); auto.
  - done.
Qed.

(** An attribute that is not the destination of an argument is left
    alone. *)
Lemma consume_other p pat skip st st' d :
  Forall (λ a, dest a ≠ d) (actions p) →
  known_actions p pat →
  consume p None pat skip st = Parsed st' →
  namespace st' !! d = namespace st !! d.
Proof.
  intros Hd Hk Hrun.
  assert (∀ o, o = namespace st !! d → o = namespace st' !! d) as Hgen.
  { intros o.
    eapply (consume_invariant p None (λ st, o = namespace st !! d));
      [done| |done|exact Hk|exact Hrun].
    intros a args st0 st0' Ha (v & _ & _ & _ & _ & _ & _ & Hns & _)%take_action_inv.
    rewrite Hns, lookup_insert_ne; [done|]. by eapply Forall_forall in Hd. }
  symmetry. by apply Hgen.
Qed.

(** The destination of a [nargs='+'] argument without [type=], once its
    action has been seen, holds a list of strings. *)
Lemma consume_string_list p pat skip st st' d :
  Forall (λ a, dest a = d →
               nargs a = ONE_OR_MORE ∧ action a = store ∧ type a = type_None)
         (actions p) →
  known_actions p pat →
  consume p None pat skip st = Parsed st' →
  (d ∈ seen_actions st → ∃ l, namespace st !! d = Some (VList (VStr <$> l))) →
  (d ∈ seen_actions st' → ∃ l, namespace st' !! d = Some (VList (VStr <$> l))).
Proof.
  intros Hd.
  apply (consume_invariant p None
           (λ st, d ∈ seen_actions st →
                  ∃ l, namespace st !! d = Some (VList (VStr <$> l)))); [done| |done].
  intros a args st0 st0' Ha (v & Hv & _ & Hs & _ & _ & _ & Hns & _)%take_action_inv IH.
  rewrite Hns, Hs. destruct (decide (dest a = d)) as [Heq|Hne].
  - intros _. rewrite Forall_forall in Hd. destruct (Hd a Ha Heq) as (Hn & Hact & Hty).
    unfold get_values in Hv. rewrite Hn, get_value_list_str in Hv by auto.
    simplify_eq. rewrite Hact, lookup_insert_eq. eauto.
  - rewrite lookup_insert_ne by done. intros Hin. apply IH. set_solver.
Qed.

Lemma take_action_exclusive a args st st' :
  a ∈ actions p_relax →
  take_action p_relax a args st = Parsed st' → exclusive st → exclusive st'.
Proof.
  intros Ha (v & _ & Hc & _ & Hnd & _ & _ & Hns & Hh)%take_action_inv (Hs & Ho & Hx).
  unfold exclusive. rewrite Hns, Hnd. clear Hns Hnd.
  simpl in Ha. decompose_list_elem_of; subst a; simpl in *; try done.
  - rewrite 2!lookup_insert_ne by done. set_solver.
  - rewrite 2!lookup_insert_ne by done. set_solver.
  - rewrite (lookup_insert_ne _ "suffix" "outfile") by done.
    assert ("outfile" ∉ seen_non_default_actions st) as Hno.
    { intros Hin. revert Hc. unfold action_conflicts. simpl.
      rewrite !filter_cons_False, filter_cons_True, filter_cons_True by naive_solver.
      done. }
    set_solver.
  - rewrite (lookup_insert_ne _ "outfile" "suffix") by done.
    assert ("suffix" ∉ seen_non_default_actions st) as Hno.
    { intros Hin. revert Hc. unfold action_conflicts. simpl.
      rewrite !filter_cons_False, 2!filter_cons_True by naive_solver.
      done. }
    set_solver.
Qed.

Lemma consume_exclusive pat skip st st' :
  known_actions p_relax pat →
  consume p_relax None pat skip st = Parsed st' → exclusive st → exclusive st'.
Proof.
  apply (consume_invariant p_relax None exclusive); [done| |done].
  intros a args st0 st0' Ha. by apply take_action_exclusive.
Qed.

End subparsers.

Section accepted.
Context `{Externals}.
Import argparse.

(** The closing loop leaves the namespace as it is when string defaults
    are only converted with [str], and it reports no name only if every
    required action was seen. *)
Lemma check_actions_spec seen acts ns names ns' :
  Forall (λ a, ∀ s, default a = Default (VStr s) → required a = false →
                    type a = type_None ∨ type a = type_str) acts →
  check_actions seen acts ns = inr (names, ns') →
  ns' = ns ∧
  (names = [] → Forall (λ a, required a = true → dest a ∈ seen) acts).
Proof.
  revert ns names ns'. induction acts as [|a acts IH]; intros ns names ns' Hty; simpl.
  - intros [= <- <-]. split; [done | constructor].
  - apply Forall_cons in Hty as [Ha Hty].
    case_bool_decide as Hseen.
    { intros [-> Hn]%IH; [|done]. split; [done|]. intros ?. constructor; auto. }
    destruct (required a) eqn:Hreq.
    { destruct (check_actions seen acts ns) as [|[names0 ns0]] eqn:Hc; [done|].
      intros [= <- <-]. apply IH in Hc as [-> _]; [|done]. done. }
    assert (check_actions seen acts ns = inr (names, ns') →
            ns' = ns ∧ (names = [] →
              Forall (λ a, required a = true → dest a ∈ seen) (a :: acts))) as Hskip.
    { intros [-> Hn]%IH; [|done]. split; [done|]. intros ?. constructor; [|auto].
      by rewrite Hreq. }
    destruct (default a) as [|[| | | |s| |]] eqn:Hdef; try done.
    destruct (ns !! dest a) as [[| | | |s'| |]|] eqn:Hns; try done.
    destruct (String.eqb_spec s' s) as [->|]; [|done].
    unfold get_value. destruct (Ha s eq_refl eq_refl) as [-> | ->];
      rewrite insert_id by done; done.
Qed.

Lemma parse_known_args_inv p argv ns ex :
  parse_known_args p None argv = Parsed (ns, ex) →
  ∃ pat st,
    arg_strings_pattern p argv = inr pat ∧
    consume p None pat 0 (initial_state p) = Parsed st ∧
    check_actions (seen_actions st) (actions p) (namespace st) = inr ([], ns) ∧
    ex = extras st ++ unrecognized st.
Proof.
  unfold parse_known_args.
  destruct (arg_strings_pattern p argv) as [|pat] eqn:Hpat; [done|].
  destruct (consume p None pat 0 (initial_state p)) as [st|] eqn:Hrun; [|done].
  destruct (check_actions _ _ _) as [|[[|] ns0]] eqn:Hc; [done| |done].
  intros [= <- <-]. by exists pat, st.
Qed.

Lemma str_defaults_relax : str_defaults p_relax.
Proof.
  unfold str_defaults. simpl.
  repeat apply Forall_cons_2; try apply Forall_nil_2; intros; simplify_eq/=; auto.
Qed.

Lemma str_defaults_md : str_defaults p_md.
Proof.
  unfold str_defaults. simpl.
  repeat apply Forall_cons_2; try apply Forall_nil_2; intros; simplify_eq/=; auto.
Qed.

(** An accepted command line names every required argument. *)
Lemma accepted_required p argv ns ex d :
  str_defaults p →
  parse_known_args p None argv = Parsed (ns, ex) →
  d ∈ required_dests p →
  supplied p d argv = true.
Proof.
  intros Hp (pat & st & Hpat & Hrun & Hc & _)%parse_known_args_inv Hd.
  apply arg_strings_pattern_spec in Hpat as [<- Hk].
  apply check_actions_spec in Hc as [_ Hreq]; [|done].
  specialize (Hreq eq_refl). rewrite Forall_forall in Hreq.
  unfold required_dests in Hd.
  apply list_elem_of_fmap in Hd as (a & -> & [Hr Ha]%list_elem_of_filter).
  specialize (Hreq a Ha Hr).
  destruct (supplied p (dest a) (map fst pat)) eqn:Hs; [done|].
  apply supplied_false in Hs.
  destruct (consume_frame _ _ _ _ _ _ Hk Hrun Hs) as [_ Hseen].
  apply Hseen in Hreq. simpl in Hreq. set_solver.
Qed.

(** An attribute no option of the command line names has the value it
    started with. *)
Lemma accepted_default p argv ns ex d :
  str_defaults p →
  parse_known_args p None argv = Parsed (ns, ex) →
  supplied p d argv = false →
  ns !! d = initial_namespace p !! d.
Proof.
  intros Hp (pat & st & Hpat & Hrun & Hc & _)%parse_known_args_inv Hs.
  apply arg_strings_pattern_spec in Hpat as [<- Hk].
  apply check_actions_spec in Hc as [-> _]; [|done].
  apply supplied_false in Hs.
  by destruct (consume_frame _ _ _ _ _ _ Hk Hrun Hs) as [-> _].
Qed.

(** An attribute the parser starts with is still there at the end. *)
Lemma accepted_is_Some p argv ns ex d :
  str_defaults p →
  parse_known_args p None argv = Parsed (ns, ex) →
  is_Some (initial_namespace p !! d) → is_Some (ns !! d).
Proof.
  intros Hp (pat & st & Hpat & Hrun & Hc & _)%parse_known_args_inv Hd.
  apply arg_strings_pattern_spec in Hpat as [_ Hk].
  apply check_actions_spec in Hc as [-> _]; [|done].
  by eapply consume_is_Some.
Qed.

(** [set_defaults(func=...)] survives parsing. *)
Lemma accepted_func p argv ns ex :
  str_defaults p →
  Forall (λ a, dest a ≠ "func") (actions p) →
  parse_known_args p None argv = Parsed (ns, ex) →
  ns !! "func" = initial_namespace p !! "func".
Proof.
  intros Hp Hd (pat & st & Hpat & Hrun & Hc & _)%parse_known_args_inv.
  apply arg_strings_pattern_spec in Hpat as [_ Hk].
  apply check_actions_spec in Hc as [-> _]; [|done].
  by rewrite (consume_other _ _ _ _ _ "func" Hd Hk Hrun).
Qed.

(** [-i/--infile] of an accepted command line is a list of strings. *)
Lemma accepted_infile p argv ns ex :
  str_defaults p →
  Forall (λ a, dest a = "infile" →
               nargs a = ONE_OR_MORE ∧ action a = store ∧ type a = type_None)
         (actions p) →
  "infile" ∈ required_dests p →
  parse_known_args p None argv = Parsed (ns, ex) →
  ∃ fns, ns !! "infile" = Some (VList (VStr <$> fns)).
Proof.
  intros Hp Hin Hreq (pat & st & Hpat & Hrun & Hc & _)%parse_known_args_inv.
  apply arg_strings_pattern_spec in Hpat as [_ Hk].
  apply check_actions_spec in Hc as [-> Hseen]; [|done].
  specialize (Hseen eq_refl). rewrite Forall_forall in Hseen.
  unfold required_dests in Hreq.
  apply list_elem_of_fmap in Hreq as (a & Hd & [Hr Ha]%list_elem_of_filter).
  specialize (Hseen a Ha Hr). rewrite <-Hd in Hseen.
  eapply consume_string_list; [done..| |done].
  simpl. set_solver.
Qed.

(** [relax] accepted: not both of [-s] and [-o] have a value. *)
Lemma accepted_exclusive argv ns ex :
  parse_known_args p_relax None argv = Parsed (ns, ex) →
  ns !! "suffix" = Some VNone ∨ ns !! "outfile" = Some VNone.
Proof.
  intros (pat & st & Hpat & Hrun & Hc & _)%parse_known_args_inv.
  apply arg_strings_pattern_spec in Hpat as [_ Hk].
  apply check_actions_spec in Hc as [-> _]; [|apply str_defaults_relax].
  eapply consume_exclusive in Hrun as (Hs & Ho & Hx); [|done|].
  - destruct Hs, Ho; auto. by destruct Hx.
  - unfold exclusive. simpl. split_and!; [by left | by left | set_solver].
Qed.

(** [relax] with both [-s] and [-o] named is not accepted. *)
Lemma both_rejected argv ns :
  supplied p_relax "suffix" argv = true →
  supplied p_relax "outfile" argv = true →
  parse_known_args p_relax None argv ≠ Parsed (ns, []).
Proof.
  intros Hs Ho (pat & st & Hpat & Hrun & Hc & Hex)%parse_known_args_inv.
  symmetry in Hex. apply app_eq_nil in Hex as [Hex _].
  pose proof (consume_covers _ _ _ _ _ _ "suffix" Hpat (Nat.le_0_l _) Hrun Hex Hs).
  pose proof (consume_covers _ _ _ _ _ _ "outfile" Hpat (Nat.le_0_l _) Hrun Hex Ho).
  apply arg_strings_pattern_spec in Hpat as [_ Hk].
  eapply consume_exclusive in Hrun as (_ & _ & Hx); [by destruct Hx|done|].
  unfold exclusive. simpl. split_and!; [by left | by left | set_solver].
Qed.

End accepted.

(** ** The top-level parser *)

Section top_level.
Context `{Externals}.
Import argparse.

Lemma string_eqb_cons a s b t :
  String.eqb (String a s) (String b t) = Ascii.eqb a b && String.eqb s t.
Proof. simpl. by destruct (Ascii.eqb a b). Qed.

Lemma string_prefix_cons a s b t :
  String.prefix (String a s) (String b t) = Ascii.eqb a b && String.prefix s t.
Proof. simpl. by destruct (ascii_dec a b), (Ascii.eqb_spec a b). Qed.

Lemma omap_pair {A B} (f : A → option B) x y :
  f x = None ∨ f y = None → (length (omap f [x; y]) ≤ 1)%nat.
Proof. simpl. destruct (f x), (f y); simpl; intros [|]; simplify_eq; lia. Qed.

Lemma top_options :
  option_string_actions parser = [("-h", help_action); ("--help", help_action)].
Proof. reflexivity. Qed.

(** With [-h] and [--help] as the only option strings, no argument
    string is ambiguous. *)
Lemma top_tuples c1 c2 s :
  (length (get_option_tuples parser (String c1 (String c2 s))) ≤ 1)%nat.
Proof.
  unfold get_option_tuples. rewrite top_options.
  destruct (double_dash _) eqn:Hdd.
  - simpl in Hdd. apply andb_true_iff in Hdd as [->%Ascii.eqb_eq ->%Ascii.eqb_eq].
    destruct (if Str.contains "=" _ then _ else _) as [option_prefix explicit_arg] eqn:Hp.
    apply omap_pair. left.
    assert (∃ l, option_prefix = String "-" (String "-" l)) as [l ->].
    { destruct (Str.contains "=" _); [|simplify_eq; eauto].
      simpl in Hp. destruct (Str.split_at "=" s). simplify_eq. eauto. }
    reflexivity.
  - apply omap_pair. right. simpl in Hdd. unfold Str.startswith.
    change (Str.take 2 (String c1 (String c2 s))) with (String c1 (String c2 "")).
    change "--help" with (String "-" (String "-" "help")).
    rewrite !string_eqb_cons, !string_prefix_cons.
    by rewrite (Ascii.eqb_sym "-" c1), (Ascii.eqb_sym "-" c2), !andb_assoc, Hdd.
Qed.

Lemma top_action a : a ∈ actions parser → a = help_action.
Proof. simpl. by intros ->%list_elem_of_singleton. Qed.

Lemma top_parse_optional s :
  ∃ o, parse_optional parser s = inr o ∧
       ∀ a os e, o = Optional (Some a) os e → a = help_action.
Proof.
  destruct (parse_optional parser s) as [err|o] eqn:Hs.
  - exfalso. revert Hs. unfold parse_optional.
    destruct s as [|c [|c2 tl]]; try done.
    + by repeat case_match.
    + pose proof (top_tuples c c2 tl) as Hlen.
      destruct (get_option_tuples parser _) as [|[[??]?] [|??]];
        simpl in Hlen; [| |lia]; by repeat case_match.
  - exists o. split; [done|]. intros a os e ->.
    by eapply top_action, parse_optional_elem.
Qed.

Lemma top_pattern argv : ∃ pat, arg_strings_pattern parser argv = inr pat.
Proof.
  induction argv as [|s argv [pat IH]]; simpl; [by eexists|].
  destruct (String.eqb s "--"); [by eexists|].
  destruct (top_parse_optional s) as (o & -> & _). rewrite IH. by eexists.
Qed.

(** Taking the help action exits. *)
Lemma take_action_help p args st :
  take_action p help_action args st = Exits (exit_help (prog p)).
Proof.
  unfold take_action, get_values. simpl.
  by rewrite get_value_list_str by auto.
Qed.

Lemma consume_explicit_nonempty p a os e tuples last :
  consume_explicit p a os e = inr (tuples, last) → tuples ≠ [].
Proof.
  destruct e as [|c e]; simpl; repeat case_match; by intros [= <- <-].
Qed.

Lemma consume_optional_nonempty p a os e following tuples n :
  consume_optional p a os e following = inr (tuples, n) → tuples ≠ [].
Proof.
  unfold consume_optional. destruct e as [e|].
  - destruct (consume_explicit p a os e) as [|[ts [a'|]]] eqn:He; [done| |].
    + destruct (match_argument _ _); [done|]. intros [= <- <-].
      by destruct ts.
    + intros [= <- <-]. by eapply consume_explicit_nonempty.
  - destruct (match_argument _ _); [done|]. by intros [= <- <-].
Qed.

Lemma top_take_actions tuples st :
  tuples ≠ [] → Forall (λ t, t.1 ∈ actions parser) tuples →
  take_actions parser tuples st = Exits (exit_help "m3g").
Proof.
  destruct tuples as [|[a args] tuples]; [done|].
  intros _ [Ha _]%Forall_cons. simpl in Ha. apply top_action in Ha as ->.
  simpl. by rewrite take_action_help.
Qed.

Lemma subparsers_action_extras values st st' :
  subparsers_action parser subparsers values st = Parsed st' →
  extras st' = extras st.
Proof.
  unfold subparsers_action. repeat case_match; by intros [= <-].
Qed.

Lemma assoc_subparsers name sp :
  assoc name subparsers = Some sp →
  (name = "relax" ∧ sp = p_relax) ∨ (name = "md" ∧ sp = p_md).
Proof.
  change (assoc name subparsers)
    with (if String.eqb "relax" name then Some p_relax
          else if String.eqb "md" name then Some p_md else None).
  destruct (String.eqb_spec "relax" name) as [<-|_]; [intros [= <-]; auto|].
  destruct (String.eqb_spec "md" name) as [<-|_]; [intros [= <-]; auto|done].
Qed.

(** The command lines [parse_args] accepts: the empty one, with an empty
    namespace, and the ones that start with a sub-command whose parser
    accepts the rest and recognizes all of it. *)
Lemma top_check_actions seen ns :
  check_actions seen (actions parser) ns = inr ([], ns).
Proof. simpl. by case_bool_decide. Qed.

Lemma parse_args_inv argv ns :
  parse_args parser subparsers argv = Parsed ns →
  (argv = [] ∧ ns = ∅) ∨
  ∃ name sp rest,
    argv = name :: rest ∧ assoc name subparsers = Some sp ∧
    parse_known_args sp None rest = Parsed (ns, []).
Proof.
  unfold parse_args, parse_known_args at 1.
  destruct (top_pattern argv) as [pat Hpat]. rewrite Hpat.
  destruct (consume _ _ pat 0 _) as [st|] eqn:Hrun; [|done].
  rewrite top_check_actions.
  destruct (extras st ++ unrecognized st) eqn:Hex; [|done]. intros [= <-].
  apply app_eq_nil in Hex as [Hex Hun].
  destruct argv as [|s rest].
  { simpl in Hpat. simplify_eq. simpl in Hrun. simplify_eq. by left. }
  right. cbn [arg_strings_pattern] in Hpat.
  assert (∀ pat' st0, known_actions parser pat' →
            consume parser (Some (subparsers_action parser subparsers)) pat' 0
              (add_extra s st0) = Parsed st → False) as Hextra.
  { intros pat' st0 Hk Hrun'.
    eapply consume_extras in Hrun'; [done| |done|].
    - intros f values st1 st1' [= <-]. apply subparsers_action_extras.
    - simpl. by destruct (extras st0). }
  destruct (String.eqb_spec s "--") as [->|Hdash].
  - simplify_eq. cbn [consume] in Hrun.
    destruct rest as [|r rest]; cbn [map] in Hrun.
    + exfalso. by eapply (Hextra []); [constructor|].
    + done.
  - destruct (top_parse_optional s) as (o & Ho & Hhelp). rewrite Ho in Hpat.
    destruct (arg_strings_pattern parser rest) as [|pat'] eqn:Hpat'; [done|].
    destruct (arg_strings_pattern_spec _ _ _ Hpat') as [Hfst Hk].
    simplify_eq. cbn [consume] in Hrun.
    destruct o as [|[a|] os e].
    + unfold subparsers_action in Hrun.
      destruct (assoc s subparsers) as [sp|] eqn:Hsp; [|done].
      destruct (parse_known_args sp None _) as [[subns unrec]|] eqn:Hsub; [|done].
      simplify_eq. simpl in Hun, Hex. subst unrec.
      eexists s, sp, _. split_and!; try done.
      rewrite Hsub. cbn [namespace initial_state].
      change (initial_namespace parser) with (∅ : Namespace).
      by rewrite (right_id_L ∅ (∪)).
    + rewrite (Hhelp a os e eq_refl) in Hrun.
      destruct (consume_optional parser help_action os e pat') as [|[tuples n]] eqn:Hco;
        [done|].
      rewrite top_take_actions in Hrun; [done| |].
      * by eapply consume_optional_nonempty.
      * eapply consume_optional_actions; [|done]. simpl. left.
    + exfalso. by eapply Hextra.
Qed.

End top_level.

(** ** How the parser exits *)

Section exits.
Context `{Externals}.
Import argparse.

Lemma take_action_exits p a args st x :
  take_action p a args st = Exits x →
  (x = exit_help (prog p) ∧ action a = help) ∨ ∃ e, x = exit_error (prog p) e.
Proof.
  unfold take_action, call_action.
  repeat case_match; intros [= <-]; eauto.
Qed.

Lemma take_actions_exits p tuples st x :
  take_actions p tuples st = Exits x →
  (x = exit_help (prog p) ∧ ∃ t, t ∈ tuples ∧ action t.1 = help)
  ∨ ∃ e, x = exit_error (prog p) e.
Proof.
  revert st. induction tuples as [|[a args] tuples IH]; intros st; simpl; [done|].
  destruct (take_action p a args st) as [st1|x'] eqn:Ha.
  - intros [(-> & t & Ht & Hh)|?]%IH; [left|by right].
    split; [done|]. exists t. split; [by right | done].
  - intros [= <-]. apply take_action_exits in Ha as [(-> & Hh)|?]; [left|by right].
    split; [done|]. exists (a, args). split; [left | done].
Qed.

(** The loop exits with a usage error of the parser, or with its help
    when the command line names a help option. *)
Lemma consume_exits p pat skip st x :
  known_actions p pat →
  consume p None pat skip st = Exits x →
  (x = exit_help (prog p) ∧
   ∃ a, a ∈ actions p ∧ action a = help ∧
        supplied p (dest a) (map fst pat) = true)
  ∨ ∃ e, x = exit_error (prog p) e.
Proof.
  revert skip st. induction pat as [|[s c] pat IH]; intros skip st Hk; simpl; [done|].
  apply Forall_cons in Hk as [Hc Hk]. simpl in Hc.
  assert (∀ skip st, consume p None pat skip st = Exits x →
            (x = exit_help (prog p) ∧
             ∃ a, a ∈ actions p ∧ action a = help ∧
                  supplied p (dest a) (s :: map fst pat) = true)
            ∨ ∃ e, x = exit_error (prog p) e) as IH'.
  { intros skip' st' [(-> & a & Ha & Hh & Hs)|?]%IH; [left|by right|done].
    split; [done|]. exists a. split; [done|]. split; [done|].
    simpl. rewrite Hs. apply orb_true_r. }
  destruct skip as [|k]; [|by apply IH'].
  destruct c as [| |[a|] os e]; try (by apply IH').
  destruct (consume_optional p a os e pat) as [err|[tuples n]] eqn:Hco.
  { intros [= <-]. right. by eexists. }
  destruct (take_actions p tuples st) as [st1|x'] eqn:Hta; [by apply IH'|].
  intros [= <-].
  apply take_actions_exits in Hta as [(-> & t & Ht & Hh)|?]; [left|by right].
  split; [done|]. exists t.1. split.
  { pose proof (consume_optional_actions _ _ _ _ _ _ _
                  (parse_optional_elem _ _ _ _ _ Hc) Hco) as Hall.
    rewrite Forall_forall in Hall. by apply Hall. }
  split; [done|]. simpl.
  apply orb_true_iff. left. apply bool_decide_eq_true.
  rewrite <-(consume_optional_named _ _ _ _ _ _ _ _ Hc Hco).
  apply list_elem_of_fmap. by exists t.
Qed.

Lemma parse_known_args_exits p argv x :
  parse_known_args p None argv = Exits x →
  (x = exit_help (prog p) ∧
   ∃ a, a ∈ actions p ∧ action a = help ∧ supplied p (dest a) argv = true)
  ∨ ∃ e, x = exit_error (prog p) e.
Proof.
  unfold parse_known_args.
  destruct (arg_strings_pattern p argv) as [err|pat] eqn:Hpat.
  { intros [= <-]. right. by eexists. }
  apply arg_strings_pattern_spec in Hpat as [<- Hk].
  destruct (consume p None pat 0 (initial_state p)) as [st|x'] eqn:Hrun.
  - repeat case_match; try done; intros [= <-]; right; by eexists.
  - intros [= <-]. by eapply consume_exits.
Qed.

Lemma subparser_cases name sp :
  assoc name subparsers = Some sp →
  parse_optional parser name = inr Positional ∧
  String.eqb name "--" = false ∧
  str_defaults sp ∧
  Forall (λ a, dest a ≠ "func") (actions sp) ∧
  Forall (λ a, dest a = "infile" →
               nargs a = ONE_OR_MORE ∧ action a = store ∧ type a = type_None)
         (actions sp) ∧
  "infile" ∈ required_dests sp ∧
  (∀ a, a ∈ actions sp → action a = help → dest a = help_dest) ∧
  (∃ f, initial_namespace sp !! "func" = Some (VFunc f) ∧
        (f = Frelax_structure ↔ sp = p_relax) ∧ (f = Frun_md ↔ sp = p_md)).
Proof.
  intros [[-> ->]|[-> ->]]%assoc_subparsers.
  - split_and!; try done.
    + apply str_defaults_relax.
    + simpl. repeat apply Forall_cons_2; try apply Forall_nil_2; done.
    + simpl. repeat apply Forall_cons_2; try apply Forall_nil_2; done.
    + apply (bool_decide_unpack _). by vm_compute.
    + intros a Ha. simpl in Ha. decompose_list_elem_of; by subst.
    + exists Frelax_structure. split_and!; done.
  - split_and!; try done.
    + apply str_defaults_md.
    + simpl. repeat apply Forall_cons_2; try apply Forall_nil_2; done.
    + simpl. repeat apply Forall_cons_2; try apply Forall_nil_2; done.
    + apply (bool_decide_unpack _). by vm_compute.
    + intros a Ha. simpl in Ha. decompose_list_elem_of; by subst.
    + exists Frun_md. split_and!; done.
Qed.

(** [parse_args] on a command line that starts with a sub-command. *)
Lemma parse_args_sub name sp argv :
  assoc name subparsers = Some sp →
  parse_args parser subparsers (name :: argv) =
  match parse_known_args sp None argv with
  | Exits x => Exits x
  | Parsed (ns, []) => Parsed ns
  | Parsed (ns, (_ :: _) as argv') =>
      Exits (exit_error (prog parser) (unrecognized_arguments argv'))
  end.
Proof.
  intros Hsp. destruct (subparser_cases _ _ Hsp) as (Hpos & Hdash & _).
  unfold parse_args, parse_known_args at 1. cbn [arg_strings_pattern].
  rewrite Hdash, Hpos.
  destruct (top_pattern argv) as [pat Hpat]. rewrite Hpat.
  apply arg_strings_pattern_spec in Hpat as [Hfst Hk].
  cbn [consume]. rewrite Hfst. unfold subparsers_action. rewrite Hsp.
  destruct (parse_known_args sp None argv) as [[ns unrec]|]; [|done].
  rewrite top_check_actions. cbn [namespace extras unrecognized initial_state].
  change (initial_namespace parser) with (∅ : Namespace).
  rewrite (right_id_L ∅ (∪)). by destruct unrec.
Qed.

(** What [main] does when the parser exits. *)
Lemma main_exits argv x w :
  parse_args parser subparsers argv = Exits x →
  main argv w = (Raise (SystemExit (exit_status x)), w, [exit_event x]).
Proof. unfold main. by intros ->. Qed.

Lemma main_parsed argv args func w :
  parse_args parser subparsers argv = Parsed args →
  args !! "func" = Some func →
  main argv w = call func args w.
Proof. unfold main. by intros -> ->. Qed.

End exits.

(** ** The handlers on an accepted command line *)

Section dispatch.
Context `{Externals}.
Import argparse.
Local Open Scope py_scope.

Lemma handler_returns_0 (body : Namespace → value → M unit) args w v w' tr :
  (let* infile := getattr args "infile" in
   let* fns := iter infile in
   for_each fns (body args) >> ret (VInt 0)) w = (Ok v, w', tr) →
  v = VInt 0.
Proof.
  intros Hrun.
  apply bind_ok in Hrun as [(infile & ? & ? & ? & _ & Hrun & _)|(? & _ & [=])].
  apply bind_ok in Hrun as [(fns & ? & ? & ? & _ & Hrun & _)|(? & _ & [=])].
  apply bind_ok in Hrun as [(? & ? & ? & ? & _ & Hrun & _)|(? & _ & [=])].
  by injection Hrun.
Qed.

Lemma call_returns_0 func args w v w' tr :
  call func args w = (Ok v, w', tr) → v = VInt 0.
Proof.
  destruct func as [| | | | | |[]]; try done; apply handler_returns_0.
Qed.

(** What an accepted command line is: it starts with a sub-command whose
    parser accepts the rest, and the namespace holds that sub-command's
    handler and a list of input files. *)
Lemma accepted argv args :
  parse_args parser subparsers argv = Parsed args →
  argv = [] ∧ args = ∅ ∨
  ∃ name sp rest f fns,
    argv = name :: rest ∧ assoc name subparsers = Some sp ∧
    parse_known_args sp None rest = Parsed (args, []) ∧
    args !! "func" = Some (VFunc f) ∧
    (f = Frelax_structure ↔ sp = p_relax) ∧ (f = Frun_md ↔ sp = p_md) ∧
    args !! "infile" = Some (VList (VStr <$> fns)).
Proof.
  intros [?|(name & sp & rest & -> & Hsp & Hsub)]%parse_args_inv; [by left|right].
  destruct (subparser_cases _ _ Hsp)
    as (_ & _ & Hstr & Hfunc & Hin & Hreq & _ & f & Hf & Hrelax & Hmd).
  destruct (accepted_infile _ _ _ _ Hstr Hin Hreq Hsub) as [fns Hfns].
  exists name, sp, rest, f, fns. split_and!; try done.
  by rewrite (accepted_func _ _ _ _ Hstr Hfunc Hsub).
Qed.

Lemma accepted_relax argv args :
  parse_args parser subparsers argv = Parsed args →
  args !! "func" = Some (VFunc Frelax_structure) →
  ∃ rest fns,
    argv = "relax" :: rest ∧
    parse_known_args p_relax None rest = Parsed (args, []) ∧
    args !! "infile" = Some (VList (VStr <$> fns)).
Proof.
  intros [[_ ->]|(name & sp & rest & f & fns & -> & Hsp & Hsub & Hf & Hrelax & _ & Hfns)]%accepted Hfunc.
  { by rewrite lookup_empty in Hfunc. }
  rewrite Hf in Hfunc. simplify_eq.
  assert (sp = p_relax) as -> by (by apply Hrelax).
  apply assoc_subparsers in Hsp as [[-> _]|[_ [=]]]. eauto.
Qed.


Lemma bind_singleton {A B} (l : list A) (x : B) :
  (l ≫= λ _, [x]) = replicate (length l) x.
Proof. induction l as [|a l IH]; [done|]. simpl. by f_equal. Qed.

End dispatch.

Section values.
Context `{Externals}.
Import argparse.

(** The value of an attribute whose action was seen with a value is the
    converted value of some argument strings. *)
Lemma consume_value p pat skip st st' d :
  known_actions p pat →
  consume p None pat skip st = Parsed st' →
  d ∉ seen_non_default_actions st →
  d ∈ seen_non_default_actions st' →
  ∃ a arg_strings v,
    a ∈ actions p ∧ dest a = d ∧ get_values a arg_strings = inr v ∧
    namespace st' !! d =
      Some (match action a with store_true => VBool true | _ => v end).
Proof.
  intros Hk Hrun Hst.
  refine (consume_invariant p None
            (λ st', d ∈ seen_non_default_actions st' →
                    ∃ a arg_strings v,
                      a ∈ actions p ∧ dest a = d ∧
                      get_values a arg_strings = inr v ∧
                      namespace st' !! d =
                        Some (match action a with
                              | store_true => VBool true
                              | _ => v
                              end)) _ _ _ pat skip st st' Hk Hrun _);
    [done| |done|done].
  intros a args st0 st0' Ha (v & Hv & _ & _ & Hnd & _ & _ & Hns & _)%take_action_inv IH.
  rewrite Hnd, Hns. destruct (decide (dest a = d)) as [<-|Hne].
  - intros _. exists a, args, v. by rewrite lookup_insert_eq.
  - rewrite lookup_insert_ne by done. intros Hin. apply IH. set_solver.
Qed.

Lemma accepted_value p argv ns d :
  str_defaults p →
  parse_known_args p None argv = Parsed (ns, []) →
  supplied p d argv = true →
  ∃ a arg_strings v,
    a ∈ actions p ∧ dest a = d ∧ get_values a arg_strings = inr v ∧
    ns !! d = Some (match action a with store_true => VBool true | _ => v end).
Proof.
  intros Hp (pat & st & Hpat & Hrun & Hc & Hex)%parse_known_args_inv Hs.
  symmetry in Hex. apply app_eq_nil in Hex as [Hex _].
  pose proof (consume_covers _ _ _ _ _ _ d Hpat (Nat.le_0_l _) Hrun Hex Hs) as Hin.
  apply arg_strings_pattern_spec in Hpat as [_ Hk].
  apply check_actions_spec in Hc as [-> _]; [|done].
  eapply consume_value; [done..| |done]. simpl. set_solver.
Qed.

End values.

Section md_calls.
Context `{Externals}.



Lemma written_files_without_prints tr :
  written_files (without_prints tr) = written_files tr.
Proof.
  unfold written_files, without_prints.
  induction tr as [|ev tr IH]; [done|].
  destruct ev;
    [rewrite filter_cons_False by done|rewrite filter_cons_True by done..];
    simpl; try (f_equal; exact IH); exact IH.
Qed.

Lemma md_calls_without_prints tr :
  md_calls (without_prints tr) = md_calls tr.
Proof.
  unfold md_calls, without_prints.
  induction tr as [|ev tr IH]; [done|].
  destruct ev;
    [rewrite filter_cons_False by done|rewrite filter_cons_True by done..];
    rewrite ?(filter_cons_False _ (EvPrint _)) by done;
    rewrite ?filter_cons_False by done; rewrite ?filter_cons_True by done;
    try (f_equal; exact IH); exact IH.
Qed.

End md_calls.

(** ** When the relax handler fails *)

Section failures.
Context `{Externals}.
Local Open Scope py_scope.

(** An iteration of [relax_structure] on a namespace that has the
    attributes it reads fails only where a collaborator raised, or
    returned results without ["final_structure"]: that call is its last
    event. *)
Lemma relax_structure_body_fails args fn w e w' t :
  is_Some (args !! "verbose") →
  is_Some (args !! "suffix") →
  is_Some (args !! "outfile") →
  relax_structure_body args (VStr fn) w = (Raise e, w', t) →
  ∃ ev, last t = Some ev ∧
        (raised ev = Some e ∨ missing_final_structure ev = Some e).
Proof.
  intros [verbose Hv] [suffix Hs] [outfile Ho].
  unfold relax_structure_body, bind, external, getattr, getitem,
    splitext, print, emit, ret, raise.
  rewrite Hv, Hs, Ho.
  intros; repeat (case_match; simplify_eq/=; try done).
  all: eexists; (split; [reflexivity|]); simpl.
  all: first [by left | right; by repeat case_match].
Qed.

(** [relax_structure] on a namespace with a list of file names and the
    attributes it reads returns 0, unless a collaborator raised or
    returned results without ["final_structure"]; that call is then the
    last event, and its exception the outcome. *)
Lemma relax_structure_fails args fns w r w' tr :
  args !! "infile" = Some (VList (VStr <$> fns)) →
  is_Some (args !! "verbose") →
  is_Some (args !! "suffix") →
  is_Some (args !! "outfile") →
  relax_structure args w = (r, w', tr) →
  r = Ok (VInt 0) ∨
  ∃ ev e, last tr = Some ev ∧ r = Raise e ∧
          (raised ev = Some e ∨ missing_final_structure ev = Some e).
Proof.
  intros Hin Hv Hs Ho Hrun.
  eapply handler_inv in Hrun as (r' & Hloop & ->); [|done].
  apply for_each_inv in Hloop
    as [(-> & _)|(l1 & x & l2 & w1 & ts & e & t & Hl & _ & Hx & -> & ->)];
    [by left|right].
  apply fmap_app_inv in Hl as (f1 & f2' & -> & Hl & ->).
  destruct f2' as [|fn f2]; simplify_eq/=.
  destruct (relax_structure_body_fails _ _ _ _ _ _ Hv Hs Ho Hx) as (ev & Hlast & Hev).
  exists ev, e. split_and!; [|done..].
  by rewrite last_app, Hlast.
Qed.

End failures.

(** * The properties of the specification *)

Import argparse.

(** What the sample definitions name: the outcome, the final state and
    the trace of [main] in the sample environment. *)
Lemma sample_run argv :
  main (H := sample.env) argv []
  = (sample.outcome argv, sample.final_state argv, sample.trace argv).
Proof.
  unfold sample.outcome, sample.final_state, sample.trace.
  by destruct (main (H := sample.env) argv []) as [[??]?].
Qed.



Example relax_two_files :
  output_actions (sample.trace ["relax"; "-i"; "a.cif"; "b.cif"; "-s"; "_relax"])
  = [WriteFile (PyObject := string) "Structure a.cif'" (VStr "a_relax.cif");
     WriteFile (PyObject := string) "Structure b.cif'" (VStr "b_relax.cif")].
Proof. vm_compute. reflexivity. Qed.

Example relax_cut_short :
  sample.outcome ["relax"; "-i"; "a.cif"; "missing.cif"; "b.cif"]
  = Raise (ExternalError "FileNotFoundError") ∧
  output_actions (sample.trace ["relax"; "-i"; "a.cif"; "missing.cif"; "b.cif"])
  = [ConsolePrint (PyObject := string) "Structure a.cif'"].
Proof. split; vm_compute; reflexivity. Qed.

(** Counterexample to C2 as stated: the empty suffix.  With [-s ""] the
    suffix option is set, to the empty string; [if args.suffix:] takes it
    for unset, and the relaxed structure is printed: no file is written,
    so the output file [a.cif] is not produced. *)
Lemma empty_suffix_writes_no_file :
  parse_args (H := sample.env) parser subparsers ["relax"; "-i"; "a.cif"; "-s"; ""]
  = Parsed (sample.parsed ["relax"; "-i"; "a.cif"; "-s"; ""]) ∧
  sample.parsed ["relax"; "-i"; "a.cif"; "-s"; ""] !! "suffix" = Some (VStr "") ∧
  sample.outcome ["relax"; "-i"; "a.cif"; "-s"; ""] = Ok (VInt 0) ∧
  output_actions (sample.trace ["relax"; "-i"; "a.cif"; "-s"; ""])
  = [ConsolePrint (PyObject := string) "Structure a.cif'"] ∧
  written_files (sample.trace ["relax"; "-i"; "a.cif"; "-s"; ""])
  ≠ [VStr (fst (os_path.splitext "a.cif") +:+ "" +:+ snd (os_path.splitext "a.cif"))].
Proof. split_and!; try (vm_compute; reflexivity). vm_compute. discriminate. Qed.

(** C2.  [relax] on an accepted command line whose suffix is a non-empty
    string: every file written is named by the part of the input file
    name before its extension, then the suffix, then the extension; the
    files written are those of the first input files, in order, and of
    all of them when the handler returns.  The two parts [os.path.splitext]
    cuts an input file name into make up that name. *)
Theorem suffix_output_names `{Externals} argv args sfx w r w' tr :
  parse_args parser subparsers argv = Parsed args →
  args !! "func" = Some (VFunc Frelax_structure) →
  args !! "suffix" = Some (VStr sfx) →
  sfx ≠ "" →
  main argv w = (r, w', tr) →
  ∃ fns,
    args !! "infile" = Some (VList (VStr <$> fns)) ∧
    written_files tr `prefix_of`
      ((λ fn, VStr (fst (os_path.splitext fn) +:+ sfx +:+ snd (os_path.splitext fn)))
         <$> fns) ∧
    (∀ v, r = Ok v →
          written_files tr =
          (λ fn, VStr (fst (os_path.splitext fn) +:+ sfx +:+ snd (os_path.splitext fn)))
            <$> fns) ∧
    Forall (λ fn, fst (os_path.splitext fn) +:+ snd (os_path.splitext fn) = fn) fns.
Proof.
  intros Hparse Hfunc Hsfx Hne Hmain.
  destruct (accepted_relax _ _ Hparse Hfunc) as (rest & fns & -> & Hsub & Hfns).
  rewrite (main_parsed _ _ _ _ Hparse Hfunc) in Hmain. simpl in Hmain.
  assert (∀ fn, output_file args fn =
                Some (VStr (fst (os_path.splitext fn) +:+ sfx +:+ snd (os_path.splitext fn))))
    as Hout.
  { intros fn. unfold output_file. rewrite Hsfx. simpl.
    rewrite py_format_str.
    by destruct (String.eqb_spec sfx ""). }
  assert ((fns ≫= λ fn, option_list (output_file args fn)) =
          (λ fn, VStr (fst (os_path.splitext fn) +:+ sfx +:+ snd (os_path.splitext fn)))
            <$> fns) as Hall.
  { clear -Hout. induction fns as [|fn fns IH]; [done|].
    rewrite bind_cons, fmap_cons, IH, Hout. done. }
  exists fns. split_and!; [done| | |].
  - rewrite <- Hall. by eapply relax_structure_writes.
  - intros v ->.
    destruct (relax_structure_ok _ _ _ _ _ _ Hfns Hmain) as (_ & blocks & -> & Hblocks).
    by rewrite (blocks_writes _ _ _ Hblocks).
  - apply Forall_forall. intros fn _. apply splitext_join.
Qed.

Lemma suffix_output_names_witness :
  sample.parsed ["relax"; "-i"; "a.cif"; "dir.d/b"; "-s"; "_relax"] !! "suffix"
  = Some (VStr "_relax") ∧
  ∃ fns,
    sample.parsed ["relax"; "-i"; "a.cif"; "dir.d/b"; "-s"; "_relax"] !! "infile"
    = Some (VList (VStr <$> fns)) ∧
    written_files (sample.trace ["relax"; "-i"; "a.cif"; "dir.d/b"; "-s"; "_relax"])
    `prefix_of`
      ((λ fn, VStr (fst (os_path.splitext fn) +:+ "_relax" +:+ snd (os_path.splitext fn)))
         <$> fns) ∧
    (∀ v, sample.outcome ["relax"; "-i"; "a.cif"; "dir.d/b"; "-s"; "_relax"] = Ok v →
          written_files (sample.trace ["relax"; "-i"; "a.cif"; "dir.d/b"; "-s"; "_relax"]) =
          (λ fn, VStr (fst (os_path.splitext fn) +:+ "_relax" +:+ snd (os_path.splitext fn)))
            <$> fns) ∧
    Forall (λ fn, fst (os_path.splitext fn) +:+ snd (os_path.splitext fn) = fn) fns.
Proof.
  split; [vm_compute; reflexivity|].
  apply (suffix_output_names (H := sample.env)
           ["relax"; "-i"; "a.cif"; "dir.d/b"; "-s"; "_relax"]
           (sample.parsed ["relax"; "-i"; "a.cif"; "dir.d/b"; "-s"; "_relax"])
           "_relax" []
           (sample.outcome ["relax"; "-i"; "a.cif"; "dir.d/b"; "-s"; "_relax"])
           (sample.final_state ["relax"; "-i"; "a.cif"; "dir.d/b"; "-s"; "_relax"])
           (sample.trace ["relax"; "-i"; "a.cif"; "dir.d/b"; "-s"; "_relax"])).
  - vm_compute; reflexivity.
  - vm_compute; reflexivity.
  - vm_compute; reflexivity.
  - discriminate.
  - apply sample_run.
Defined.

Example relax_suffix_files :
  written_files (sample.trace ["relax"; "-i"; "a.cif"; "dir.d/b"; "-s"; "_relax"])
  = [VStr "a_relax.cif"; VStr "dir.d/b_relax"].
Proof. vm_compute. reflexivity. Qed.

(** C3.  On every [md] command line the parser accepts: [trajectory] is
    ["md.traj"], [logfile] is ["md.log"] and [loginterval] is [100]
    whenever the command line does not name the option; the required
    options, [timestep] among them, are all named on the command line,
    so the default [2.0] declared for [timestep] is never the value the
    handler gets by default; and the value of an option the command line
    names is the one converted from its argument. *)
Theorem md_defaults `{Externals} argv args :
  parse_args parser subparsers ("md" :: argv) = Parsed args →
  (supplied p_md "trajectory" argv = false →
   args !! "trajectory" = Some (VStr "md.traj")) ∧
  (supplied p_md "logfile" argv = false →
   args !! "logfile" = Some (VStr "md.log")) ∧
  (supplied p_md "loginterval" argv = false →
   args !! "loginterval" = Some (VInt 100)) ∧
  required_dests p_md = ["infile"; "temp"; "ensemble"; "timestep"; "nsteps"] ∧
  initial_namespace p_md !! "timestep" = Some (VFloat float_2_0) ∧
  (∀ d, d ∈ required_dests p_md → supplied p_md d argv = true) ∧
  (∀ d, supplied p_md d argv = true →
        ∃ a arg_strings v,
          a ∈ actions p_md ∧ dest a = d ∧
          get_values a arg_strings = inr v ∧
          args !! d = Some (match action a with store_true => VBool true | _ => v end)).
Proof.
  intros Hparse.
  assert (parse_known_args p_md None argv = Parsed (args, [])) as Hsub.
  { rewrite (parse_args_sub "md" p_md) in Hparse by done.
    destruct (parse_known_args p_md None argv) as [[ns [|??]]|?]; by simplify_eq. }
  split_and!.
  - intros Hd. by rewrite (accepted_default _ _ _ _ _ str_defaults_md Hsub Hd).
  - intros Hd. by rewrite (accepted_default _ _ _ _ _ str_defaults_md Hsub Hd).
  - intros Hd. by rewrite (accepted_default _ _ _ _ _ str_defaults_md Hsub Hd).
  - done.
  - done.
  - intros d Hd. by eapply accepted_required; [apply str_defaults_md|exact Hsub|].
  - intros d Hd. by eapply accepted_value; [apply str_defaults_md|exact Hsub|].
Qed.

Lemma md_defaults_witness :
  supplied p_md "trajectory" sample.md_options = false ∧
  sample.parsed sample.md_line !! "trajectory" = Some (VStr "md.traj") ∧
  sample.parsed sample.md_line !! "logfile" = Some (VStr "md.log") ∧
  sample.parsed sample.md_line !! "loginterval" = Some (VInt 100) ∧
  supplied p_md "timestep" sample.md_options = true.
Proof.
  destruct (md_defaults (H := sample.env) sample.md_options
              (sample.parsed sample.md_line))
    as (Htraj & Hlog & Hli & Hreq & _ & Hall & _).
  - vm_compute; reflexivity.
  - assert (supplied p_md "trajectory" sample.md_options = false) as H1
      by (vm_compute; reflexivity).
    assert (supplied p_md "logfile" sample.md_options = false) as H2
      by (vm_compute; reflexivity).
    assert (supplied p_md "loginterval" sample.md_options = false) as H3
      by (vm_compute; reflexivity).
    split; [exact H1|]. split; [exact (Htraj H1)|]. split; [exact (Hlog H2)|].
    split; [exact (Hli H3)|].
    apply Hall. rewrite Hreq. do 3 apply list_elem_of_further. apply list_elem_of_here.
Defined.

Example md_explicit_options :
  sample.parsed
    ["md"; "-i"; "a.cif"; "-t"; "300"; "-e"; "npt"; "-dt"; "2.0"; "-n"; "5";
     "--traj=x.traj"; "--loginterval"; "7"] !! "trajectory" = Some (VStr "x.traj") ∧
  sample.parsed
    ["md"; "-i"; "a.cif"; "-t"; "300"; "-e"; "npt"; "-dt"; "2.0"; "-n"; "5";
     "--traj=x.traj"; "--loginterval"; "7"] !! "loginterval" = Some (VInt 7) ∧
  sample.outcome ["md"; "-i"; "a.cif"; "-t"; "300"; "-e"; "npt"; "-n"; "5"]
  = Raise (SystemExit 2) ∧
  sample.trace ["md"; "-i"; "a.cif"; "-t"; "300"; "-e"; "npt"; "-n"; "5"]
  = [EvError "m3g md" (arguments_required ["-dt/--timestep"])].
Proof. split_and!; vm_compute; reflexivity. Qed.

(** Counterexample to C4 as stated: [-h].  No subcommand is supplied on
    the command line [-h]; the parser prints the help and exits with
    status 0, not -1. *)
Lemma help_without_subcommand_exits_0 :
  sample.outcome ["-h"] = Raise (SystemExit 0) ∧
  sample.trace ["-h"] = [EvPrintHelp "m3g"] ∧
  sample.outcome ["-h"] ≠ Raise (SystemExit (-1)).
Proof.
  split_and!; [vm_compute; reflexivity..|]. vm_compute. discriminate.
Qed.

(** C4.  A run of [main] that returns, returns 0: the value of the
    handler.  On the empty command line [main] prints the help and exits
    with -1, and no handler is called.  On any other command line,
    either the parser exits, with status 0 (help) or 2 (an error), and no
    handler is called, or the first argument is the name of a subcommand
    and the outcome of [main] is that of the subcommand's handler. *)
Theorem exit_codes `{Externals} argv w r w' tr :
  main argv w = (r, w', tr) →
  (∀ v, r = Ok v → v = VInt 0) ∧
  (argv = [] →
   r = Raise (SystemExit (-1)) ∧ w' = w ∧ tr = [EvPrintHelp "m3g"]) ∧
  (argv ≠ [] →
   (∃ x, parse_args parser subparsers argv = Exits x ∧
         r = Raise (SystemExit (exit_status x)) ∧ w' = w ∧ tr = [exit_event x] ∧
         (exit_status x = 0 ∨ exit_status x = 2))
   ∨ (∃ name rest sp args f,
        argv = name :: rest ∧ assoc name subparsers = Some sp ∧
        parse_args parser subparsers argv = Parsed args ∧
        args !! "func" = Some (VFunc f) ∧
        call (VFunc f) args w = (r, w', tr))).
Proof.
  intros Hmain. split_and!.
  - intros v ->.
    destruct (parse_args parser subparsers argv) as [args|x] eqn:Hparse.
    + destruct (accepted _ _ Hparse)
        as [[-> ->]|(name & sp & rest & f & fns & -> & ? & ? & Hf & _)].
      * unfold main in Hmain. rewrite Hparse in Hmain. by simplify_eq/=.
      * rewrite (main_parsed _ _ _ _ Hparse Hf) in Hmain.
        by eapply call_returns_0.
    + rewrite (main_exits _ _ _ Hparse) in Hmain. by simplify_eq.
  - intros ->. unfold main in Hmain.
    assert (parse_args parser subparsers [] = Parsed ∅) as Hparse by reflexivity.
    rewrite Hparse, lookup_empty in Hmain.
    unfold bind, emit, raise in Hmain. simpl in Hmain. by simplify_eq.
  - intros Hne.
    destruct (parse_args parser subparsers argv) as [args|x] eqn:Hparse.
    + right.
      destruct (accepted _ _ Hparse)
        as [[-> ->]|(name & sp & rest & f & fns & -> & Hsp & ? & Hf & _)]; [done|].
      exists name, rest, sp, args, f. split_and!; try done.
      by rewrite <- (main_parsed _ _ _ _ Hparse Hf).
    + left. exists x. rewrite (main_exits _ _ _ Hparse) in Hmain. simplify_eq.
      split_and!; try done. destruct x; simpl; auto.
Qed.

Lemma exit_codes_witness :
  sample.outcome [] = Raise (SystemExit (-1)) ∧
  sample.final_state [] = [] ∧
  sample.trace [] = [EvPrintHelp "m3g"].
Proof.
  destruct (exit_codes (H := sample.env) [] [] (sample.outcome [])
              (sample.final_state []) (sample.trace []) (sample_run []))
    as (_ & Hempty & _).
  exact (Hempty eq_refl).
Defined.

Example exit_codes_samples :
  sample.outcome ["relax"; "-i"; "a.cif"] = Ok (VInt 0) ∧
  sample.outcome sample.md_line = Ok (VInt 0) ∧
  sample.outcome ["--version"] = Raise (SystemExit 2) ∧
  sample.outcome ["relaxx"; "-i"; "a.cif"] = Raise (SystemExit 2) ∧
  sample.trace ["relaxx"; "-i"; "a.cif"]
  = [EvError "m3g" (invalid_choice "relaxx")].
Proof. split_and!; vm_compute; reflexivity. Qed.

(** Counterexample to C5 as stated: [-h] first.  Both [-s] and [-o] are
    supplied after [-h]; the parser prints the help of [relax] and exits
    with status 0: the command line is not rejected with a non-zero
    status. *)
Lemma help_before_suffix_and_outfile :
  supplied p_relax "suffix" ["-h"; "-s"; "x"; "-o"; "y"] = true ∧
  supplied p_relax "outfile" ["-h"; "-s"; "x"; "-o"; "y"] = true ∧
  sample.outcome ["relax"; "-h"; "-s"; "x"; "-o"; "y"] = Raise (SystemExit 0) ∧
  sample.trace ["relax"; "-h"; "-s"; "x"; "-o"; "y"] = [EvPrintHelp "m3g relax"].
Proof. split_and!; vm_compute; reflexivity. Qed.

(** C5.  A [relax] command line that names both the suffix and the
    output file makes the parser exit: [main] raises [SystemExit] with the
    parser's status, having shown only the parser's message, and no
    handler runs.  Unless the command line also asks for help, the exit is
    an error, with status 2.  And whenever the relax handler is selected,
    the suffix or the output file is [None] in its namespace. *)
Theorem suffix_and_outfile_rejected `{Externals} argv w :
  supplied p_relax "suffix" argv = true →
  supplied p_relax "outfile" argv = true →
  (∃ x,
     main ("relax" :: argv) w = (Raise (SystemExit (exit_status x)), w, [exit_event x]) ∧
     (supplied p_relax help_dest argv = false →
      exit_status x = 2 ∧ ∃ prog e, x = exit_error prog e)) ∧
  (∀ argv' args',
     parse_args parser subparsers argv' = Parsed args' →
     args' !! "func" = Some (VFunc Frelax_structure) →
     args' !! "suffix" = Some VNone ∨ args' !! "outfile" = Some VNone).
Proof.
  intros Hs Ho. split.
  - pose proof (parse_args_sub "relax" p_relax argv eq_refl) as Hsub.
    destruct (parse_known_args p_relax None argv) as [[ns ex]|x] eqn:Hk.
    + destruct ex as [|s ex]; [by destruct (both_rejected _ _ Hs Ho Hk)|].
      eexists. split; [by apply main_exits|].
      intros _. split; [done|by eauto].
    + exists x. split; [by apply main_exits|].
      intros Hhelp.
      destruct (parse_known_args_exits _ _ _ Hk)
        as [(-> & a & Ha & Hact & Hsup)|(e & ->)]; [|split; [done|by eauto]].
      destruct (subparser_cases "relax" p_relax eq_refl)
        as (_ & _ & _ & _ & _ & _ & Hhelp' & _).
      rewrite (Hhelp' a Ha Hact) in Hsup. congruence.
  - intros argv' args' Hparse Hfunc.
    destruct (accepted_relax _ _ Hparse Hfunc) as (rest & fns & -> & Hsub & _).
    by eapply accepted_exclusive.
Qed.

Lemma suffix_and_outfile_rejected_witness :
  supplied p_relax "suffix" ["-i"; "a.cif"; "-s"; "_relax"; "-o"; "out.cif"] = true ∧
  supplied p_relax "outfile" ["-i"; "a.cif"; "-s"; "_relax"; "-o"; "out.cif"] = true ∧
  ∃ x,
    main (H := sample.env) ["relax"; "-i"; "a.cif"; "-s"; "_relax"; "-o"; "out.cif"] []
    = (Raise (SystemExit (exit_status x)), [], [exit_event x]).
Proof.
  assert (supplied p_relax "suffix" ["-i"; "a.cif"; "-s"; "_relax"; "-o"; "out.cif"]
          = true) as Hs by (vm_compute; reflexivity).
  assert (supplied p_relax "outfile" ["-i"; "a.cif"; "-s"; "_relax"; "-o"; "out.cif"]
          = true) as Ho by (vm_compute; reflexivity).
  split; [exact Hs|]. split; [exact Ho|].
  destruct (suffix_and_outfile_rejected (H := sample.env)
              ["-i"; "a.cif"; "-s"; "_relax"; "-o"; "out.cif"] [] Hs Ho)
    as [(x & Hx & _) _].
  exists x. exact Hx.
Defined.

Example suffix_and_outfile_error :
  sample.outcome ["relax"; "-i"; "a.cif"; "-s"; "_relax"; "-o"; "out.cif"]
  = Raise (SystemExit 2) ∧
  sample.trace ["relax"; "-i"; "a.cif"; "-s"; "_relax"; "-o"; "out.cif"]
  = [EvError "m3g relax" (not_allowed_with "-o/--outfile" "-s/--suffix")] ∧
  sample.outcome ["relax"; "-i"; "a.cif"; "--out=out.cif"; "-vsx"]
  = Raise (SystemExit 2).
Proof. split_and!; vm_compute; reflexivity. Qed.

(** Counterexample to C6 as stated: [relax -h].  The required [-i] is
    missing, and the parser prints the help of [relax] and exits with
    status 0: the command line is not rejected with a non-zero status. *)
Lemma help_without_required :
  required_dests p_relax = ["infile"] ∧
  supplied p_relax "infile" ["-h"] = false ∧
  sample.outcome ["relax"; "-h"] = Raise (SystemExit 0) ∧
  sample.trace ["relax"; "-h"] = [EvPrintHelp "m3g relax"].
Proof. split_and!; vm_compute; reflexivity. Qed.

(** C6.  The required options are [-i] for [relax] and [-i], [-t], [-e],
    [-dt], [-n] for [md].  A command line of a subcommand that does not
    name one of its required options makes the parser exit: [main] raises
    [SystemExit] with the parser's status, having shown only the parser's
    message, and no handler runs.  The status is 0 or 2; it is 0 only when
    the parser prints the help of the subcommand, which takes a help
    option on the command line; otherwise, and whenever the command line
    has no help option, the exit is an error, with status 2.  And when the
    parser accepts the command line of a subcommand, it names every
    required option. *)
Theorem missing_required_rejected `{Externals} name sp d argv w :
  assoc name subparsers = Some sp →
  d ∈ required_dests sp →
  supplied sp d argv = false →
  (∃ x,
     main (name :: argv) w = (Raise (SystemExit (exit_status x)), w, [exit_event x]) ∧
     (supplied sp help_dest argv = false →
      exit_status x = 2 ∧ ∃ prog e, x = exit_error prog e) ∧
     (exit_status x = 0 ∨ exit_status x = 2) ∧
     (exit_status x = 0 →
      x = exit_help (prog sp) ∧ supplied sp help_dest argv = true)) ∧
  required_dests p_relax = ["infile"] ∧
  required_dests p_md = ["infile"; "temp"; "ensemble"; "timestep"; "nsteps"] ∧
  (∀ argv' args',
     parse_args parser subparsers (name :: argv') = Parsed args' →
     ∀ d', d' ∈ required_dests sp → supplied sp d' argv' = true).
Proof.
  intros Hsp Hd Hsup.
  destruct (subparser_cases _ _ Hsp) as (_ & _ & Hstr & _ & _ & _ & Hhelp & _).
  split_and!; [|done|done|].
  - pose proof (parse_args_sub name sp argv Hsp) as Hsub.
    destruct (parse_known_args sp None argv) as [[ns ex]|x] eqn:Hk.
    + pose proof (accepted_required _ _ _ _ _ Hstr Hk Hd). congruence.
    + exists x. split; [by apply main_exits|].
      destruct (parse_known_args_exits _ _ _ Hk)
        as [(-> & a & Ha & Hact & Hsup')|(e & ->)].
      * rewrite (Hhelp a Ha Hact) in Hsup'. split_and!.
        -- congruence.
        -- by left.
        -- done.
      * split_and!; [by eauto|by right|done].
  - intros argv' args' Hparse d' Hd'.
    rewrite (parse_args_sub name sp argv' Hsp) in Hparse.
    destruct (parse_known_args sp None argv') as [[ns ex]|x] eqn:Hk; [|done].
    by eapply accepted_required.
Qed.

Lemma missing_required_rejected_witness :
  supplied p_md "temp" ["-i"; "a.cif"; "-e"; "nvt"; "-dt"; "1"; "-n"; "5"] = false ∧
  ∃ x,
    main (H := sample.env) ["md"; "-i"; "a.cif"; "-e"; "nvt"; "-dt"; "1"; "-n"; "5"] []
    = (Raise (SystemExit (exit_status x)), [], [exit_event x]) ∧
    exit_status x = 2.
Proof.
  assert (supplied p_md "temp" ["-i"; "a.cif"; "-e"; "nvt"; "-dt"; "1"; "-n"; "5"]
          = false) as Hs by (vm_compute; reflexivity).
  split; [exact Hs|].
  destruct (missing_required_rejected (H := sample.env) "md" p_md "temp"
              ["-i"; "a.cif"; "-e"; "nvt"; "-dt"; "1"; "-n"; "5"] [] eq_refl)
    as [(x & Hx & Herr & _) _].
  - do 1 apply list_elem_of_further. apply list_elem_of_here.
  - exact Hs.
  - exists x. split; [exact Hx|]. apply Herr. vm_compute; reflexivity.
Defined.

Example help_does_not_always_win :
  supplied p_md "infile" ["-h"; "--lo"] = false ∧
  supplied p_md help_dest ["-h"; "--lo"] = true ∧
  sample.outcome ["md"; "-h"; "--lo"] = Raise (SystemExit 2) ∧
  sample.trace ["md"; "-h"; "--lo"]
  = [EvError "m3g md" (ambiguous_option "--lo" ["--log"; "--loginterval"])] ∧
  sample.outcome ["relax"; "-s"; "-h"] = Raise (SystemExit 2) ∧
  sample.outcome ["md"; "-t"; "abc"; "-h"] = Raise (SystemExit 2).
Proof. split_and!; vm_compute; reflexivity. Qed.

Example missing_required_errors :
  sample.trace ["relax"; "-v"] = [EvError "m3g relax" (arguments_required ["-i/--infile"])] ∧
  sample.outcome ["relax"; "-v"] = Raise (SystemExit 2) ∧
  sample.trace ["md"; "-i"; "a.cif"]
  = [EvError "m3g md"
       (arguments_required ["-t/--temp"; "-e/--ensemble"; "-dt/--timestep"; "-n/--nsteps"])] ∧
  sample.trace ["md"; "-i"; "a.cif"; "-e"; "nvt"; "-dt"; "1"; "-n"; "5"]
  = [EvError "m3g md" (arguments_required ["-t/--temp"])].
Proof. split_and!; vm_compute; reflexivity. Qed.

(** C7.  In a run of either handler, a call to a collaborator (loading a
    structure, building the relaxer, relaxing, writing the output,
    building the molecular-dynamics driver, running it) that raises is
    the last thing the handler does: no event follows it, so nothing is
    retried and no later input file is loaded or processed; and the
    handler ends by raising that very exception, untranslated. *)
Theorem external_errors_propagate `{Externals}
    (f : handler) args w r w' tr tr1 ev tr2 e :
  call (VFunc f) args w = (r, w', tr) →
  tr = tr1 ++ ev :: tr2 →
  raised ev = Some e →
  tr2 = [] ∧ r = Raise e.
Proof.
  destruct f; simpl.
  - apply propagates_relax_structure.
  - apply propagates_run_md.
Qed.

Lemma external_errors_propagate_witness :
  sample.trace ["relax"; "-i"; "a.cif"; "missing.cif"; "b.cif"; "-o"; "out.cif"]
  = [EvFromFile (VStr "a.cif") (Ok "Structure a.cif");
     EvRelaxer (Ok "Relaxer");
     EvRelax "Relaxer" "Structure a.cif"
       (Ok {[ "final_structure" := "Structure a.cif'" ]});
     EvTo "Structure a.cif'" (VStr "out.cif") (Ok tt);
     EvPrint (Text "Structure written to out.cif!")]
    ++ EvFromFile (VStr "missing.cif") (Raise (ExternalError "FileNotFoundError"))
    :: [] ∧
  sample.outcome ["relax"; "-i"; "a.cif"; "missing.cif"; "b.cif"; "-o"; "out.cif"]
  = Raise (ExternalError "FileNotFoundError").
Proof.
  assert (sample.trace ["relax"; "-i"; "a.cif"; "missing.cif"; "b.cif"; "-o"; "out.cif"]
          = [EvFromFile (VStr "a.cif") (Ok "Structure a.cif");
             EvRelaxer (Ok "Relaxer");
             EvRelax "Relaxer" "Structure a.cif"
               (Ok {[ "final_structure" := "Structure a.cif'" ]});
             EvTo "Structure a.cif'" (VStr "out.cif") (Ok tt);
             EvPrint (Text "Structure written to out.cif!")]
            ++ EvFromFile (VStr "missing.cif")
                 (Raise (ExternalError "FileNotFoundError"))
            :: []) as Htr by (vm_compute; reflexivity).
  split; [exact Htr|].
  refine (proj2 (external_errors_propagate (H := sample.env)
            Frelax_structure
            (sample.parsed ["relax"; "-i"; "a.cif"; "missing.cif"; "b.cif"; "-o"; "out.cif"])
            []
            (sample.outcome ["relax"; "-i"; "a.cif"; "missing.cif"; "b.cif"; "-o"; "out.cif"])
            (sample.final_state ["relax"; "-i"; "a.cif"; "missing.cif"; "b.cif"; "-o"; "out.cif"])
            (sample.trace ["relax"; "-i"; "a.cif"; "missing.cif"; "b.cif"; "-o"; "out.cif"])
            _ _ [] (ExternalError "FileNotFoundError") _ Htr _)).
  - vm_compute; reflexivity.
  - reflexivity.
Defined.



Example md_two_files :
  sample.parsed sample.md_line !! "nsteps" = Some (VInt 50) ∧
  sample.parsed sample.md_line !! "trajectory" = Some (VStr "md.traj") ∧
  sample.final_state sample.md_line = ["run MD Structure a.cif"; "run MD Structure b.cif"] ∧
  md_calls (sample.trace sample.md_line)
  = [EvMolecularDynamics "Structure a.cif" (VFloat (S754_finite false 300 0))
       (VStr "nvt") (VFloat (S754_finite false 1 0)) (VStr "md.traj") (VStr "md.log")
       (VInt 100) (Ok "MD Structure a.cif");
     EvRun "MD Structure a.cif" (VInt 50) (Ok tt);
     EvMolecularDynamics "Structure b.cif" (VFloat (S754_finite false 300 0))
       (VStr "nvt") (VFloat (S754_finite false 1 0)) (VStr "md.traj") (VStr "md.log")
       (VInt 100) (Ok "MD Structure b.cif");
     EvRun "MD Structure b.cif" (VInt 50) (Ok tt)].
Proof. split_and!; vm_compute; reflexivity. Qed.

(** C9.  [relax] on an accepted command line with an explicit output
    file.  The handler returns, unless a collaborator raises or returns
    results without ["final_structure"], that call being then its last
    event.  Every write goes to the one path [args.outfile], whatever the
    input file; there is at most one write per input file, and when the
    handler returns there is exactly one per input file, so with N input
    files the same path is written N times. *)
Theorem outfile_shared `{Externals} argv args outfile w r w' tr :
  parse_args parser subparsers argv = Parsed args →
  args !! "func" = Some (VFunc Frelax_structure) →
  args !! "outfile" = Some outfile →
  outfile ≠ VNone →
  main argv w = (r, w', tr) →
  ∃ fns,
    args !! "infile" = Some (VList (VStr <$> fns)) ∧
    Forall (λ filename, filename = outfile) (written_files tr) ∧
    (length (written_files tr) ≤ length fns)%nat ∧
    (∀ v, r = Ok v → written_files tr = replicate (length fns) outfile) ∧
    (r = Ok (VInt 0) ∨
     ∃ ev e, last tr = Some ev ∧ r = Raise e ∧
             (raised ev = Some e ∨ missing_final_structure ev = Some e)).
Proof.
  intros Hparse Hfunc Hout Hne Hmain.
  destruct (accepted_relax _ _ Hparse Hfunc) as (rest & fns & -> & Hsub & Hfns).
  rewrite (main_parsed _ _ _ _ Hparse Hfunc) in Hmain. simpl in Hmain.
  assert (args !! "suffix" = Some VNone) as Hsfx.
  { destruct (accepted_exclusive _ _ _ Hsub) as [?|Hnone]; [done|].
    rewrite Hout in Hnone. by simplify_eq. }
  assert (∀ fn, output_file args fn = Some outfile) as Hfile.
  { intros fn. unfold output_file. rewrite Hsfx, Hout. simpl. by destruct outfile. }
  assert ((fns ≫= λ fn, option_list (output_file args fn)) =
          replicate (length fns) outfile) as Hall.
  { clear -Hfile. induction fns as [|fn fns IH]; [done|].
    rewrite bind_cons, IH, Hfile. done. }
  pose proof (relax_structure_writes _ _ _ _ _ _ Hfns Hmain) as Hpre.
  rewrite Hall in Hpre.
  exists fns. split_and!; [done| | | |].
  - destruct Hpre as [k Hk].
    apply Forall_forall. intros x Hx.
    assert (x ∈ replicate (length fns) outfile) as Hin
      by (rewrite Hk; apply elem_of_app; by left).
    by apply elem_of_replicate in Hin as [-> _].
  - apply prefix_length in Hpre. by rewrite length_replicate in Hpre.
  - intros v ->.
    destruct (relax_structure_ok _ _ _ _ _ _ Hfns Hmain) as (_ & blocks & -> & Hblocks).
    by rewrite (blocks_writes _ _ _ Hblocks).
  - eapply relax_structure_fails; [exact Hfns| | | |exact Hmain].
    + eapply accepted_is_Some; [apply str_defaults_relax|exact Hsub|].
      vm_compute; by eexists.
    + by rewrite Hsfx.
    + by rewrite Hout.
Qed.

Lemma outfile_shared_witness :
  sample.parsed ["relax"; "-i"; "a.cif"; "b.cif"; "-o"; "out.cif"] !! "outfile"
  = Some (VStr "out.cif") ∧
  sample.outcome ["relax"; "-i"; "a.cif"; "b.cif"; "-o"; "out.cif"] = Ok (VInt 0) ∧
  written_files (sample.trace ["relax"; "-i"; "a.cif"; "b.cif"; "-o"; "out.cif"])
  = [VStr "out.cif"; VStr "out.cif"].
Proof.
  assert (sample.parsed ["relax"; "-i"; "a.cif"; "b.cif"; "-o"; "out.cif"] !! "outfile"
          = Some (VStr "out.cif")) as Hout by (vm_compute; reflexivity).
  assert (sample.outcome ["relax"; "-i"; "a.cif"; "b.cif"; "-o"; "out.cif"]
          = Ok (VInt 0)) as Hok by (vm_compute; reflexivity).
  assert (sample.parsed ["relax"; "-i"; "a.cif"; "b.cif"; "-o"; "out.cif"] !! "infile"
          = Some (VList [VStr "a.cif"; VStr "b.cif"])) as Hin
    by (vm_compute; reflexivity).
  split; [exact Hout|]. split; [exact Hok|].
  destruct (outfile_shared (H := sample.env)
              ["relax"; "-i"; "a.cif"; "b.cif"; "-o"; "out.cif"]
              (sample.parsed ["relax"; "-i"; "a.cif"; "b.cif"; "-o"; "out.cif"])
              (VStr "out.cif") []
              (sample.outcome ["relax"; "-i"; "a.cif"; "b.cif"; "-o"; "out.cif"])
              (sample.final_state ["relax"; "-i"; "a.cif"; "b.cif"; "-o"; "out.cif"])
              (sample.trace ["relax"; "-i"; "a.cif"; "b.cif"; "-o"; "out.cif"]))
    as (fns & Hfns & _ & _ & Hall & _).
  - vm_compute; reflexivity.
  - vm_compute; reflexivity.
  - exact Hout.
  - discriminate.
  - apply sample_run.
  - rewrite (Hall (VInt 0) Hok).
    rewrite Hin in Hfns. injection Hfns as Hfns.
    apply (f_equal length) in Hfns. rewrite length_fmap in Hfns.
    rewrite <- Hfns. reflexivity.
Defined.

Example relax_outfile_twice :
  sample.outcome ["relax"; "-i"; "a.cif"; "b.cif"; "-o"; "out.cif"] = Ok (VInt 0) ∧
  sample.final_state ["relax"; "-i"; "a.cif"; "b.cif"; "-o"; "out.cif"]
  = ["to out.cif"; "to out.cif"] ∧
  output_actions (sample.trace ["relax"; "-i"; "a.cif"; "b.cif"; "-o"; "out.cif"])
  = [WriteFile (PyObject := string) "Structure a.cif'" (VStr "out.cif");
     WriteFile (PyObject := string) "Structure b.cif'" (VStr "out.cif")].
Proof. split_and!; vm_compute; reflexivity. Qed.

(** C10.  Two runs of a handler on namespaces that differ at most in
    [verbose], from the same state of the collaborators: they end with
    the same result and leave the same state; apart from what is printed
    they make the same calls in the same order, with the same arguments
    and results (the same structures written to the same files; the same
    drivers built and run); and when the first run is not verbose, its
    events all occur, in order, among those of the second one, which
    only adds printed text. *)
Theorem verbose_only_prints `{Externals} (f : handler) args v1 v2 w :
  ∃ r w' t1 t2,
    call (VFunc f) (<["verbose" := v1]> args) w = (r, w', t1) ∧
    call (VFunc f) (<["verbose" := v2]> args) w = (r, w', t2) ∧
    without_prints t1 = without_prints t2 ∧
    written_files t1 = written_files t2 ∧
    md_calls t1 = md_calls t2 ∧
    (if truthy v1 then True else sublist t1 t2).
Proof.
  assert (same_but_prints (negb (truthy v1))
            (call (VFunc f) (<["verbose" := v1]> args))
            (call (VFunc f) (<["verbose" := v2]> args))) as Hsame.
  { destruct f; simpl.
    - apply same_but_prints_relax_structure.
    - apply same_but_prints_run_md. }
  destruct (Hsame w) as (r & w' & t1 & t2 & H1 & H2 & Hwo & Hsub).
  exists r, w', t1, t2. split_and!; try done.
  - by rewrite <- (written_files_without_prints t1), Hwo, written_files_without_prints.
  - rewrite <- (md_calls_without_prints t1), Hwo. apply md_calls_without_prints.
  - destruct (truthy v1); [done|]. by apply Hsub.
Qed.

(** * Further properties of the dispatcher *)

(** ** Auxiliary facts *)

Section more_parsing.
Context `{Externals}.

(** A string that does not start with [-] is an argument for every
    parser, and is not ["--"]. *)
Lemma plain_argument p s :
  String.prefix "-" s = false →
  parse_optional p s = inr Positional ∧ String.eqb s "--" = false.
Proof.
  destruct s as [|c tl]; [done|].
  rewrite string_prefix_cons.
  destruct (Ascii.eqb_spec "-" c) as [<-|Hc]; [by destruct tl|]. intros _.
  split.
  - unfold parse_optional.
    destruct (Ascii.eqb_spec c "-") as [->|]; done.
  - rewrite string_eqb_cons.
    destruct (Ascii.eqb_spec c "-") as [->|]; done.
Qed.

Lemma assoc_subparsers_None name :
  name ≠ "relax" → name ≠ "md" → assoc name subparsers = None.
Proof.
  intros Hr Hm. unfold subparsers. cbn [assoc].
  destruct (String.eqb_spec "relax" name); [done|].
  by destruct (String.eqb_spec "md" name).
Qed.

Lemma relax_line_func argv args :
  parse_args parser subparsers ("relax" :: argv) = Parsed args →
  args !! "func" = Some (VFunc Frelax_structure).
Proof.
  intros Hparse.
  destruct (accepted _ _ Hparse)
    as [[? _]|(name & sp & rest & f & fns & Heq & Hsp & _ & Hf & Hrelax & _)]; [done|].
  simplify_eq.
  destruct (assoc_subparsers _ _ Hsp) as [[_ ->]|[? _]]; [|done].
  assert (f = Frelax_structure) as -> by by apply Hrelax. done.
Qed.

End more_parsing.

Section more_handlers.
Context `{Externals}.
Local Open Scope py_scope.

Ltac run_handler_body :=
  unfold relax_structure_body, run_md_body, bind, external, getattr, getitem,
    splitext, print, emit, ret, raise;
  intros; repeat (case_match; simplify_eq/=; try done).

Lemma followed_by_nil Q : followed_by Q [].
Proof. intros [|??] ??; discriminate. Qed.

Lemma followed_by_cons Q ev t :
  Q ev t → followed_by Q t → followed_by Q (ev :: t).
Proof.
  intros Hev Ht [|x tr1] ev' tr2 Heq; simplify_eq/=; [done|].
  by eapply Ht.
Qed.

Lemma followed_by_cons_inv Q ev t :
  followed_by Q (ev :: t) → Q ev t ∧ followed_by Q t.
Proof.
  intros Ht. split.
  - by apply (Ht []).
  - intros tr1 ev' tr2 ->. by apply (Ht (ev :: tr1)).
Qed.

Lemma followed_by_app Q t1 t2 :
  (∀ ev l l', Q ev l → Q ev (l ++ l')) →
  followed_by Q t1 → followed_by Q t2 → followed_by Q (t1 ++ t2).
Proof.
  intros Hmono H1 H2. induction t1 as [|ev t1 IH]; [done|].
  apply followed_by_cons_inv in H1 as [Hev H1].
  apply followed_by_cons; [by apply Hmono | by apply IH].
Qed.

Lemma for_each_followed_by {A} (body : A → M unit) Q l w r w' tr :
  (∀ ev l l', Q ev l → Q ev (l ++ l')) →
  (∀ x w r w' t, body x w = (r, w', t) → followed_by Q t) →
  for_each l body w = (r, w', tr) → followed_by Q tr.
Proof.
  intros Hmono Hbody. revert w tr; induction l as [|x l IH]; intros w tr; simpl.
  - intros [= <- <- <-]. apply followed_by_nil.
  - intros [(u & w1 & t1 & t2 & Hx & Hl & ->)|(e & Hx & ->)]%bind_ok.
    + apply followed_by_app; [done|by eapply Hbody|by eapply IH].
    + by eapply Hbody.
Qed.

Lemma write_reported_mono ev l l' : write_reported ev l → write_reported ev (l ++ l').
Proof.
  destruct ev as [| | | | | |? ? [|]| |]; simpl; try done.
  intros [rest' ->]. by eexists.
Qed.

Lemma relax_structure_body_reports args fn w r w' t :
  relax_structure_body args fn w = (r, w', t) → followed_by write_reported t.
Proof.
  run_handler_body.
  all: repeat first [apply followed_by_nil | apply followed_by_cons]; simpl; try done.
  all: unfold report; rewrite ?py_format_str; by eexists.
Qed.

(** The trace of a handler is that of its loop over the input files, if
    it gets that far. *)
Lemma handler_loop (body : Namespace → value → M unit) args w r w' tr :
  (let* infile := getattr args "infile" in
   let* fns := iter infile in
   for_each fns (body args) >> ret (VInt 0)) w = (r, w', tr) →
  tr = [] ∨
  ∃ l r', for_each l (body args) w = (r', w', tr) ∧
          r = match r' with Ok _ => Ok (VInt 0) | Raise e => Raise e end.
Proof.
  unfold getattr. destruct (args !! "infile") as [infile|].
  - rewrite (bind_run _ _ w infile w []) by done.
    destruct infile as [|b|n|x|s|l|f]; simpl;
      try (intros [= <- <- <-]; by left).
    + unfold bind, ret.
      destruct (for_each _ _ w) as [[[[]|e] w1] t1] eqn:Hloop; simpl;
        intros [= <- <- <-]; right; eexists _, _; rewrite ?app_nil_r;
        (split; [exact Hloop|done]).
    + unfold bind, ret.
      destruct (for_each _ _ w) as [[[[]|e] w1] t1] eqn:Hloop; simpl;
        intros [= <- <- <-]; right; eexists _, _; rewrite ?app_nil_r;
        (split; [exact Hloop|done]).
  - rewrite (bind_raise _ _ w _ w []) by done. intros [= <- <- <-]. by left.
Qed.

Lemma relax_structure_reports args w r w' tr :
  relax_structure args w = (r, w', tr) → followed_by write_reported tr.
Proof.
  intros [->|(l & r' & Hloop & _)]%handler_loop; [apply followed_by_nil|].
  eapply for_each_followed_by; [apply write_reported_mono| |exact Hloop].
  intros x w0 r0 w0' t. apply relax_structure_body_reports.
Qed.

Lemma handler_Forall (body : Namespace → value → M unit) P args w r w' tr :
  (∀ x w r w' t, body args x w = (r, w', t) → Forall P t) →
  (let* infile := getattr args "infile" in
   let* fns := iter infile in
   for_each fns (body args) >> ret (VInt 0)) w = (r, w', tr) →
  Forall P tr.
Proof.
  intros Hbody [->|(l & r' & Hloop & _)]%handler_loop; [done|].
  by eapply for_each_Forall.
Qed.

Lemma relax_structure_body_lane args fn w r w' t :
  relax_structure_body args fn w = (r, w', t) →
  Forall (λ ev, is_md_call ev = false) t.
Proof.
  run_handler_body.
  all: repeat apply Forall_cons_2; try apply Forall_nil_2; done.
Qed.

Lemma run_md_body_lane args fn w r w' t :
  run_md_body args fn w = (r, w', t) →
  Forall (λ ev, is_relax_call ev = false ∧
                match ev with EvTo _ _ _ => False | _ => True end) t.
Proof.
  run_handler_body.
  all: repeat apply Forall_cons_2; try apply Forall_nil_2; done.
Qed.

Lemma run_md_body_quiet args fn w r w' t :
  (∀ verbose, args !! "verbose" = Some verbose → truthy verbose = false) →
  run_md_body args fn w = (r, w', t) →
  Forall (λ ev, is_print ev = false) t.
Proof.
  intros Hq. unfold run_md_body, getattr at 1.
  destruct (args !! "verbose") as [verbose|] eqn:Hv.
  - pose proof (Hq verbose eq_refl) as Hquiet. clear Hq. run_handler_body.
    all: try congruence.
    all: repeat apply Forall_cons_2; try apply Forall_nil_2; done.
  - clear Hq. run_handler_body.
  all: repeat apply Forall_cons_2; try apply Forall_nil_2; done.
Qed.

Lemma filter_nil_Forall {A} (P : A → Prop) `{∀ x, Decision (P x)} (l : list A) :
  Forall (λ x, ¬ P x) l → filter P l = [].
Proof.
  induction 1 as [|x l Hx _ IH]; [done|]. by rewrite filter_cons_False.
Qed.

(** A missing ["final_structure"] ends the iteration there. *)
Lemma relax_structure_body_missing args fn w r w' t t1 ev t2 e :
  relax_structure_body args fn w = (r, w', t) →
  t = t1 ++ ev :: t2 →
  missing_final_structure ev = Some e →
  t2 = [] ∧ r = Raise e.
Proof.
  run_handler_body.
  all: repeat (match goal with
               | Heq : _ = ?t1 ++ _ :: _ |- _ =>
                   is_var t1; destruct t1; simplify_eq/=
               end).
  all: repeat case_match; by simplify_eq.
Qed.

Lemma for_each_missing args l w r w' tr tr1 ev tr2 e :
  for_each l (relax_structure_body args) w = (r, w', tr) →
  tr = tr1 ++ ev :: tr2 →
  missing_final_structure ev = Some e →
  tr2 = [] ∧ r = Raise e.
Proof.
  revert w tr tr1. induction l as [|x l IH]; intros w tr tr1; simpl.
  - intros [= <- <- <-] Htr. by destruct tr1.
  - intros [(u & w1 & t1 & t2 & Hx & Hl & ->)|(e' & Hx & ->)]%bind_ok Htr Hev.
    + apply app_eq_inv in Htr as [(k & -> & Hk)|(k & -> & ->)].
      * destruct k as [|ev0 k]; simplify_eq/=.
        { by eapply (IH _ _ []). }
        destruct (relax_structure_body_missing _ _ _ _ _ _ _ _ _ _ Hx eq_refl Hev)
          as [_ ?]; discriminate.
      * by eapply IH.
    + by eapply relax_structure_body_missing.
Qed.

Lemma relax_block_flow args fn b :
  relax_block args fn b →
  ∃ s relaxer relax_results final,
    relax_results !! "final_structure" = Some final ∧
    loaded b = [(VStr fn, s)] ∧
    relax_calls b = [EvRelaxer (Ok relaxer); EvRelax relaxer s (Ok relax_results)] ∧
    output_actions b = [output_for args fn final] ∧
    ends_with_heading b = false.
Proof.
  intros (s & rx & res & final & Hfinal & ->).
  exists s, rx, res, final. split; [done|].
  unfold status_lines, output_events, output_for.
  by destruct (truthy _), (output_file args fn).
Qed.

Lemma relax_blocks_flow args fns blocks :
  Forall2 (relax_block args) fns blocks →
  ∃ runs : list (PyObject * PyObject * gmap string PyObject * PyObject),
    length runs = length fns ∧
    Forall (λ '(s, relaxer, relax_results, final),
              relax_results !! "final_structure" = Some final) runs ∧
    loaded (concat blocks) = zip (VStr <$> fns) ((λ x, x.1.1.1) <$> runs) ∧
    relax_calls (concat blocks) =
      (runs ≫= λ '(s, relaxer, relax_results, final),
         [EvRelaxer (Ok relaxer); EvRelax relaxer s (Ok relax_results)]) ∧
    output_actions (concat blocks) =
      zip_with (output_for args) fns ((λ x, x.2) <$> runs).
Proof.
  induction 1 as [|fn b fns blocks Hb _ (runs & Hlen & Hfinals & Hload & Hcalls & Hacts)].
  - by exists [].
  - apply relax_block_flow in Hb
      as (s & rx & res & final & Hfinal & Hl & Hc & Ha & Hend).
    exists ((s, rx, res, final) :: runs). simpl. split_and!.
    + by rewrite Hlen.
    + by constructor.
    + unfold loaded in *. by rewrite omap_app, Hl, Hload.
    + unfold relax_calls in *. by rewrite filter_app, Hc, Hcalls.
    + by rewrite (output_actions_app _ _ Hend), Ha, Hacts.
Qed.

End more_handlers.

Section more_strings.

Lemma contains_drop c n s : Str.contains c s = false → Str.contains c (Str.drop n s) = false.
Proof.
  revert s. induction n as [|n IH]; intros [|a s]; simpl; try done.
  destruct (Ascii.eqb a c); [done|]. apply IH.
Qed.

Lemma drop_contains c n s rest :
  Str.drop n s = String c rest → Str.contains c s = true.
Proof.
  revert s. induction n as [|n IH]; intros [|a s]; simpl; try done.
  - intros [= -> ->]. by rewrite Ascii.eqb_refl.
  - intros Hd. destruct (Ascii.eqb a c); [done|]. by apply IH.
Qed.

Lemma drop_add n m s : Str.drop (n + m) s = Str.drop m (Str.drop n s).
Proof.
  revert s. induction n as [|n IH]; intros s; [done|].
  destruct s as [|a s]; simpl; [by destruct m|]. apply IH.
Qed.

(** [rfind] returns the start value when the character does not occur,
    and otherwise the index of an occurrence after which it does not
    occur again. *)
Lemma rfind_from_spec c s i last :
  (Str.rfind_from c s i last = last ∧ Str.contains c s = false)
  ∨ (i ≤ Str.rfind_from c s i last ∧
     ∃ rest, Str.drop (Z.to_nat (Str.rfind_from c s i last - i)) s = String c rest ∧
             Str.contains c rest = false).
Proof.
  revert i last. induction s as [|a s IH]; intros i last; simpl; [by left|].
  destruct (IH (i + 1) (if Ascii.eqb a c then i else last))
    as [[Hr Hc]|(Hle & rest & Hdrop & Hrest)].
  - rewrite Hr. destruct (Ascii.eqb_spec a c) as [->|Hne].
    + right. split; [lia|]. exists s. rewrite Z.sub_diag. by split.
    + by left.
  - right. split; [lia|]. exists rest. split; [|done].
    replace (Z.to_nat (Str.rfind_from c s (i + 1) (if Ascii.eqb a c then i else last) - i))
      with (S (Z.to_nat (Str.rfind_from c s (i + 1)
                           (if Ascii.eqb a c then i else last) - (i + 1)))) by lia.
    exact Hdrop.
Qed.

Lemma skip_leading_dots_Some p i n d r e :
  os_path.skip_leading_dots p i n d = Some (r, e) → e = Str.drop (Z.to_nat d) p.
Proof.
  revert i; induction n as [|n IH]; intros i; simpl; [discriminate|].
  destruct (negb _); [|by apply IH]. by intros [= <- <-].
Qed.

End more_strings.

Section more_scanning.
Context `{Externals}.

(** A ["--"] on the command line of a parser without positional
    arguments ends up among the unrecognized arguments. *)
Lemma consume_double_dash p argv :
  ∀ pat skip st st',
    arg_strings_pattern p argv = inr pat →
    (skip ≤ leading_args (map snd pat))%nat →
    consume p None pat skip st = Parsed st' →
    extras st' = [] →
    "--" ∉ argv.
Proof.
  induction argv as [|s argv IH]; intros pat skip st st'; simpl.
  { intros _ _ _ _ Hin. by apply elem_of_nil in Hin. }
  destruct (String.eqb_spec s "--") as [->|Hdash].
  - intros [= <-] Hskip. simpl in Hskip. assert (skip = 0%nat) as -> by lia.
    simpl. intros Hrun Hex. exfalso.
    eapply (consume_extras None) in Hrun; [done|done| |].
    + apply Forall_forall. intros [? ?] Hin.
      apply list_elem_of_In, in_map_iff in Hin as (? & [= <- <-] & _). done.
    + simpl. by destruct (extras st).
  - destruct (parse_optional p s) as [|o] eqn:Ho; [done|].
    destruct (arg_strings_pattern p argv) as [|pat'] eqn:Hpat; [done|].
    intros [= <-] Hskip Hrun Hex.
    destruct (arg_strings_pattern_spec _ _ _ Hpat) as [_ Hk].
    assert ("--" ∉ argv); [|by intros [?|?]%elem_of_cons].
    simpl in Hrun, Hskip. destruct skip as [|k].
    + destruct o as [|[a|] os e].
      * exfalso. eapply (consume_extras None) in Hrun; [done|done|done|].
        simpl. by destruct (extras st).
      * destruct (consume_optional p a os e pat') as [|[tuples n]] eqn:Hco; [done|].
        destruct (take_actions p tuples st) as [st1|] eqn:Hta; [|done].
        eapply IH; [done| |done..]. by eapply consume_optional_count.
      * exfalso. eapply (consume_extras None) in Hrun; [done|done|done|].
        simpl. by destruct (extras st).
    + destruct o as [|a os e]; simpl in Hskip; [|lia].
      eapply IH; [done| |done..]. lia.
Qed.

Lemma accepted_no_double_dash p argv ns :
  parse_known_args p None argv = Parsed (ns, []) → "--" ∉ argv.
Proof.
  intros (pat & st & Hpat & Hrun & _ & Hex)%parse_known_args_inv.
  symmetry in Hex. apply app_eq_nil in Hex as [Hex _].
  eapply consume_double_dash; [done| |done..]. lia.
Qed.

End more_scanning.

Section more_infile.
Context `{Externals}.

Lemma pattern_plain p fns post pat :
  Forall (λ fn, String.prefix "-" fn = false) fns →
  arg_strings_pattern p (fns ++ post) = inr pat →
  ∃ pat_post,
    pat = map (λ s, (s, pA)) fns ++ pat_post ∧
    arg_strings_pattern p post = inr pat_post.
Proof.
  intros Hplain. revert pat.
  induction Hplain as [|fn fns Hfn _ IH]; intros pat; simpl; [by eexists|].
  destruct (plain_argument p fn Hfn) as [-> ->].
  destruct (arg_strings_pattern p (fns ++ post)) as [|pat'] eqn:Hpat; [done|].
  intros [= <-]. destruct (IH _ eq_refl) as (pat_post & -> & Hpost).
  by exists pat_post.
Qed.

Lemma pattern_head p post pat :
  (∀ s, head post = Some s → parse_optional p s ≠ inr Positional) →
  arg_strings_pattern p post = inr pat →
  leading_args (map snd pat) = 0%nat.
Proof.
  destruct post as [|s post]; simpl; [by intros _ [= <-]|].
  intros Hhead. specialize (Hhead s eq_refl).
  destruct (String.eqb s "--"); [by intros [= <-]|].
  destruct (parse_optional p s) as [|[|a os e]]; [done|done|].
  destruct (arg_strings_pattern p post); [done|]. by intros [= <-].
Qed.

Lemma leading_args_plain (fns : list string) rest :
  leading_args (map snd (map (λ s, (s, pA)) fns ++ rest))
  = (length fns + leading_args (map snd rest))%nat.
Proof. induction fns as [|fn fns IH]; simpl; [done|]. by rewrite IH. Qed.

Lemma consume_skip p positional (l : list string) rest st :
  consume p positional (map (λ s, (s, pA)) l ++ rest) (length l) st
  = consume p positional rest 0 st.
Proof. induction l as [|s l IH]; [done|]. exact IH. Qed.

Lemma remove_dashes_plain fns :
  Forall (λ fn, String.prefix "-" fn = false) fns → remove_dashes fns = fns.
Proof.
  induction 1 as [|fn fns Hfn _ IH]; simpl; [done|].
  destruct (plain_argument parser fn Hfn) as [_ ->]. by rewrite IH.
Qed.

(** The file names that follow the last [-i] are the value of [infile]. *)
Lemma consume_infile p a flag pre fns post :
  parse_optional p flag = inr (Optional (Some a) flag None) →
  String.eqb flag "--" = false →
  dest a = "infile" → nargs a = ONE_OR_MORE → action a = store →
  type a = type_None → mutex_group a = None → default a = Default VNone →
  fns ≠ [] →
  Forall (λ fn, String.prefix "-" fn = false) fns →
  (∀ s, head post = Some s → parse_optional p s ≠ inr Positional) →
  supplied p "infile" post = false →
  ∀ pat skip st st',
    arg_strings_pattern p (pre ++ flag :: fns ++ post) = inr pat →
    (skip ≤ leading_args (map snd pat))%nat →
    consume p None pat skip st = Parsed st' →
    extras st' = [] →
    namespace st' !! "infile" = Some (VList (VStr <$> fns)).
Proof.
  intros Hflag Hfd Hdest Hnargs Hact Htype Hmutex Hdef Hne Hplain Hhead Hsup.
  induction pre as [|s pre IH]; intros pat skip st st'; simpl.
  - rewrite Hfd, Hflag.
    destruct (arg_strings_pattern p (fns ++ post)) as [|pat'] eqn:Hpat; [done|].
    intros [= <-] Hskip. simpl in Hskip. assert (skip = 0%nat) as -> by lia.
    destruct (pattern_plain _ _ _ _ Hplain Hpat) as (pat_post & -> & Hpost).
    destruct (arg_strings_pattern_spec _ _ _ Hpost) as [Hfst Hk].
    cbn [consume]. unfold consume_optional, match_argument.
    rewrite Hnargs, leading_args_plain, (pattern_head _ _ _ Hhead Hpost), Nat.add_0_r.
    destruct (length fns) as [|n] eqn:Hlen; [by destruct fns|]. rewrite <- Hlen.
    assert (take (length fns) (map fst (map (λ s, (s, pA)) fns ++ pat_post)) = fns)
      as ->.
    { rewrite map_app, map_map. simpl. rewrite map_id. by rewrite take_app_length. }
    cbn [app take_actions]. unfold take_action, get_values.
    rewrite (remove_dashes_plain _ Hplain), Hnargs.
    rewrite (get_value_list_str a fns) by (by left).
    rewrite Hdef. cbn [is_not_default is_not_None].
    unfold action_conflicts. rewrite Hmutex. cbn [filter list_filter].
    unfold call_action. rewrite Hact, Hdest.
    rewrite consume_skip. intros Hrun Hex.
    destruct (consume_frame p pat_post 0 _ st' "infile" Hk Hrun) as [-> _].
    + rewrite Hfst. by apply supplied_false.
    + cbn. by rewrite lookup_insert_eq.
  - destruct (String.eqb_spec s "--") as [->|Hdash].
    + intros [= <-] Hskip. simpl in Hskip. assert (skip = 0%nat) as -> by lia.
      simpl. intros Hrun Hex. exfalso.
      eapply (consume_extras None) in Hrun; [done|done| |].
      * apply Forall_forall. intros [? ?] Hin.
        apply list_elem_of_In, in_map_iff in Hin as (? & [= <- <-] & _). done.
      * simpl. by destruct (extras st).
    + destruct (parse_optional p s) as [|o] eqn:Ho; [done|].
      destruct (arg_strings_pattern p (pre ++ flag :: fns ++ post)) as [|pat'] eqn:Hpat;
        [done|].
      intros [= <-] Hskip Hrun Hex.
      destruct (arg_strings_pattern_spec _ _ _ Hpat) as [_ Hk].
      simpl in Hrun, Hskip. destruct skip as [|k].
      * destruct o as [|[a0|] os e].
        -- exfalso. eapply (consume_extras None) in Hrun; [done|done|done|].
           simpl. by destruct (extras st).
        -- destruct (consume_optional p a0 os e pat') as [|[tuples n]] eqn:Hco; [done|].
           destruct (take_actions p tuples st) as [st1|] eqn:Hta; [|done].
           eapply IH; [done| |done..]. by eapply consume_optional_count.
        -- exfalso. eapply (consume_extras None) in Hrun; [done|done|done|].
           simpl. by destruct (extras st).
      * destruct o as [|a0 os e]; simpl in Hskip; [|lia].
        eapply IH; [done| |done..]. lia.
Qed.

End more_infile.

Section more_values.
Context `{Externals}.

(** The argument that follows the last occurrence of an option that
    takes one argument is the value of the option, converted. *)
Lemma consume_option p a flag pre arg post :
  parse_optional p flag = inr (Optional (Some a) flag None) →
  String.eqb flag "--" = false →
  nargs a = nargs_None → action a = store →
  String.prefix "-" arg = false →
  supplied p (dest a) post = false →
  ∀ pat skip st st',
    arg_strings_pattern p (pre ++ flag :: arg :: post) = inr pat →
    (skip ≤ leading_args (map snd pat))%nat →
    consume p None pat skip st = Parsed st' →
    extras st' = [] →
    ∃ v, get_value a arg = inr v ∧ namespace st' !! dest a = Some v.
Proof.
  intros Hflag Hfd Hnargs Hact Hplain Hsup.
  destruct (plain_argument p arg Hplain) as [Hpos Hnd].
  induction pre as [|s pre IH]; intros pat skip st st'; simpl.
  - rewrite Hfd, Hflag, Hnd, Hpos.
    destruct (arg_strings_pattern p post) as [|pat_post] eqn:Hpost; [done|].
    intros [= <-] Hskip. simpl in Hskip. assert (skip = 0%nat) as -> by lia.
    destruct (arg_strings_pattern_spec _ _ _ Hpost) as [Hfst Hk].
    cbn [consume]. unfold consume_optional, match_argument.
    rewrite Hnargs. cbn [map snd app take fst take_actions].
    rewrite take_0.
    destruct (take_action p a [arg] st) as [st1|] eqn:Hta; [|done].
    apply take_action_inv in Hta as (v & Hv & _ & _ & _ & _ & _ & Hns & _).
    unfold get_values in Hv. cbn [remove_dashes] in Hv.
    rewrite Hnd, Hnargs in Hv. rewrite Hact in Hns.
    intros Hrun Hex.
    destruct (consume_frame p pat_post 0 _ st' (dest a) Hk Hrun) as [Hsame _].
    + rewrite Hfst. by apply supplied_false.
    + exists v. split; [done|]. by rewrite Hsame, Hns, lookup_insert_eq.
  - destruct (String.eqb_spec s "--") as [->|Hdash].
    + intros [= <-] Hskip. simpl in Hskip. assert (skip = 0%nat) as -> by lia.
      simpl. intros Hrun Hex. exfalso.
      eapply (consume_extras None) in Hrun; [done|done| |].
      * apply Forall_forall. intros [? ?] Hin.
        apply list_elem_of_In, in_map_iff in Hin as (? & [= <- <-] & _). done.
      * simpl. by destruct (extras st).
    + destruct (parse_optional p s) as [|o] eqn:Ho; [done|].
      destruct (arg_strings_pattern p (pre ++ flag :: arg :: post)) as [|pat'] eqn:Hpat;
        [done|].
      intros [= <-] Hskip Hrun Hex.
      destruct (arg_strings_pattern_spec _ _ _ Hpat) as [_ Hk].
      simpl in Hrun, Hskip. destruct skip as [|k].
      * destruct o as [|[a0|] os e].
        -- exfalso. eapply (consume_extras None) in Hrun; [done|done|done|].
           simpl. by destruct (extras st).
        -- destruct (consume_optional p a0 os e pat') as [|[tuples n]] eqn:Hco; [done|].
           destruct (take_actions p tuples st) as [st1|] eqn:Hta; [|done].
           eapply IH; [done| |done..]. by eapply consume_optional_count.
        -- exfalso. eapply (consume_extras None) in Hrun; [done|done|done|].
           simpl. by destruct (extras st).
      * destruct o as [|a0 os e]; simpl in Hskip; [|lia].
        eapply IH; [done| |done..]. lia.
Qed.

(** The option strings of the arguments of the two sub-parsers are
    parsed as themselves. *)
Lemma parse_optional_option name sp a flag :
  assoc name subparsers = Some sp →
  a ∈ actions sp → flag ∈ option_strings a →
  parse_optional sp flag = inr (Optional (Some a) flag None) ∧
  String.eqb flag "--" = false.
Proof.
  intros [[-> ->]|[-> ->]]%assoc_subparsers Ha Hflag.
  - unfold p_relax in Ha. cbn [actions] in Ha.
    decompose_list_elem_of; subst a; cbn [option_strings help_action] in Hflag;
      decompose_list_elem_of; subst flag; by split.
  - unfold p_md in Ha. cbn [actions] in Ha.
    decompose_list_elem_of; subst a; cbn [option_strings help_action] in Hflag;
      decompose_list_elem_of; subst flag; by split.
Qed.

End more_values.

(** ** The properties *)

(** X1.  The first argument of an accepted, non-empty command line is
    the name of a subcommand, and it selects the handler: [main] on a
    [relax] line is [relax_structure] on the parsed namespace, and on an
    [md] line it is [run_md]. *)
Theorem subcommand_selects_handler `{Externals} name rest args w :
  parse_args parser subparsers (name :: rest) = Parsed args →
  (name = "relax" ∧ args !! "func" = Some (VFunc Frelax_structure) ∧
   main (name :: rest) w = relax_structure args w)
  ∨ (name = "md" ∧ args !! "func" = Some (VFunc Frun_md) ∧
     main (name :: rest) w = run_md args w).
Proof.
  intros Hparse.
  destruct (accepted _ _ Hparse)
    as [[? _]|(name' & sp & rest' & f & fns & Heq & Hsp & _ & Hf & Hrelax & Hmd & _)];
    [done|].
  simplify_eq.
  rewrite (main_parsed _ _ _ _ Hparse Hf).
  destruct (assoc_subparsers _ _ Hsp) as [[-> ->]|[-> ->]].
  - left. assert (f = Frelax_structure) as -> by by apply Hrelax. done.
  - right. assert (f = Frun_md) as -> by by apply Hmd. done.
Qed.

Lemma subcommand_selects_handler_witness :
  main (H := sample.env) sample.md_line [] =
  run_md (H := sample.env) (sample.parsed sample.md_line) [].
Proof.
  destruct (subcommand_selects_handler (H := sample.env) "md" sample.md_options
              (sample.parsed sample.md_line) [])
    as [(Hname & _)|(_ & _ & Hmain)].
  - vm_compute; reflexivity.
  - discriminate Hname.
  - exact Hmain.
Defined.

(** X2.  A command line whose first argument does not start with [-] and
    is neither [relax] nor [md] is rejected by the top-level parser as an
    invalid choice, with status 2, whatever follows; no handler runs. *)
Theorem unknown_subcommand_rejected `{Externals} name rest w :
  String.prefix "-" name = false →
  name ≠ "relax" →
  name ≠ "md" →
  main (name :: rest) w
  = (Raise (SystemExit 2), w, [EvError "m3g" (invalid_choice name)]).
Proof.
  intros Hdash Hr Hm.
  apply (main_exits _ (exit_error "m3g" (invalid_choice name))).
  destruct (plain_argument parser _ Hdash) as [Hpos Hdd].
  unfold parse_args, parse_known_args. cbn [arg_strings_pattern].
  rewrite Hdd, Hpos.
  destruct (top_pattern rest) as [pat ->].
  cbn [consume]. unfold subparsers_action.
  by rewrite (assoc_subparsers_None _ Hr Hm).
Qed.

Lemma unknown_subcommand_rejected_witness :
  sample.outcome ["relaxx"; "-h"] = Raise (SystemExit 2) ∧
  sample.trace ["relaxx"; "-h"] = [EvError "m3g" (invalid_choice "relaxx")].
Proof.
  pose proof (unknown_subcommand_rejected (H := sample.env) "relaxx" ["-h"] []
                eq_refl) as Hthm.
  rewrite sample_run in Hthm.
  assert ("relaxx" ≠ "relax") as H1 by discriminate.
  assert ("relaxx" ≠ "md") as H2 by discriminate.
  specialize (Hthm H1 H2).
  split; congruence.
Defined.

(** X3.  [-h] or [--help] as the first argument prints the help of the
    top-level parser and exits with status 0, whatever follows: no
    subcommand is looked at and no handler runs. *)
Theorem top_level_help `{Externals} flag rest w :
  flag = "-h" ∨ flag = "--help" →
  main (flag :: rest) w = (Raise (SystemExit 0), w, [EvPrintHelp "m3g"]).
Proof.
  intros Hflag.
  apply (main_exits _ (exit_help "m3g")).
  unfold parse_args, parse_known_args. cbn [arg_strings_pattern].
  destruct (top_pattern rest) as [pat Hpat].
  by destruct Hflag as [-> | ->]; cbn; rewrite Hpat.
Qed.

Lemma top_level_help_witness :
  sample.outcome ["--help"; "relax"; "-i"; "a.cif"] = Raise (SystemExit 0) ∧
  sample.trace ["--help"; "relax"; "-i"; "a.cif"] = [EvPrintHelp "m3g"].
Proof.
  pose proof (top_level_help (H := sample.env) "--help" ["relax"; "-i"; "a.cif"] []
                (or_intror eq_refl)) as Hthm.
  rewrite sample_run in Hthm. split; congruence.
Defined.

(** X4.  On an accepted command line of either subcommand, [verbose] is
    [True] when the command line names [-v]/[--verbose] and [False]
    otherwise. *)
Theorem verbose_flag `{Externals} name sp argv args :
  assoc name subparsers = Some sp →
  parse_args parser subparsers (name :: argv) = Parsed args →
  args !! "verbose" = Some (VBool (supplied sp "verbose" argv)).
Proof.
  intros Hsp Hparse.
  destruct (subparser_cases _ _ Hsp) as (_ & _ & Hstr & _).
  rewrite (parse_args_sub name sp argv Hsp) in Hparse.
  destruct (parse_known_args sp None argv) as [[ns [|??]]|?] eqn:Hk; simplify_eq.
  destruct (supplied sp "verbose" argv) eqn:Hv.
  - destruct (accepted_value _ _ _ _ Hstr Hk Hv) as (a & ss & v & Ha & Hd & _ & ->).
    destruct (assoc_subparsers _ _ Hsp) as [[-> ->]|[-> ->]].
    + unfold p_relax in Ha. cbn [actions] in Ha.
      decompose_list_elem_of; subst a; simplify_eq/=; done.
    + unfold p_md in Ha. cbn [actions] in Ha.
      decompose_list_elem_of; subst a; simplify_eq/=; done.
  - rewrite (accepted_default _ _ _ _ _ Hstr Hk Hv).
    by destruct (assoc_subparsers _ _ Hsp) as [[-> ->]|[-> ->]].
Qed.

Lemma verbose_flag_witness :
  sample.parsed ["relax"; "-vi"; "a.cif"] !! "verbose" = Some (VBool true) ∧
  sample.parsed ["relax"; "-i"; "a.cif"] !! "verbose" = Some (VBool false).
Proof.
  split.
  - refine (eq_trans (verbose_flag (H := sample.env) "relax" p_relax ["-vi"; "a.cif"]
                        (sample.parsed ["relax"; "-vi"; "a.cif"]) eq_refl _) _);
      vm_compute; reflexivity.
  - refine (eq_trans (verbose_flag (H := sample.env) "relax" p_relax ["-i"; "a.cif"]
                        (sample.parsed ["relax"; "-i"; "a.cif"]) eq_refl _) _);
      vm_compute; reflexivity.
Defined.

(** X5.  [relax] on an accepted command line that names neither the
    suffix nor the output file writes no file, whatever the outcome.
    When the handler returns, each input file has been loaded, in order,
    and relaxed, and what has been printed under the heading
    ["Final structure"] is, for each input file in order, the
    ["final_structure"] of the results of relaxing the structure loaded
    from that file. *)
Theorem relax_prints_by_default `{Externals} argv args w r w' tr :
  parse_args parser subparsers ("relax" :: argv) = Parsed args →
  supplied p_relax "suffix" argv = false →
  supplied p_relax "outfile" argv = false →
  main ("relax" :: argv) w = (r, w', tr) →
  written_files tr = [] ∧
  ∃ fns,
    args !! "infile" = Some (VList (VStr <$> fns)) ∧
    (∀ v, r = Ok v →
       ∃ runs : list (PyObject * PyObject * gmap string PyObject * PyObject),
         length runs = length fns ∧
         Forall (λ '(s, relaxer, relax_results, final),
                   relax_results !! "final_structure" = Some final) runs ∧
         loaded tr = zip (VStr <$> fns) ((λ x, x.1.1.1) <$> runs) ∧
         relax_calls tr =
           (runs ≫= λ '(s, relaxer, relax_results, final),
              [EvRelaxer (Ok relaxer); EvRelax relaxer s (Ok relax_results)]) ∧
         output_actions tr = ConsolePrint <$> ((λ x, x.2) <$> runs)).
Proof.
  intros Hparse Hs Ho Hmain.
  pose proof (relax_line_func _ _ Hparse) as Hfunc.
  destruct (accepted_relax _ _ Hparse Hfunc) as (rest & fns & Heq & Hsub & Hfns).
  simplify_eq.
  rewrite (main_parsed _ _ _ _ Hparse Hfunc) in Hmain. simpl in Hmain.
  pose proof (accepted_default _ _ _ _ _ str_defaults_relax Hsub Hs) as Hsfx.
  pose proof (accepted_default _ _ _ _ _ str_defaults_relax Hsub Ho) as Hout.
  change (initial_namespace p_relax !! "suffix") with (Some VNone) in Hsfx.
  change (initial_namespace p_relax !! "outfile") with (Some VNone) in Hout.
  assert (∀ fn, output_file args fn = None) as Hfile.
  { intros fn. unfold output_file. by rewrite Hsfx, Hout. }
  split.
  - pose proof (relax_structure_writes _ _ _ _ _ _ Hfns Hmain) as Hpre.
    assert ((fns ≫= λ fn, option_list (output_file args fn)) = []) as Hnil.
    { clear -Hfile. induction fns as [|fn fns IH]; [done|].
      by rewrite bind_cons, IH, Hfile. }
    rewrite Hnil in Hpre. by apply prefix_nil_inv in Hpre.
  - exists fns. split; [done|]. intros v ->.
    destruct (relax_structure_ok _ _ _ _ _ _ Hfns Hmain) as (_ & blocks & -> & Hblocks).
    destruct (relax_blocks_flow _ _ _ Hblocks)
      as (runs & Hlen & Hfinals & Hload & Hcalls & Hacts).
    exists runs. split_and!; try done.
    rewrite Hacts. clear -Hfile Hlen.
    revert runs Hlen. induction fns as [|fn fns IH]; intros [|run runs] Hlen;
      simplify_eq/=; [done|].
    f_equal; [|by apply IH].
    unfold output_for. by rewrite Hfile.
Qed.

Lemma relax_prints_by_default_witness :
  sample.outcome ["relax"; "-i"; "a.cif"; "b.cif"; "-v"] = Ok (VInt 0) ∧
  written_files (sample.trace ["relax"; "-i"; "a.cif"; "b.cif"; "-v"]) = [] ∧
  ∃ runs : list (string * string * gmap string string * string),
    length runs = 2%nat ∧
    loaded (sample.trace ["relax"; "-i"; "a.cif"; "b.cif"; "-v"])
    = zip [VStr "a.cif"; VStr "b.cif"] ((λ x, x.1.1.1) <$> runs) ∧
    Forall (λ '(s, relaxer, relax_results, final),
              relax_results !! "final_structure" = Some final) runs ∧
    output_actions (sample.trace ["relax"; "-i"; "a.cif"; "b.cif"; "-v"])
    = ConsolePrint <$> ((λ x, x.2) <$> runs).
Proof.
  assert (sample.outcome ["relax"; "-i"; "a.cif"; "b.cif"; "-v"] = Ok (VInt 0)) as Hok
    by (vm_compute; reflexivity).
  assert (sample.parsed ["relax"; "-i"; "a.cif"; "b.cif"; "-v"] !! "infile"
          = Some (VList (VStr <$> ["a.cif"; "b.cif"]))) as Hin
    by (vm_compute; reflexivity).
  split; [exact Hok|].
  destruct (relax_prints_by_default (H := sample.env) ["-i"; "a.cif"; "b.cif"; "-v"]
              (sample.parsed ["relax"; "-i"; "a.cif"; "b.cif"; "-v"]) []
              (sample.outcome ["relax"; "-i"; "a.cif"; "b.cif"; "-v"])
              (sample.final_state ["relax"; "-i"; "a.cif"; "b.cif"; "-v"])
              (sample.trace ["relax"; "-i"; "a.cif"; "b.cif"; "-v"]))
    as (Hnone & fns & Hfns & Hall).
  - vm_compute; reflexivity.
  - vm_compute; reflexivity.
  - vm_compute; reflexivity.
  - apply sample_run.
  - split; [exact Hnone|].
    destruct (Hall (VInt 0) Hok) as (runs & Hlen & Hfinals & Hload & _ & Hacts).
    rewrite Hin in Hfns. injection Hfns as Hfns.
    apply (f_equal length) in Hfns as Hlen'. rewrite !length_fmap in Hlen'.
    rewrite <- Hfns in Hload.
    exists runs. split; [exact (eq_trans Hlen (eq_sym Hlen'))|].
    split; [exact Hload|].
    split; [exact Hfinals|exact Hacts].
Defined.

(** X6.  In any run of [relax_structure], every write that succeeded is
    followed at once by the line ["Structure written to <name>!"], where
    [<name>] is the file name that was written to. *)
Theorem writes_are_reported `{Externals} args w r w' tr tr1 s filename tr2 :
  relax_structure args w = (r, w', tr) →
  tr = tr1 ++ EvTo s filename (Ok tt) :: tr2 →
  ∃ tr2',
    tr2 = EvPrint (Text ("Structure written to " +:+ py_format filename +:+ "!")) :: tr2'.
Proof.
  intros Hrun Htr.
  apply (relax_structure_reports _ _ _ _ _ Hrun tr1 (EvTo s filename (Ok tt)) tr2 Htr).
Qed.

Lemma writes_are_reported_witness :
  ∃ tr2',
    drop 4 (sample.trace ["relax"; "-i"; "a.cif"; "b.cif"; "-o"; "out.cif"])
    = EvPrint (Text ("Structure written to " +:+ @py_format sample.env (VStr "out.cif") +:+ "!"))
      :: tr2'.
Proof.
  apply (writes_are_reported (H := sample.env)
           (sample.parsed ["relax"; "-i"; "a.cif"; "b.cif"; "-o"; "out.cif"]) []
           (sample.outcome ["relax"; "-i"; "a.cif"; "b.cif"; "-o"; "out.cif"])
           (sample.final_state ["relax"; "-i"; "a.cif"; "b.cif"; "-o"; "out.cif"])
           (sample.trace ["relax"; "-i"; "a.cif"; "b.cif"; "-o"; "out.cif"])
           (take 3 (sample.trace ["relax"; "-i"; "a.cif"; "b.cif"; "-o"; "out.cif"]))
           "Structure a.cif'" (VStr "out.cif")).
  - vm_compute; reflexivity.
  - vm_compute; reflexivity.
Defined.

(** X7.  In any run of [relax_structure], a relaxation whose results
    lack the key ["final_structure"] is the last thing the handler does:
    nothing is written or printed for that file, no later file is
    processed, and the handler ends with [KeyError("final_structure")]. *)
Theorem missing_final_structure_stops `{Externals}
    args w r w' tr tr1 relaxer s relax_results tr2 :
  relax_structure args w = (r, w', tr) →
  tr = tr1 ++ EvRelax relaxer s (Ok relax_results) :: tr2 →
  relax_results !! "final_structure" = None →
  tr2 = [] ∧ r = Raise (KeyError "final_structure").
Proof.
  intros Hrun Htr Hnone.
  apply handler_loop in Hrun as [->|(l & r' & Hloop & ->)]; [by destruct tr1|].
  assert (missing_final_structure (EvRelax relaxer s (Ok relax_results))
          = Some (KeyError "final_structure")) as Hev by (simpl; by rewrite Hnone).
  by destruct (for_each_missing _ _ _ _ _ _ _ _ _ _ Hloop Htr Hev) as [-> ->].
Qed.

Lemma missing_final_structure_stops_witness :
  (relax_structure (H := bare_env)
     (sample.parsed ["relax"; "-i"; "a.cif"; "b.cif"; "-o"; "out.cif"]) []).1.1
  = Raise (KeyError "final_structure").
Proof.
  refine (proj2 (missing_final_structure_stops (H := bare_env)
            (sample.parsed ["relax"; "-i"; "a.cif"; "b.cif"; "-o"; "out.cif"]) []
            _ (relax_structure (H := bare_env)
                 (sample.parsed ["relax"; "-i"; "a.cif"; "b.cif"; "-o"; "out.cif"]) []).1.2
            (relax_structure (H := bare_env)
                 (sample.parsed ["relax"; "-i"; "a.cif"; "b.cif"; "-o"; "out.cif"]) []).2
            [EvFromFile (VStr "a.cif") (Ok "Structure a.cif"); EvRelaxer (Ok "Relaxer")]
            "Relaxer" "Structure a.cif" ∅ [] _ _ _)).
  - by destruct (relax_structure _ _) as [[??]?].
  - vm_compute; reflexivity.
  - reflexivity.
Defined.

(** X8.  [relax] on an accepted command line, when it returns: each
    input file is loaded once, in order; for each loaded structure a new
    relaxer is built and relaxes that structure; and the structure put
    out for a file (printed or written) is the ["final_structure"] of the
    results of relaxing the structure loaded from that very file. *)
Theorem relax_data_flow `{Externals} argv args w v w' tr :
  parse_args parser subparsers argv = Parsed args →
  args !! "func" = Some (VFunc Frelax_structure) →
  main argv w = (Ok v, w', tr) →
  ∃ fns (runs : list (PyObject * PyObject * gmap string PyObject * PyObject)),
    args !! "infile" = Some (VList (VStr <$> fns)) ∧
    length runs = length fns ∧
    Forall (λ '(s, relaxer, relax_results, final),
              relax_results !! "final_structure" = Some final) runs ∧
    loaded tr = zip (VStr <$> fns) ((λ x, x.1.1.1) <$> runs) ∧
    relax_calls tr =
      (runs ≫= λ '(s, relaxer, relax_results, final),
         [EvRelaxer (Ok relaxer); EvRelax relaxer s (Ok relax_results)]) ∧
    output_actions tr = zip_with (output_for args) fns ((λ x, x.2) <$> runs).
Proof.
  intros Hparse Hfunc Hmain.
  destruct (accepted_relax _ _ Hparse Hfunc) as (rest & fns & -> & Hsub & Hfns).
  rewrite (main_parsed _ _ _ _ Hparse Hfunc) in Hmain. simpl in Hmain.
  destruct (relax_structure_ok _ _ _ _ _ _ Hfns Hmain) as (_ & blocks & -> & Hblocks).
  destruct (relax_blocks_flow _ _ _ Hblocks) as (runs & ? & ? & ? & ? & ?).
  by exists fns, runs.
Qed.

Lemma relax_data_flow_witness :
  ∃ fns (runs : list (string * string * gmap string string * string)),
    sample.parsed ["relax"; "-i"; "a.cif"; "b.cif"; "-o"; "out.cif"] !! "infile"
    = Some (VList (VStr <$> fns)) ∧
    length runs = length fns ∧
    output_actions (sample.trace ["relax"; "-i"; "a.cif"; "b.cif"; "-o"; "out.cif"])
    = zip_with (output_for (H := sample.env)
                  (sample.parsed ["relax"; "-i"; "a.cif"; "b.cif"; "-o"; "out.cif"]))
               fns ((λ x, x.2) <$> runs).
Proof.
  destruct (relax_data_flow (H := sample.env)
              ["relax"; "-i"; "a.cif"; "b.cif"; "-o"; "out.cif"]
              (sample.parsed ["relax"; "-i"; "a.cif"; "b.cif"; "-o"; "out.cif"]) []
              (VInt 0)
              (sample.final_state ["relax"; "-i"; "a.cif"; "b.cif"; "-o"; "out.cif"])
              (sample.trace ["relax"; "-i"; "a.cif"; "b.cif"; "-o"; "out.cif"]))
    as (fns & runs & Hfns & Hlen & _ & _ & _ & Hacts).
  - vm_compute; reflexivity.
  - vm_compute; reflexivity.
  - assert (sample.outcome ["relax"; "-i"; "a.cif"; "b.cif"; "-o"; "out.cif"]
            = Ok (VInt 0)) as Hok by (vm_compute; reflexivity).
    rewrite sample_run, Hok. reflexivity.
  - exists fns, runs. split_and!; assumption.
Defined.

(** X9.  A run of [run_md] on a namespace whose [verbose] is false
    prints nothing, whatever its outcome. *)
Theorem md_quiet `{Externals} args verbose w r w' tr :
  args !! "verbose" = Some verbose →
  truthy verbose = false →
  run_md args w = (r, w', tr) →
  Forall (λ ev, is_print ev = false) tr ∧ without_prints tr = tr.
Proof.
  intros Hv Hq Hrun.
  assert (Forall (λ ev, is_print ev = false) tr) as Hall.
  { eapply (handler_Forall run_md_body); [|exact Hrun].
    intros x w0 r0 w0' t. apply run_md_body_quiet.
    intros v' Hv'. congruence. }
  split; [done|].
  unfold without_prints. clear -Hall.
  induction Hall as [|ev t Hev _ IH]; [done|].
  by rewrite filter_cons_True, IH.
Qed.

Lemma md_quiet_witness :
  without_prints (sample.trace sample.md_line) = sample.trace sample.md_line.
Proof.
  refine (proj2 (md_quiet (H := sample.env) (sample.parsed sample.md_line)
                   (VBool false) [] (sample.outcome sample.md_line)
                   (sample.final_state sample.md_line) (sample.trace sample.md_line)
                   _ _ _)).
  - vm_compute; reflexivity.
  - reflexivity.
  - vm_compute; reflexivity.
Defined.

(** X10.  Each handler keeps to its own collaborators, whatever its
    outcome: [relax_structure] never builds or runs a molecular-dynamics
    driver, and [run_md] never builds a relaxer, relaxes a structure or
    writes a structure to a file. *)
Theorem handlers_keep_apart `{Externals} (f : handler) args w r w' tr :
  call (VFunc f) args w = (r, w', tr) →
  match f with
  | Frelax_structure => md_calls tr = []
  | Frun_md => relax_calls tr = [] ∧ written_files tr = []
  end.
Proof.
  destruct f; simpl; intros Hrun.
  - apply filter_nil_Forall.
    eapply Forall_impl;
      [eapply (handler_Forall relax_structure_body); [|exact Hrun]|].
    + intros x w0 r0 w0' t. apply relax_structure_body_lane.
    + intros ev Hev. simpl in Hev. congruence.
  - assert (Forall (λ ev, is_relax_call ev = false ∧
                          match ev with EvTo _ _ _ => False | _ => True end) tr)
      as Hall.
    { eapply (handler_Forall run_md_body); [|exact Hrun].
      intros x w0 r0 w0' t. apply run_md_body_lane. }
    split.
    + apply filter_nil_Forall. eapply Forall_impl; [exact Hall|].
      intros ev [Hev _]. congruence.
    + unfold written_files. clear -Hall.
      induction Hall as [|ev t [_ Hev] _ IH]; [done|].
      destruct ev; simpl; done.
Qed.

Lemma handlers_keep_apart_witness :
  relax_calls (sample.trace sample.md_line) = [] ∧
  written_files (sample.trace sample.md_line) = [].
Proof.
  apply (handlers_keep_apart (H := sample.env) Frun_md (sample.parsed sample.md_line)
           [] (sample.outcome sample.md_line) (sample.final_state sample.md_line)).
  vm_compute; reflexivity.
Defined.

(** X11.  A non-empty suffix takes precedence over an output file: in
    any run of [relax_structure] on a namespace whose suffix is a
    non-empty string, whatever its [outfile], the files written are the
    suffixed names of the first input files, in order. *)
Theorem suffix_takes_precedence `{Externals} args fns sfx w r w' tr :
  args !! "infile" = Some (VList (VStr <$> fns)) →
  args !! "suffix" = Some (VStr sfx) →
  sfx ≠ "" →
  relax_structure args w = (r, w', tr) →
  written_files tr `prefix_of`
    ((λ fn, VStr (fst (os_path.splitext fn) +:+ sfx +:+ snd (os_path.splitext fn)))
       <$> fns).
Proof.
  intros Hfns Hsfx Hne Hrun.
  pose proof (relax_structure_writes _ _ _ _ _ _ Hfns Hrun) as Hpre.
  assert ((fns ≫= λ fn, option_list (output_file args fn)) =
          (λ fn, VStr (fst (os_path.splitext fn) +:+ sfx +:+ snd (os_path.splitext fn)))
            <$> fns) as Hall; [|by rewrite <- Hall].
  clear -Hsfx Hne. induction fns as [|fn fns IH]; [done|].
  rewrite bind_cons, fmap_cons, IH. f_equal.
  unfold output_file. rewrite Hsfx. simpl. rewrite py_format_str.
  by destruct (String.eqb_spec sfx "").
Qed.

Lemma suffix_takes_precedence_witness :
  both_set !! "outfile" = Some (VStr "out.cif") ∧
  written_files (relax_structure (H := sample.env) both_set []).2
  `prefix_of` [VStr "a_relax.cif"; VStr "b.tar_relax.gz"].
Proof.
  split; [vm_compute; reflexivity|].
  refine (suffix_takes_precedence (H := sample.env) both_set ["a.cif"; "b.tar.gz"]
            "_relax" [] (relax_structure (H := sample.env) both_set []).1.1
            (relax_structure (H := sample.env) both_set []).1.2
            (relax_structure (H := sample.env) both_set []).2 _ _ _ _).
  - vm_compute; reflexivity.
  - vm_compute; reflexivity.
  - discriminate.
  - by destruct (relax_structure _ _) as [[??]?].
Defined.

(** X12.  The extension [os.path.splitext] cuts off is empty, or it is a
    dot followed by characters among which there is neither a dot nor a
    slash: the suffix of [relax] goes before the last extension of the
    file name, never into a directory name.  A path without a dot has no
    extension. *)
Theorem splitext_extension (p : string) :
  (snd (os_path.splitext p) = ""
   ∨ ∃ e, snd (os_path.splitext p) = String "." e ∧
          Str.contains "." e = false ∧ Str.contains "/" e = false) ∧
  (if Str.contains "." p then True else os_path.splitext p = (p, "")).
Proof.
  unfold os_path.splitext, Str.rfind.
  destruct (rfind_from_spec "." p 0 (-1)) as [[Hd Hnodot]|(Hd & e & Hdrop & He)].
  - rewrite Hd, Hnodot.
    destruct (rfind_from_spec "/" p 0 (-1)) as [[-> _]|(Hs & _)].
    + simpl. split; [by left|done].
    + destruct (Z.ltb_spec (Str.rfind_from "/" p 0 (-1)) (-1)); [lia|].
      split; [by left|done].
  - split; [|by rewrite (drop_contains _ _ _ _ Hdrop)].
    + destruct (Z.ltb_spec (Str.rfind_from "/" p 0 (-1)) (Str.rfind_from "." p 0 (-1)))
        as [Hlt|]; [|by left].
      destruct (os_path.skip_leading_dots _ _ _ _) as [[r x]|] eqn:Hskip; [|by left].
      apply skip_leading_dots_Some in Hskip. simpl. right.
      rewrite Z.sub_0_r in Hdrop. exists e. rewrite Hskip. split_and!; [done..|].
      destruct (rfind_from_spec "/" p 0 (-1)) as [[_ Hnosep]|(Hs & rest & Hsdrop & Hrest)].
      * pose proof (contains_drop "/" (Z.to_nat (Str.rfind_from "." p 0 (-1))) p Hnosep)
          as Hc.
        rewrite Hdrop in Hc. simpl in Hc. by destruct (Ascii.eqb "." "/").
      * rewrite Z.sub_0_r in Hsdrop.
        assert (Str.drop (Z.to_nat (Str.rfind_from "." p 0 (-1))) p
                = Str.drop (Z.to_nat (Str.rfind_from "." p 0 (-1)
                                      - Str.rfind_from "/" p 0 (-1) - 1)) rest) as Heq.
        { replace (Z.to_nat (Str.rfind_from "." p 0 (-1)))
            with (Z.to_nat (Str.rfind_from "/" p 0 (-1))
                  + S (Z.to_nat (Str.rfind_from "." p 0 (-1)
                                 - Str.rfind_from "/" p 0 (-1) - 1)))%nat by lia.
          by rewrite drop_add, Hsdrop. }
        pose proof (contains_drop "/" (Z.to_nat (Str.rfind_from "." p 0 (-1)
                                      - Str.rfind_from "/" p 0 (-1) - 1)) rest Hrest) as Hc.
        rewrite <- Heq, Hdrop in Hc. simpl in Hc. by destruct (Ascii.eqb "." "/").
Qed.

(** X13.  [main] handles no exception of the collaborators either: in
    any run of [main], a call to a collaborator that raises is the last
    event, and [main] ends by raising that very exception.  (The only
    [try] in [main] guards the lookup of [args.func], not the call of the
    handler.) *)
Theorem main_handles_nothing `{Externals} argv w r w' tr tr1 ev tr2 e :
  main argv w = (r, w', tr) →
  tr = tr1 ++ ev :: tr2 →
  raised ev = Some e →
  tr2 = [] ∧ r = Raise e.
Proof.
  unfold main.
  destruct (parse_args parser subparsers argv) as [args|x].
  - destruct (args !! "func") as [[| | | | | |[|]]|]; simpl.
    all: try (intros [= <- <- <-] Htr; by destruct tr1).
    + apply propagates_relax_structure.
    + apply propagates_run_md.
    + unfold bind, emit, raise. simpl. intros [= <- <- <-] Htr Hev.
      destruct tr1 as [|? [|]]; by simplify_eq/=.
  - unfold bind, emit, raise. simpl. intros [= <- <- <-] Htr Hev.
    destruct tr1 as [|? [|]]; simplify_eq/=. by destruct x.
Qed.

Lemma main_handles_nothing_witness :
  sample.outcome ["md"; "-i"; "missing.cif"; "-t"; "300"; "-e"; "nvt"; "-dt"; "1"; "-n"; "5"]
  = Raise (ExternalError "FileNotFoundError").
Proof.
  refine (proj2 (main_handles_nothing (H := sample.env)
            ["md"; "-i"; "missing.cif"; "-t"; "300"; "-e"; "nvt"; "-dt"; "1"; "-n"; "5"]
            [] _
            (sample.final_state
               ["md"; "-i"; "missing.cif"; "-t"; "300"; "-e"; "nvt"; "-dt"; "1"; "-n"; "5"])
            (sample.trace
               ["md"; "-i"; "missing.cif"; "-t"; "300"; "-e"; "nvt"; "-dt"; "1"; "-n"; "5"])
            []
            (EvFromFile (VStr "missing.cif") (Raise (ExternalError "FileNotFoundError")))
            [] (ExternalError "FileNotFoundError") _ _ _)).
  - apply sample_run.
  - vm_compute; reflexivity.
  - reflexivity.
Defined.

(** X14.  The subcommands take no positional arguments, so a ["--"]
    anywhere on the command line of a subcommand makes the parser exit,
    and no handler runs; unless the command line asks for help, the exit
    is an error, with status 2. *)
Theorem double_dash_rejected `{Externals} name sp argv w :
  assoc name subparsers = Some sp →
  "--" ∈ argv →
  ∃ x,
    main (name :: argv) w = (Raise (SystemExit (exit_status x)), w, [exit_event x]) ∧
    (supplied sp help_dest argv = false →
     exit_status x = 2 ∧ ∃ prog e, x = exit_error prog e).
Proof.
  intros Hsp Hin.
  destruct (subparser_cases _ _ Hsp) as (_ & _ & _ & _ & _ & _ & Hhelp & _).
  pose proof (parse_args_sub name sp argv Hsp) as Hsub.
  destruct (parse_known_args sp None argv) as [[ns ex]|x] eqn:Hk.
  - destruct ex as [|s ex]; [by destruct (accepted_no_double_dash _ _ _ Hk)|].
    eexists. split; [by apply main_exits|].
    intros _. split; [done|by eauto].
  - exists x. split; [by apply main_exits|].
    intros Hnohelp.
    destruct (parse_known_args_exits _ _ _ Hk)
      as [(-> & a & Ha & Hact & Hsup')|(e & ->)]; [|split; [done|by eauto]].
    rewrite (Hhelp a Ha Hact) in Hsup'. congruence.
Qed.

Lemma double_dash_rejected_witness :
  ∃ x,
    main (H := sample.env) ["relax"; "-i"; "a.cif"; "--"; "b.cif"] []
    = (Raise (SystemExit (exit_status x)), [], [exit_event x]) ∧
    exit_status x = 2.
Proof.
  destruct (double_dash_rejected (H := sample.env) "relax" p_relax
              ["-i"; "a.cif"; "--"; "b.cif"] [] eq_refl)
    as (x & Hx & Herr).
  - do 2 apply list_elem_of_further. apply list_elem_of_here.
  - exists x. split; [exact Hx|]. apply Herr. vm_compute; reflexivity.
Defined.

(** X15.  On an accepted command line of either subcommand, the value of
    [infile] is the list of the arguments that follow the last
    [-i]/[--infile], in the order of the command line: here the option is
    followed by one or more strings that do not start with [-], then by
    nothing or by an option, and is not named again after that. *)
Theorem infile_in_order `{Externals} name sp flag pre fns post args :
  assoc name subparsers = Some sp →
  flag = "-i" ∨ flag = "--infile" →
  fns ≠ [] →
  Forall (λ fn, String.prefix "-" fn = false) fns →
  (∀ s, head post = Some s → parse_optional sp s ≠ inr Positional) →
  supplied sp "infile" post = false →
  parse_args parser subparsers (name :: pre ++ flag :: fns ++ post) = Parsed args →
  args !! "infile" = Some (VList (VStr <$> fns)).
Proof.
  intros Hsp Hflag Hne Hplain Hhead Hsup Hparse.
  destruct (subparser_cases _ _ Hsp) as (_ & _ & Hstr & _).
  rewrite (parse_args_sub name sp _ Hsp) in Hparse.
  destruct (parse_known_args sp None _) as [[ns [|??]]|?] eqn:Hk; simplify_eq.
  apply parse_known_args_inv in Hk as (pat & st & Hpat & Hrun & Hcheck & Hex).
  symmetry in Hex. apply app_eq_nil in Hex as [Hex _].
  apply check_actions_spec in Hcheck as [-> _]; [|done].
  assert (∃ a, parse_optional sp flag = inr (Optional (Some a) flag None) ∧
               String.eqb flag "--" = false ∧
               dest a = "infile" ∧ nargs a = ONE_OR_MORE ∧ action a = store ∧
               type a = type_None ∧ mutex_group a = None ∧ default a = Default VNone)
    as (a & Ha & Hfd & ? & ? & ? & ? & ? & ?).
  { destruct (assoc_subparsers _ _ Hsp) as [[-> ->]|[-> ->]];
      destruct Hflag as [-> | ->]; eexists; split_and!; reflexivity. }
  eapply (consume_infile sp a flag pre fns post) with (pat := pat) (skip := 0%nat);
    try done. lia.
Qed.

Lemma infile_in_order_witness :
  sample.parsed ["relax"; "-v"; "-i"; "x.cif"; "-i"; "b.cif"; "a.cif"; "-o"; "out.cif"]
  !! "infile" = Some (VList [VStr "b.cif"; VStr "a.cif"]).
Proof.
  refine (infile_in_order (H := sample.env) "relax" p_relax "-i"
            ["-v"; "-i"; "x.cif"] ["b.cif"; "a.cif"] ["-o"; "out.cif"]
            (sample.parsed
               ["relax"; "-v"; "-i"; "x.cif"; "-i"; "b.cif"; "a.cif"; "-o"; "out.cif"])
            eq_refl (or_introl eq_refl) _ _ _ _ _).
  - discriminate.
  - repeat constructor.
  - intros s [= <-]. vm_compute. discriminate.
  - vm_compute; reflexivity.
  - vm_compute; reflexivity.
Defined.

(** X16.  On an accepted command line of either subcommand, the value
    of an option that takes one argument is the argument that follows
    its last occurrence, converted by the option's [type]: here the
    argument does not start with [-] and the option is not named again
    after it. *)
Theorem option_value `{Externals} name sp a flag pre arg post args :
  assoc name subparsers = Some sp →
  a ∈ actions sp →
  flag ∈ option_strings a →
  nargs a = nargs_None →
  String.prefix "-" arg = false →
  supplied sp (dest a) post = false →
  parse_args parser subparsers (name :: pre ++ flag :: arg :: post) = Parsed args →
  ∃ v, get_value a arg = inr v ∧ args !! dest a = Some v.
Proof.
  intros Hsp Ha Hflag Hnargs Hplain Hsup Hparse.
  destruct (subparser_cases _ _ Hsp) as (_ & _ & Hstr & _).
  destruct (parse_optional_option _ _ _ _ Hsp Ha Hflag) as [Hopt Hfd].
  assert (action a = store) as Hact.
  { destruct (assoc_subparsers _ _ Hsp) as [[-> ->]|[-> ->]].
    - unfold p_relax in Ha. cbn [actions] in Ha.
      decompose_list_elem_of; subst a; done.
    - unfold p_md in Ha. cbn [actions] in Ha.
      decompose_list_elem_of; subst a; done. }
  rewrite (parse_args_sub name sp _ Hsp) in Hparse.
  destruct (parse_known_args sp None _) as [[ns [|??]]|?] eqn:Hk; simplify_eq.
  apply parse_known_args_inv in Hk as (pat & st & Hpat & Hrun & Hcheck & Hex).
  symmetry in Hex. apply app_eq_nil in Hex as [Hex _].
  apply check_actions_spec in Hcheck as [-> _]; [|done].
  eapply (consume_option sp a flag pre arg post) with (pat := pat) (skip := 0%nat);
    try done. lia.
Qed.

Lemma option_value_witness :
  ∃ v,
    py_float (Externals := sample.env) "300" = Some v ∧
    sample.parsed sample.md_line !! "temp" = Some (VFloat v).
Proof.
  destruct (option_value (H := sample.env) "md" p_md
              {| option_strings := ["-t"; "--temp"]; dest := "temp";
                 nargs := nargs_None; action := store; type := type_float;
                 default := Default VNone; required := true; mutex_group := None |}
              "-t" ["-i"; "a.cif"; "b.cif"] "300"
              ["-e"; "nvt"; "-dt"; "1"; "-n"; "50"]
              (sample.parsed sample.md_line) eq_refl)
    as (v & Hv & Hargs).
  - do 3 apply list_elem_of_further. apply list_elem_of_here.
  - apply list_elem_of_here.
  - reflexivity.
  - reflexivity.
  - vm_compute; reflexivity.
  - vm_compute; reflexivity.
  - unfold get_value in Hv. cbn [type] in Hv.
    destruct (py_float "300") as [x|]; [|discriminate].
    exists x. split; [reflexivity|]. injection Hv as <-. exact Hargs.
Defined.
